(** * Martini request-dispatch core: a shallow embedding and its properties

    The development follows the four source files of the repository:
    - [response_writer.go]: the response wrapper ([responseWriter]);
    - the return-value interpreter ([defaultReturnHandler]);
    - [router.go]: route compilation, matching, reverse routing, groups and
      the per-route pipeline ([routeContext]);
    - [martini.go]: the per-request pipeline ([context]).

    Go strings are byte sequences and are modelled by [string]; Go's [int]
    is the 64-bit two's complement integer, modelled by [Z] with its
    wrap-around written out where arithmetic is performed on it. *)

From Stdlib Require Import ZArith String Ascii List Bool Lia DecimalString Sorted.
From stdpp Require Import gmap strings.
Import ListNotations.

Local Open Scope string_scope.
Local Open Scope list_scope.

(** ** Go's [int] *)

Definition int_min : Z := (- 2 ^ 63)%Z.
Definition int_max : Z := (2 ^ 63 - 1)%Z.

(** Two's complement wrap-around of 64-bit addition results. *)
Definition wrap_int (z : Z) : Z := ((z + 2 ^ 63) mod 2 ^ 64 - 2 ^ 63)%Z.

Definition in_int (z : Z) : Prop := (int_min <= z <= int_max)%Z.

(** * response_writer.go *)

Module RW.

(** A [BeforeFunc] is a Go closure taking the wrapper.  The model keeps the
    identity of the registered closure; running it is recorded on the
    transport (such functions set headers on the wrapped sink). *)
Inductive BeforeFunc : Type := Hook (label : nat).

(** What reaches the wrapped [http.ResponseWriter], in order. *)
Inductive wire_event : Type :=
| WireBefore (f : BeforeFunc)          (* a before-function ran *)
| WireHeader (s : Z)                   (* ResponseWriter.WriteHeader(s) *)
| WireBody (b : string)                (* ResponseWriter.Write(b) *)
| WireFlush.                           (* Flusher.Flush() *)

(** The wrapped sink is an external collaborator: [wire] is the history of
    calls it received, [accepted b] the byte count its [Write] reports for
    [b], [flusher] whether it implements [http.Flusher]. *)
Record transport : Type := {
  wire : list wire_event;
  accepted : string -> Z;
  flusher : bool
}.

Definition send (e : wire_event) (t : transport) : transport :=
  {| wire := wire t ++ [e]; accepted := accepted t; flusher := flusher t |}.

(** [type responseWriter struct] *)
Record responseWriter : Type := {
  ResponseWriter : transport;
  status : Z;
  size : Z;
  beforeFuncs : list BeforeFunc
}.

(** [NewResponseWriter] *)
Definition NewResponseWriter (rw : transport) : responseWriter :=
  {| ResponseWriter := rw; status := 0; size := 0; beforeFuncs := [] |}.

(** [callBefore]: [for i := len(rw.beforeFuncs) - 1; i >= 0; i--]. *)
Fixpoint callBefore_from (i : nat) (fs : list BeforeFunc) (t : transport)
  : transport :=
  match i with
  | O => t
  | S j =>
      match nth_error fs j with
      | Some f => callBefore_from j fs (send (WireBefore f) t)
      | None => callBefore_from j fs t
      end
  end.

Definition callBefore (rw : responseWriter) : responseWriter :=
  {| ResponseWriter :=
       callBefore_from (List.length (beforeFuncs rw)) (beforeFuncs rw)
         (ResponseWriter rw);
     status := status rw; size := size rw; beforeFuncs := beforeFuncs rw |}.

(** [WriteHeader] *)
Definition WriteHeader (s : Z) (rw : responseWriter) : responseWriter :=
  let rw1 := callBefore rw in
  {| ResponseWriter := send (WireHeader s) (ResponseWriter rw1);
     status := s; size := size rw1; beforeFuncs := beforeFuncs rw1 |}.

(** [Written] *)
Definition Written (rw : responseWriter) : bool :=
  negb (Z.eqb (status rw) 0).

Definition StatusOK : Z := 200.

(** [Write]; the returned count is the one reported by the sink. *)
Definition Write (b : string) (rw : responseWriter) : Z * responseWriter :=
  let rw1 := if Written rw then rw else WriteHeader StatusOK rw in
  let n := accepted (ResponseWriter rw1) b in
  (n, {| ResponseWriter := send (WireBody b) (ResponseWriter rw1);
         status := status rw1;
         size := wrap_int (size rw1 + n);
         beforeFuncs := beforeFuncs rw1 |}).

(** [Status], [Size] *)
Definition Status (rw : responseWriter) : Z := status rw.
Definition Size (rw : responseWriter) : Z := size rw.

(** [Before] *)
Definition Before (before : BeforeFunc) (rw : responseWriter)
  : responseWriter :=
  {| ResponseWriter := ResponseWriter rw; status := status rw;
     size := size rw; beforeFuncs := beforeFuncs rw ++ [before] |}.

(** [Flush] *)
Definition Flush (rw : responseWriter) : responseWriter :=
  if flusher (ResponseWriter rw)
  then {| ResponseWriter := send WireFlush (ResponseWriter rw);
          status := status rw; size := size rw;
          beforeFuncs := beforeFuncs rw |}
  else rw.

(** The operations a holder of the wrapper can perform on it. *)
Inductive op : Type :=
| OpBefore (f : BeforeFunc)
| OpWriteHeader (s : Z)
| OpWrite (b : string)
| OpFlush.

Definition apply_op (o : op) (rw : responseWriter) : responseWriter :=
  match o with
  | OpBefore f => Before f rw
  | OpWriteHeader s => WriteHeader s rw
  | OpWrite b => snd (Write b rw)
  | OpFlush => Flush rw
  end.

Definition apply_ops (ops : list op) (rw : responseWriter) : responseWriter :=
  fold_left (fun acc o => apply_op o acc) ops rw.

End RW.

(** * The return-value interpreter *)

Module Reflect.

(** [reflect.Kind] *)
Inductive Kind : Type :=
| Invalid | Bool | Int | Int8 | Int16 | Int32 | Int64
| Uint | Uint8 | Uint16 | Uint32 | Uint64 | Uintptr
| Float32 | Float64 | Complex64 | Complex128
| Array | Chan | Func | Interface | Map | Ptr | Slice | String | Struct
| UnsafePointer.

Definition Kind_eqb (a b : Kind) : bool :=
  match a, b with
  | Invalid, Invalid | Bool, Bool | Int, Int | Int8, Int8 | Int16, Int16
  | Int32, Int32 | Int64, Int64 | Uint, Uint | Uint8, Uint8
  | Uint16, Uint16 | Uint32, Uint32 | Uint64, Uint64 | Uintptr, Uintptr
  | Float32, Float32 | Float64, Float64 | Complex64, Complex64
  | Complex128, Complex128 | Array, Array | Chan, Chan | Func, Func
  | Interface, Interface | Map, Map | Ptr, Ptr | Slice, Slice
  | String, String | Struct, Struct | UnsafePointer, UnsafePointer => true
  | _, _ => false
  end.

(** Kinds whose values the interpreter only observes through [Kind] and
    [String]. *)
Inductive opaque_kind : Type :=
| KBool | KInt8 | KInt16 | KInt32 | KInt64
| KUint | KUint8 | KUint16 | KUint32 | KUint64 | KUintptr
| KFloat32 | KFloat64 | KComplex64 | KComplex128
| KArray | KChan | KFunc | KMap | KStruct | KUnsafePointer.

Definition kind_of_opaque (k : opaque_kind) : Kind :=
  match k with
  | KBool => Bool | KInt8 => Int8 | KInt16 => Int16 | KInt32 => Int32
  | KInt64 => Int64 | KUint => Uint | KUint8 => Uint8 | KUint16 => Uint16
  | KUint32 => Uint32 | KUint64 => Uint64 | KUintptr => Uintptr
  | KFloat32 => Float32 | KFloat64 => Float64 | KComplex64 => Complex64
  | KComplex128 => Complex128 | KArray => Array | KChan => Chan
  | KFunc => Func | KMap => Map | KStruct => Struct
  | KUnsafePointer => UnsafePointer
  end.

(** [reflect.Value].  [ty] is the result of [v.Type().String()].  A nil
    pointer or nil interface has [ZeroValue] as its target, which is what
    [Elem] returns for it. *)
Inductive Value : Type :=
| ZeroValue
| OfInt (ty : string) (n : Z)
| OfString (s : string)
| OfSlice (ty : string) (elem : Kind) (data : string)
| OfPtr (ty : string) (target : Value)
| OfInterface (ty : string) (dynamic : Value)
| OfOpaque (k : opaque_kind) (ty : string).

Definition kind (v : Value) : Kind :=
  match v with
  | ZeroValue => Invalid
  | OfInt _ _ => Int
  | OfString _ => String
  | OfSlice _ _ _ => Slice
  | OfPtr _ _ => Ptr
  | OfInterface _ _ => Interface
  | OfOpaque k _ => kind_of_opaque k
  end.

(** [Value.Int] on a value of kind [Int]. *)
Definition Int_of (v : Value) : Z :=
  match v with OfInt _ n => n | _ => 0%Z end.

(** [Value.Elem] on a pointer or interface. *)
Definition Elem (v : Value) : Value :=
  match v with
  | OfPtr _ t => t
  | OfInterface _ d => d
  | _ => ZeroValue
  end.

(** [Value.Bytes] on a slice of bytes. *)
Definition Bytes (v : Value) : string :=
  match v with OfSlice _ _ d => d | _ => "" end.

(** [Value.String]: the string itself for kind [String], otherwise the
    type between angle brackets. *)
Definition String_of (v : Value) : string :=
  match v with
  | ZeroValue => "<invalid Value>"
  | OfString s => s
  | OfInt ty _ | OfSlice ty _ _ | OfPtr ty _ | OfInterface ty _
  | OfOpaque _ ty => "<" +:+ ty +:+ " Value>"
  end.

End Reflect.

Module ReturnHandler.
Import Reflect RW.

(** [isByteSlice] *)
Definition isByteSlice (val : Value) : bool :=
  Kind_eqb (kind val) Slice &&
  match val with OfSlice _ e _ => Kind_eqb e Uint8 | _ => false end.

(** [canDeref] *)
Definition canDeref (val : Value) : bool :=
  Kind_eqb (kind val) Interface || Kind_eqb (kind val) Ptr.

(** [type ReturnHandler func(Context, []reflect.Value)]: the effect of a
    return handler is its effect on the response wrapper bound in the
    context. *)
Definition ReturnHandler : Type := responseWriter -> list Value -> responseWriter.

(** [defaultReturnHandler]; [res] is the wrapper bound under
    [http.ResponseWriter]. *)
Definition defaultReturnHandler : ReturnHandler := fun res vals =>
  let '(res, responseVal) :=
    if (1 <? List.length vals)%nat && Kind_eqb (kind (nth 0 vals ZeroValue)) Int
    then (WriteHeader (Int_of (nth 0 vals ZeroValue)) res, nth 1 vals ZeroValue)
    else if (0 <? List.length vals)%nat
         then (res, nth 0 vals ZeroValue)
         else (res, ZeroValue) in
  let responseVal := if canDeref responseVal then Elem responseVal else responseVal in
  if isByteSlice responseVal
  then snd (Write (Bytes responseVal) res)
  else snd (Write (String_of responseVal) res).

End ReturnHandler.

(** * Go's [regexp] package, as far as the router uses it

    The router hands its patterns to [regexp.MustCompile] and matches with
    [FindStringSubmatch] and [ReplaceAllStringFunc].  The model covers the
    following part of the RE2 syntax: literal characters, backslash escapes
    of punctuation, [.], bracket classes of single characters, capturing,
    named and non-capturing groups, alternation and the greedy operators
    [*], [+] and [?].  Anything else is reported as [Unsupported] rather than
    guessed.  Matching is leftmost-first (the match a backtracking engine
    finds first), which is the semantics Go documents for its engine.
    Subjects are processed one byte per character, which is Go's rune-wise
    behaviour on ASCII subjects. *)

Module Regexp.

Inductive outcome (A : Type) : Type :=
| Parsed (a : A)
| SyntaxError          (* [regexp.Compile] returns an error *)
| Unsupported.          (* outside the modelled syntax *)
Arguments Parsed {A} a.
Arguments SyntaxError {A}.
Arguments Unsupported {A}.

Definition obind {A B} (x : outcome A) (f : A -> outcome B) : outcome B :=
  match x with
  | Parsed a => f a
  | SyntaxError => SyntaxError
  | Unsupported => Unsupported
  end.

(** ** Syntax *)

Inductive regex : Type :=
| Empty
| Lit (c : ascii)
| AnyNotNL
| Class (neg : bool) (cs : list ascii)
| Cat (r1 r2 : regex)
| Alt (r1 r2 : regex)
| Star (r : regex)
| Plus (r : regex)
| Quest (r : regex)
| Capture (i : nat) (r : regex).

Fixpoint nullable (r : regex) : bool :=
  match r with
  | Empty => true
  | Lit _ | AnyNotNL | Class _ _ => false
  | Cat a b => nullable a && nullable b
  | Alt a b => nullable a || nullable b
  | Star _ | Quest _ => true
  | Plus a => nullable a
  | Capture _ a => nullable a
  end.

(** ** Lexer: a character-by-character state machine *)

Inductive token : Type :=
| TLit (c : ascii)
| TDot
| TSet (neg : bool) (cs : list ascii)
| TOpen (name : string)        (* capturing group; [""] when unnamed *)
| TOpenNC                      (* [(?:] *)
| TClose
| TBar
| TStar
| TPlus
| TQuest.

Inductive lexmode : Type :=
| LNormal
| LEscape                                  (* after a backslash *)
| LSetStart                                (* after [[] *)
| LSet (neg : bool) (items : list ascii)
| LSetEscape (neg : bool) (items : list ascii)
| LOpen                                    (* after [(] *)
| LOpenQ                                   (* after [(?] *)
| LOpenQP                                  (* after [(?P] *)
| LName (name : string).                   (* after [(?P<] *)

Definition is_digit (c : ascii) : bool :=
  let n := nat_of_ascii c in (48 <=? n)%nat && (n <=? 57)%nat.
Definition is_upper (c : ascii) : bool :=
  let n := nat_of_ascii c in (65 <=? n)%nat && (n <=? 90)%nat.
Definition is_lower (c : ascii) : bool :=
  let n := nat_of_ascii c in (97 <=? n)%nat && (n <=? 122)%nat.
Definition is_alnum (c : ascii) : bool := is_digit c || is_upper c || is_lower c.
(** A character of a capture name: a letter, a digit or an underscore. *)
Definition is_word (c : ascii) : bool := is_alnum c || Ascii.eqb c "_".
Definition is_ascii7 (c : ascii) : bool := (nat_of_ascii c <? 128)%nat.

Definition mem_ascii (c : ascii) (cs : list ascii) : bool :=
  existsb (Ascii.eqb c) cs.

Definition step_normal (c : ascii) : outcome (list token * lexmode) :=
  if Ascii.eqb c "\" then Parsed ([], LEscape)
  else if Ascii.eqb c "." then Parsed ([TDot], LNormal)
  else if Ascii.eqb c "[" then Parsed ([], LSetStart)
  else if Ascii.eqb c "(" then Parsed ([], LOpen)
  else if Ascii.eqb c ")" then Parsed ([TClose], LNormal)
  else if Ascii.eqb c "|" then Parsed ([TBar], LNormal)
  else if Ascii.eqb c "*" then Parsed ([TStar], LNormal)
  else if Ascii.eqb c "+" then Parsed ([TPlus], LNormal)
  else if Ascii.eqb c "?" then Parsed ([TQuest], LNormal)
  else if mem_ascii c ["{"; "}"; "]"; "^"; "$"]%char then Unsupported
  else if is_ascii7 c then Parsed ([TLit c], LNormal)
  else Unsupported.

Definition step_set (neg : bool) (items : list ascii) (c : ascii)
  : outcome (list token * lexmode) :=
  if Ascii.eqb c "]" then
    match items with
    | [] => Unsupported
    | _ => Parsed ([TSet neg items], LNormal)
    end
  else if Ascii.eqb c "\" then Parsed ([], LSetEscape neg items)
  else if mem_ascii c ["-"; "["; "^"]%char then Unsupported
  else if is_ascii7 c then Parsed ([], LSet neg (items ++ [c]))
  else Unsupported.

Definition step (m : lexmode) (c : ascii) : outcome (list token * lexmode) :=
  match m with
  | LNormal => step_normal c
  | LEscape =>
      if is_ascii7 c && negb (is_alnum c) then Parsed ([TLit c], LNormal)
      else Unsupported
  | LSetStart =>
      if Ascii.eqb c "^" then Parsed ([], LSet true []) else step_set false [] c
  | LSet neg items => step_set neg items c
  | LSetEscape neg items =>
      if is_ascii7 c && negb (is_alnum c)
      then Parsed ([], LSet neg (items ++ [c]))
      else Unsupported
  | LOpen =>
      if Ascii.eqb c "?" then Parsed ([], LOpenQ)
      else obind (step_normal c) (fun '(ts, m') => Parsed (TOpen "" :: ts, m'))
  | LOpenQ =>
      if Ascii.eqb c "P" then Parsed ([], LOpenQP)
      else if Ascii.eqb c ":" then Parsed ([TOpenNC], LNormal)
      else Unsupported
  | LOpenQP =>
      if Ascii.eqb c "<" then Parsed ([], LName "") else Unsupported
  | LName name =>
      if Ascii.eqb c ">" then
        match name with
        | "" => SyntaxError
        | _ => Parsed ([TOpen name], LNormal)
        end
      else if is_word c then Parsed ([], LName (name +:+ String c ""))
      else SyntaxError
  end.

Fixpoint lex (m : lexmode) (s : string) : outcome (list token) :=
  match s with
  | "" =>
      match m with
      | LNormal => Parsed []
      | LOpen => Parsed [TOpen ""]
      | _ => SyntaxError
      end
  | String c s' =>
      obind (step m c) (fun '(ts, m') =>
      obind (lex m' s') (fun rest => Parsed (ts ++ rest)))
  end.

(** ** Parser: a stack of open groups, as in Go's own parser *)

(** An open group: how it was opened, the alternatives completed so far,
    the items of the alternative being read (most recent first), and whether
    the most recent item is the result of a repetition operator. *)
Inductive opener : Type :=
| OBase | OCapture (i : nat) | ONonCapture.

Record frame : Type := {
  fopen : opener;
  falts : list regex;
  fitems : list regex;
  frepeated : bool
}.

Fixpoint cat_all (items : list regex) : regex :=
  match items with
  | [] => Empty
  | [r] => r
  | r :: rest => Cat r (cat_all rest)
  end.

Fixpoint alt_all (alts : list regex) : regex :=
  match alts with
  | [] => Empty
  | [r] => r
  | r :: rest => Alt r (alt_all rest)
  end.

Definition close_frame (f : frame) : regex :=
  let r := alt_all (falts f ++ [cat_all (rev (fitems f))]) in
  match fopen f with
  | OCapture i => Capture i r
  | _ => r
  end.

Definition push_item (r : regex) (rep : bool) (f : frame) : frame :=
  {| fopen := fopen f; falts := falts f; fitems := r :: fitems f;
     frepeated := rep |}.

Definition new_frame (o : opener) : frame :=
  {| fopen := o; falts := []; fitems := []; frepeated := false |}.

(** A repetition operator applies to the most recent item. *)
Definition repeat (mk : regex -> regex) (needs_progress lazy : bool)
    (f : frame) : outcome frame :=
  match fitems f with
  | [] => SyntaxError
  | r :: items =>
      if frepeated f then (if lazy then Unsupported else SyntaxError)
      else if needs_progress && nullable r then Unsupported
      else Parsed {| fopen := fopen f; falts := falts f;
                     fitems := mk r :: items; frepeated := true |}
  end.

(** State of the parser: the innermost frame, the enclosing ones, and the
    names of the capture groups opened so far (in order of their opening
    parenthesis). *)
Fixpoint parse (ts : list token) (cur : frame) (stack : list frame)
    (names : list string) : outcome (regex * list string) :=
  match ts with
  | [] =>
      match stack with
      | [] => Parsed (close_frame cur, names)
      | _ => SyntaxError
      end
  | t :: ts' =>
      match t with
      | TLit c => parse ts' (push_item (Lit c) false cur) stack names
      | TDot => parse ts' (push_item AnyNotNL false cur) stack names
      | TSet neg cs => parse ts' (push_item (Class neg cs) false cur) stack names
      | TOpen name =>
          parse ts' (new_frame (OCapture (S (List.length names))))
            (cur :: stack) (names ++ [name])
      | TOpenNC => parse ts' (new_frame ONonCapture) (cur :: stack) names
      | TClose =>
          match stack with
          | [] => SyntaxError
          | up :: stack' =>
              parse ts' (push_item (close_frame cur) false up) stack' names
          end
      | TBar =>
          parse ts'
            {| fopen := fopen cur;
               falts := falts cur ++ [cat_all (rev (fitems cur))];
               fitems := []; frepeated := false |} stack names
      | TStar => obind (repeat Star true false cur)
                   (fun cur' => parse ts' cur' stack names)
      | TPlus => obind (repeat Plus true false cur)
                   (fun cur' => parse ts' cur' stack names)
      | TQuest => obind (repeat Quest false true cur)
                    (fun cur' => parse ts' cur' stack names)
      end
  end.

(** [*regexp.Regexp]: the expression and the names of its groups;
    [SubexpNames] has the empty name of the whole match in front. *)
Record Regexp : Type := {
  expr : regex;
  names : list string
}.

Definition NumSubexp (re : Regexp) : nat := List.length (names re).
Definition SubexpNames (re : Regexp) : list string := "" :: names re.

(** [regexp.Compile] *)
Definition Compile (src : string) : outcome Regexp :=
  obind (lex LNormal src) (fun ts =>
  obind (parse ts (new_frame OBase) [] []) (fun '(r, ns) =>
  Parsed {| expr := r; names := ns |})).

End Regexp.

Module Matcher.
Import Regexp.

(** ** Leftmost-first matching

    The matcher is a backtracking matcher in continuation-passing style: the
    first complete match found when alternatives are tried left to right and
    greedy operators try one more iteration first.  Capture registers hold
    the text most recently matched by each group ([""] when unset, which is
    what [FindStringSubmatch] reports for a group that did not take part). *)

Abbreviation captures := (list string).
Definition answer : Type := option (string * captures).
Definition kont : Type := string -> captures -> answer.

(** The part of [s] consumed when [rest] is what remains of it. *)
Definition consumed (s rest : string) : string :=
  String.substring 0 (String.length s - String.length rest) s.

Definition class_matches (neg : bool) (cs : list ascii) (c : ascii) : bool :=
  xorb neg (mem_ascii c cs).

(** Iteration of a starred expression.  An iteration must consume input;
    [n] bounds the number of iterations by the length of the subject. *)
Fixpoint iterate (body : string -> captures -> kont -> answer) (n : nat)
    (s : string) (cs : captures) (k : kont) : answer :=
  match n with
  | O => k s cs
  | S n' =>
      match body s cs (fun s' cs' =>
              if (String.length s' <? String.length s)%nat
              then iterate body n' s' cs' k else None) with
      | Some x => Some x
      | None => k s cs
      end
  end.

Fixpoint exec (r : regex) (s : string) (cs : captures) (k : kont) : answer :=
  match r with
  | Empty => k s cs
  | Lit c =>
      match s with
      | String c' s' => if Ascii.eqb c c' then k s' cs else None
      | "" => None
      end
  | AnyNotNL =>
      match s with
      | String c' s' => if Ascii.eqb c' "010" then None else k s' cs
      | "" => None
      end
  | Class neg items =>
      match s with
      | String c' s' => if class_matches neg items c' then k s' cs else None
      | "" => None
      end
  | Cat r1 r2 => exec r1 s cs (fun s' cs' => exec r2 s' cs' k)
  | Alt r1 r2 =>
      match exec r1 s cs k with
      | Some x => Some x
      | None => exec r2 s cs k
      end
  | Star r1 => iterate (exec r1) (String.length s) s cs k
  | Plus r1 =>
      exec r1 s cs (fun s' cs' => iterate (exec r1) (String.length s') s' cs' k)
  | Quest r1 =>
      match exec r1 s cs k with
      | Some x => Some x
      | None => k s cs
      end
  | Capture i r1 =>
      exec r1 s cs (fun s' cs' => k s' (<[i := consumed s s']> cs'))
  end.

(** The match that starts at the beginning of [s], if there is one: the
    rest of the subject and the registers, register 0 holding the match. *)
Definition match_here (re : Regexp) (s : string) : answer :=
  exec (expr re) s (replicate (S (NumSubexp re)) "")
    (fun s' cs' => Some (s', <[0%nat := consumed s s']> cs')).

(** [FindStringSubmatch]: the leftmost match; [[]] stands for Go's [nil]. *)
Fixpoint FindStringSubmatch (re : Regexp) (s : string) : list string :=
  match match_here re s with
  | Some (_, cs) => cs
  | None =>
      match s with
      | "" => []
      | String _ s' => FindStringSubmatch re s'
      end
  end.

(** [ReplaceAllStringFunc] with a replacement closure that carries state
    [St] from one call to the next (the closures of the router count their
    calls).  [n] bounds the number of steps by the length of the subject;
    [after] tells that a match ended exactly here, in which case an empty
    match is not replaced. *)
Fixpoint replace_all {St : Type} (re : Regexp)
    (repl : St -> string -> string * St)
    (n : nat) (after : bool) (s : string) (st : St) : string * St :=
  match n with
  | O => (s, st)
  | S n' =>
      match match_here re s with
      | Some (rest, cs) =>
          let m := nth 0 cs "" in
          if (String.length rest <? String.length s)%nat then
            let '(out, st1) := repl st m in
            let '(tail, st2) := replace_all re repl n' true rest st1 in
            (out +:+ tail, st2)
          else
            let '(out, st1) := if after then ("", st) else repl st m in
            match s with
            | "" => (out, st1)
            | String c s' =>
                let '(tail, st2) := replace_all re repl n' false s' st1 in
                (out +:+ String c tail, st2)
            end
      | None =>
          match s with
          | "" => ("", st)
          | String c s' =>
              let '(tail, st2) := replace_all re repl n' false s' st in
              (String c tail, st2)
          end
      end
  end.

Definition ReplaceAllStringFunc {St : Type} (re : Regexp) (src : string)
    (repl : St -> string -> string * St) (st : St) : string * St :=
  replace_all re repl (S (String.length src)) false src st.

End Matcher.

(** * Handlers and the per-request state *)

(** The result of running Go code: a value, a panic, a question the model
    declines to answer (a regular expression outside the modelled syntax),
    or the exhaustion of an iteration bound (shown below not to happen). *)
Inductive result (A : Type) : Type :=
| Ok (a : A)
| Panic (msg : string)
| Unmodelled
| Starved.
Arguments Ok {A} a.
Arguments Panic {A} msg.
Arguments Unmodelled {A}.
Arguments Starved {A}.

Module Handlers.
Import RW Reflect.

(** [type Params map[string]string] *)
Abbreviation Params := (gmap string string).

(** The request, as far as the router reads it: [req.Method] and
    [req.URL.Path]. *)
Record Request : Type := { Method : string; Path : string }.

(** A handler is any Go function.  What the pipeline can observe of its
    run is the sequence of calls it makes on the services injected into it
    and the values it returns; [body] is such a run, with one constructor
    per call: on the context ([Next], [Written]), on the response writer
    ([WriteHeader], [Write], [Before]), and the use of an injected [Params]
    argument. *)
Inductive body : Type :=
| Return (vals : list Value)
| Fail (msg : string)                       (* the handler panics *)
| CallNext (k : body)
| CallWritten (k : bool -> body)
| CallWriteHeader (s : Z) (k : body)
| CallWrite (b : string) (k : body)
| CallBefore (f : BeforeFunc) (k : body)
| WithParams (k : Params -> body).

(** [type Handler interface{}]: a function, a value of another type, or
    the nil interface value. *)
Inductive Handler : Type :=
| Callable (f : body)
| NotCallable
| NilHandler.

(** The panic of the Go runtime when a method is called on a nil interface
    value; [reflect.TypeOf(nil)] is the nil [reflect.Type]. *)
Definition nil_dereference : string :=
  "runtime error: invalid memory address or nil pointer dereference".

(** [validateHandler]: [reflect.TypeOf(handler).Kind() != reflect.Func].  On
    the nil handler the call of [Kind] fails before the comparison. *)
Definition validateHandler (handler : Handler) : result unit :=
  match handler with
  | Callable _ => Ok tt
  | NotCallable => Panic "martini handler must be a callable func"
  | NilHandler => Panic nil_dereference
  end.

(** Which pipeline an event belongs to: the per-request [context] or the
    per-route [routeContext]. *)
Inductive level : Type := Global | Routed.

(** The observable history of a request: handler invocations (with the
    cursor and what [Written] reported at that moment), their returns,
    calls of the return handler, and calls of [Next]. *)
Inductive event : Type :=
| Invoked (l : level) (i : nat) (written : bool)
| Returned (l : level) (i : nat) (vals : list Value)
| Interpreted (l : level) (vals : list Value)
| Yielded (l : level) (written : bool).

(** The objects of one request: the response wrapper [context.rw] (also
    bound as [http.ResponseWriter]), the injector bindings of [Params] and
    [ReturnHandler], the request, the cursors [context.index] and
    [routeContext.index], and the history. *)
Record world : Type := {
  rw : responseWriter;
  params : option Params;
  returns : option ReturnHandler.ReturnHandler;
  request : Request;
  cindex : nat;
  rindex : nat;
  trace : list event
}.

Definition set_rw (x : responseWriter) (w : world) : world :=
  {| rw := x; params := params w; returns := returns w;
     request := request w; cindex := cindex w; rindex := rindex w;
     trace := trace w |}.
Definition set_params (p : Params) (w : world) : world :=
  {| rw := rw w; params := Some p; returns := returns w;
     request := request w; cindex := cindex w; rindex := rindex w;
     trace := trace w |}.
Definition set_cindex (i : nat) (w : world) : world :=
  {| rw := rw w; params := params w; returns := returns w;
     request := request w; cindex := i; rindex := rindex w;
     trace := trace w |}.
Definition set_rindex (i : nat) (w : world) : world :=
  {| rw := rw w; params := params w; returns := returns w;
     request := request w; cindex := cindex w; rindex := i;
     trace := trace w |}.
Definition record (e : event) (w : world) : world :=
  {| rw := rw w; params := params w; returns := returns w;
     request := request w; cindex := cindex w; rindex := rindex w;
     trace := trace w ++ [e] |}.

(** ** State and panic monad of a request *)

Definition M (A : Type) : Type := world -> result A * world.

Definition ret {A} (a : A) : M A := fun w => (Ok a, w).
Definition bind {A B} (m : M A) (f : A -> M B) : M B := fun w =>
  match m w with
  | (Ok a, w') => f a w'
  | (Panic msg, w') => (Panic msg, w')
  | (Unmodelled, w') => (Unmodelled, w')
  | (Starved, w') => (Starved, w')
  end.
Definition lift {A} (x : result A) : M A := fun w => (x, w).
Definition panic {A} (msg : string) : M A := lift (Panic msg).
Definition starve {A} : M A := lift Starved.
Definition get : M world := fun w => (Ok w, w).
Definition modify (f : world -> world) : M unit := fun w => (Ok tt, f w).
Definition tell (e : event) : M unit := modify (record e).

Notation "'let*' x ':=' m 'in' k" := (bind m (fun x => k))
  (at level 10, x name, m at level 100, k at level 200, only parsing).
Notation "'do' m 'then' k" := (bind m (fun _ => k))
  (at level 10, m at level 100, k at level 200, only parsing).

(** [Context.Written] of either pipeline: [c.rw.Written()]. *)
Definition written : M bool := let* w := get in ret (Written (rw w)).

(** [Invoke] of a function: its run, with [next] the [Next] method of the
    context that is injected into it.  The injector fails when a [Params]
    argument is asked for and none is bound. *)
Fixpoint call (l : level) (next : M unit) (f : body) : M (list Value) :=
  match f with
  | Return vals => ret vals
  | Fail msg => panic msg
  | CallNext k =>
      let* wr := written in
      do tell (Yielded l wr) then
      do next then
      call l next k
  | CallWritten k => let* wr := written in call l next (k wr)
  | CallWriteHeader s k =>
      do modify (fun w => set_rw (WriteHeader s (rw w)) w) then call l next k
  | CallWrite b k =>
      do modify (fun w => set_rw (snd (Write b (rw w))) w) then call l next k
  | CallBefore g k =>
      do modify (fun w => set_rw (Before g (rw w)) w) then call l next k
  | WithParams k =>
      let* w := get in
      match params w with
      | Some p => call l next (k p)
      | None => panic "Value not found for type martini.Params"
      end
  end.

(** [Invoke] of a handler: the injector asks the type of the handler for
    its parameters, [reflect.TypeOf(f).NumIn()], which panics on a value
    that is not a function and, with the nil dereference, on the nil
    handler. *)
Definition Invoke (l : level) (next : M unit) (handler : Handler)
  : M (list Value) :=
  match handler with
  | Callable f => call l next f
  | NotCallable => panic "reflect: NumIn of non-func type"
  | NilHandler => panic nil_dereference
  end.

End Handlers.

(** * router.go *)

Module Router.
Import RW Regexp Matcher Handlers.

(** [regexp.MustCompile] *)
Definition MustCompile (src : string) : result Regexp :=
  match Compile src with
  | Parsed re => Ok re
  | SyntaxError => Panic ("regexp: Compile(" +:+ src +:+ "): error parsing regexp")
  | Unsupported => Unmodelled
  end.

Definition rbind {A B} (x : result A) (f : A -> result B) : result B :=
  match x with
  | Ok a => f a
  | Panic msg => Panic msg
  | Unmodelled => Unmodelled
  | Starved => Starved
  end.

Notation "'try' x ':=' m 'in' k" := (rbind m (fun x => k))
  (at level 10, x name, m at level 100, k at level 200, only parsing).

(** Decimal rendering of [%d] and of [strconv.FormatInt(_, 10)]. *)
Definition format_nat (n : nat) : string := NilZero.string_of_uint (Nat.to_uint n).
Definition FormatInt (z : Z) : string := NilZero.string_of_int (Z.to_int z).

(** [m[1:]] *)
Definition tail_of (m : string) : string :=
  match m with String _ t => t | "" => "" end.

(** [type route struct] *)
Record route : Type := {
  method : string;
  regex : Regexp;
  handlers : list Handler;
  pattern : string;
  name : string
}.

(** [type group struct] *)
Record group : Type := {
  gpattern : string;
  ghandlers : list Handler
}.

(** [type router struct] *)
Record router : Type := {
  routes : list route;
  notFounds : list Handler;
  groups : list group
}.

(** [http.NotFound] as a handler: replies 404 with a plain-text body. *)
Definition http_NotFound : Handler :=
  Callable (CallWriteHeader 404
             (CallWrite ("404 page not found" +:+ String "010" "") (Return []))).

(** [NewRouter] *)
Definition NewRouter : router :=
  {| routes := []; notFounds := [http_NotFound]; groups := [] |}.

(** The source text of the two token expressions of [newRoute]. *)
Definition param_token : string := ":[^/#?()\.\\]+".
Definition wildcard_token : string := "\*\*".

(** [newRoute] *)
Definition newRoute (method pattern : string) (handlers : list Handler)
  : result route :=
  let original := pattern in
  try r := MustCompile param_token in
  let pattern :=
    fst (ReplaceAllStringFunc r pattern
           (fun (_ : unit) m => ("(?P<" +:+ tail_of m +:+ ">[^/#?]+)", tt)) tt) in
  try r2 := MustCompile wildcard_token in
  let pattern :=
    fst (ReplaceAllStringFunc r2 pattern
           (fun index _ =>
              let index := S index in
              ("(?P<_" +:+ format_nat index +:+ ">[^#?]*)", index)) 0%nat) in
  let pattern := pattern +:+ "\/?" in
  try re := MustCompile pattern in
  Ok {| method := method; regex := re; handlers := handlers;
        pattern := original; name := "" |}.

(** [route.MatchMethod] *)
Definition MatchMethod (r : route) (method_ : string) : bool :=
  String.eqb (method r) "*" || String.eqb method_ (method r) ||
  (String.eqb method_ "HEAD" && String.eqb (method r) "GET").

(** The loop of [route.Match] over [SubexpNames], from index [i] on. *)
Fixpoint collect (names : list string) (i : nat) (matches : list string)
    (params : Params) : Params :=
  match names with
  | [] => params
  | name :: rest =>
      collect rest (S i) matches
        (if (0 <? String.length name)%nat
         then <[name := nth i matches ""]> params
         else params)
  end.

(** [route.Match]; the empty map stands for the [nil] map. *)
Definition Match (r : route) (method_ path : string) : bool * Params :=
  if negb (MatchMethod r method_) then (false, ∅)
  else
    let matches := FindStringSubmatch (regex r) path in
    if (0 <? List.length matches)%nat && String.eqb (nth 0 matches "") path
    then (true, collect (SubexpNames (regex r)) 0 matches ∅)
    else (false, ∅).

(** [route.Validate] *)
Fixpoint Validate (hs : list Handler) : result unit :=
  match hs with
  | [] => Ok tt
  | h :: rest => try _ := validateHandler h in Validate rest
  end.

(** [route.URLWith] *)
Definition URLWith (r : route) (args : list string) : result string :=
  if (0 <? List.length args)%nat then
    try reg := MustCompile param_token in
    let argCount := List.length args in
    let url :=
      fst (ReplaceAllStringFunc reg (pattern r)
             (fun i m =>
                let val := if (i <? argCount)%nat then nth i args "" else m in
                (val, S i)) 0%nat) in
    Ok url
  else Ok (pattern r).

(** [route.Name] *)
Definition Name (name_ : string) (r : route) : route :=
  {| method := method r; regex := regex r; handlers := handlers r;
     pattern := pattern r; name := name_ |}.

(** [router.addRoute]; returns the route and the updated router. *)
Definition addRoute (method_ pattern_ : string) (handlers_ : list Handler)
    (r : router) : result (route * router) :=
  let '(pattern_, handlers_) :=
    if (0 <? List.length (groups r))%nat then
      let '(groupPattern, h) :=
        fold_left (fun '(gp, h) g => (gp +:+ gpattern g, h ++ ghandlers g))
          (groups r) ("", []) in
      (groupPattern +:+ pattern_, h ++ handlers_)
    else (pattern_, handlers_) in
  try rt := newRoute method_ pattern_ handlers_ in
  try _ := Validate (handlers rt) in
  Ok (rt, {| routes := routes r ++ [rt]; notFounds := notFounds r;
             groups := groups r |}).

(** [router.findRoute] *)
Fixpoint findRoute (rs : list route) (name_ : string) : option route :=
  match rs with
  | [] => None
  | rt :: rest => if String.eqb (name rt) name_ then Some rt else findRoute rest name_
  end.

(** [router.NotFound] *)
Definition NotFound (handler : list Handler) (r : router) : router :=
  {| routes := routes r; notFounds := handler; groups := groups r |}.

(** [router.Group]: [fn] is the registration function, run on the router
    with the group pushed. *)
Definition Group (pattern_ : string) (fn : router -> result router)
    (h : list Handler) (r : router) : result router :=
  let r1 := {| routes := routes r; notFounds := notFounds r;
               groups := groups r ++ [{| gpattern := pattern_; ghandlers := h |}] |} in
  try r2 := fn r1 in
  Ok {| routes := routes r2; notFounds := notFounds r2;
        groups := removelast (groups r2) |}.

(** The arguments of [URLFor]: values of type [interface{}]. *)
Inductive arg : Type :=
| ArgInt (v : Z)
| ArgString (v : string)
| ArgNil
| ArgOther (ty : string).         (* a non-nil value of any other type *)

(** The loop of [URLFor] over its params. *)
Fixpoint coerce (params_ : list arg) (args : list string) : result (list string) :=
  match params_ with
  | [] => Ok args
  | param :: rest =>
      match param with
      | ArgInt v => coerce rest (args ++ [FormatInt v])
      | ArgString v => coerce rest (args ++ [v])
      | ArgNil => coerce rest args
      | ArgOther _ => Panic "Arguments passed to URLFor must be integers or strings"
      end
  end.

(** [router.URLFor] *)
Definition URLFor (r : router) (name_ : string) (params_ : list arg)
  : result string :=
  match findRoute (routes r) name_ with
  | None => Panic "route not found"
  | Some rt =>
      try args := coerce params_ [] in
      URLWith rt args
  end.

(** [hasMethod] *)
Definition hasMethod (methods : list string) (method_ : string) : bool :=
  existsb (fun v => String.eqb v method_) methods.

(** [router.MethodsFor] *)
Definition MethodsFor (r : router) (path : string) : list string :=
  fold_left
    (fun methods rt =>
       let matches := FindStringSubmatch (regex rt) path in
       if (0 <? List.length matches)%nat && String.eqb (nth 0 matches "") path
          && negb (hasMethod methods (method rt))
       then methods ++ [method rt] else methods)
    (routes r) [].

End Router.

(** * The two pipelines *)

Module RouteContext.
Import RW Handlers Router.

(** [routeContext.run], with [n] bounding the number of loop iterations
    and nested [Next] calls; [Next] is [r.index += 1; r.run()]. *)
Fixpoint run_n (n : nat) (handlers_ : list Handler) : M unit :=
  let* w := get in
  if (rindex w <? List.length handlers_)%nat then
    match n with
    | O => starve
    | S n' =>
        let Next :=
          do modify (fun w => set_rindex (rindex w + 1) w) then
          run_n n' handlers_ in
        match nth_error handlers_ (rindex w) with
        | None => panic "index out of range"
        | Some handler =>
            do tell (Invoked Routed (rindex w) (Written (rw w))) then
            let* vals := Invoke Routed Next handler in
            do tell (Returned Routed (rindex w) vals) then
            do modify (fun w => set_rindex (rindex w + 1) w) then
            do (if (0 <? List.length vals)%nat then
                  let* w := get in
                  match returns w with
                  | None => panic "reflect: call of reflect.Value.Interface on zero Value"
                  | Some handleReturn =>
                      do tell (Interpreted Routed vals) then
                      modify (fun w => set_rw (handleReturn (rw w) vals) w)
                  end
                else ret tt) then
            let* wr := written in
            if wr then ret tt else run_n n' handlers_
        end
    end
  else ret tt.

(** The loop runs at most once per remaining handler. *)
Definition run (handlers_ : list Handler) : M unit :=
  let* w := get in run_n (List.length handlers_ - rindex w) handlers_.

(** [routeContext.Next] *)
Definition Next (handlers_ : list Handler) : M unit :=
  do modify (fun w => set_rindex (rindex w + 1) w) then run handlers_.

(** [&routeContext{c, 0, handlers}] followed by [run()]. *)
Definition start (handlers_ : list Handler) : M unit :=
  do modify (set_rindex 0) then run handlers_.

(** [route.Handle] *)
Definition route_Handle (rt : route) : M unit := start (handlers rt).

(** The loop of [router.Handle] over the routes. *)
Fixpoint dispatch (rs : list route) (notFounds_ : list Handler) : M unit :=
  match rs with
  | [] => start notFounds_
  | rt :: rest =>
      let* w := get in
      let '(ok, vals) := Match rt (Method (request w)) (Path (request w)) in
      if ok then
        do modify (set_params vals) then route_Handle rt
      else dispatch rest notFounds_
  end.

(** [router.Handle] *)
Definition Handle (r : router) : M unit := dispatch (routes r) (notFounds r).

End RouteContext.

(** * martini.go *)

Module Martini.
Import RW Handlers Router.

(** The action is a handler like the others; [Classic] installs the
    router's [Handle] method there. *)
Inductive Action : Type :=
| Plain (h : Handler)
| Dispatch (r : router).

(** [type Martini struct]; [services] is the [ReturnHandler] bound in its
    injector. *)
Record Martini : Type := {
  handlers : list Handler;
  action : Action;
  services : option ReturnHandler.ReturnHandler
}.

(** [New] *)
Definition New : Martini :=
  {| handlers := []; action := Plain (Callable (Return []));
     services := Some ReturnHandler.defaultReturnHandler |}.

(** [Martini.Use] *)
Definition Use (handler : Handler) (m : Martini) : result Martini :=
  try _ := validateHandler handler in
  Ok {| handlers := handlers m ++ [handler]; action := action m;
        services := services m |}.

(** [Martini.Action]; the router's [Handle] method is a function. *)
Definition SetAction (a : Action) (m : Martini) : result Martini :=
  try _ := match a with Plain h => validateHandler h | Dispatch _ => Ok tt end in
  Ok {| handlers := handlers m; action := a; services := services m |}.

(** [context.handler] *)
Definition handler (m : Martini) (index : nat) : result Action :=
  if (index <? List.length (handlers m))%nat then
    match nth_error (handlers m) index with
    | Some h => Ok (Plain h)
    | None => Panic "index out of range"
    end
  else if (index =? List.length (handlers m))%nat then Ok (action m)
  else Panic "invalid index for context handler".

(** [Invoke] of the function in a slot of the global pipeline. *)
Definition InvokeAction (next : M unit) (a : Action) : M (list Reflect.Value) :=
  match a with
  | Plain h => Invoke Global next h
  | Dispatch r => do RouteContext.Handle r then ret []
  end.

(** [context.run]; [Next] is [c.index += 1; c.run()]. *)
Fixpoint run_n (n : nat) (m : Martini) : M unit :=
  let* w := get in
  if (cindex w <=? List.length (handlers m))%nat then
    match n with
    | O => starve
    | S n' =>
        let Next :=
          do modify (fun w => set_cindex (cindex w + 1) w) then run_n n' m in
        let* h := lift (handler m (cindex w)) in
        do tell (Invoked Global (cindex w) (Written (rw w))) then
        let* vals := InvokeAction Next h in
        do tell (Returned Global (cindex w) vals) then
        do modify (fun w => set_cindex (cindex w + 1) w) then
        let* wr := written in
        if wr then ret tt else run_n n' m
    end
  else ret tt.

Definition run (m : Martini) : M unit :=
  let* w := get in run_n (S (List.length (handlers m)) - cindex w) m.

(** [context.Next] *)
Definition Next (m : Martini) : M unit :=
  do modify (fun w => set_cindex (cindex w + 1) w) then run m.

(** [createContext] *)
Definition createContext (m : Martini) (res : transport) (req : Request)
  : world :=
  {| rw := NewResponseWriter res; params := None; returns := services m;
     request := req; cindex := 0; rindex := 0; trace := [] |}.

(** [ServeHTTP] *)
Definition ServeHTTP (m : Martini) (res : transport) (req : Request)
  : result unit * world :=
  run m (createContext m res req).

(** The loop of [Martini.Handlers] over its arguments: [Use] on each; a
    panic leaves the handlers added so far in place. *)
Fixpoint use_each (hs : list Handler) (m : Martini) : result unit * Martini :=
  match hs with
  | [] => (Ok tt, m)
  | h :: rest =>
      match Use h m with
      | Ok m' => use_each rest m'
      | Panic msg => (Panic msg, m)
      | Unmodelled => (Unmodelled, m)
      | Starved => (Starved, m)
      end
  end.

(** [Martini.Handlers] *)
Definition SetHandlers (hs : list Handler) (m : Martini) : result unit * Martini :=
  use_each hs {| handlers := []; action := action m; services := services m |}.

End Martini.

(** * Registration through the [Router] interface *)

Module Registration.
Import Handlers Router.

(** The verbs of the interface and the method string each one registers. *)
Inductive verb : Type := Get | Patch | Post | Put | Delete | Options | Head | Any.

Definition method_of (v : verb) : string :=
  match v with
  | Get => "GET" | Patch => "PATCH" | Post => "POST" | Put => "PUT"
  | Delete => "DELETE" | Options => "OPTIONS" | Head => "HEAD" | Any => "*"
  end.

(** A registration function, [func(Router)], is seen through the calls it
    makes on the router it is given: a verb method (whose result may be
    named with [Route.Name]; the empty name stands for no such call), a
    nested [Group], or [NotFound]. *)
#[local] Unset Elimination Schemes.
Inductive call : Type :=
| Route (v : verb) (pattern_ : string) (h : list Handler) (name_ : string)
| Grouped (pattern_ : string) (fn : list call) (h : list Handler)
| NotFoundWith (h : list Handler).
#[local] Set Elimination Schemes.

(** [Route.Name] on the route just added: the router holds the very object
    that [addRoute] returned. *)
Definition named (name_ : string) (added : route * router) : router :=
  let '(rt, r) := added in
  {| routes := removelast (routes r) ++ [Name name_ rt];
     notFounds := notFounds r; groups := groups r |}.

Fixpoint perform (c : call) (r : router) : result router :=
  match c with
  | Route v pattern_ h name_ =>
      try added := addRoute (method_of v) pattern_ h r in
      Ok (named name_ added)
  | Grouped pattern_ fn h =>
      Group pattern_
        (fun r1 =>
           (fix all (cs : list call) (r : router) : result router :=
              match cs with
              | [] => Ok r
              | c :: cs' => try r' := perform c r in all cs' r'
              end) fn r1) h r
  | NotFoundWith h => Ok (NotFound h r)
  end.

(** A registration function as a whole. *)
Fixpoint perform_all (cs : list call) (r : router) : result router :=
  match cs with
  | [] => Ok r
  | c :: cs' => try r' := perform c r in perform_all cs' r'
  end.

End Registration.

(** * Vocabulary of the properties *)

Module Spec.
Import RW.

(** What has reached the sink of a wrapper. *)
Definition wire_of (rw : responseWriter) : list wire_event :=
  wire (ResponseWriter rw).

(** The before-functions registered by a sequence of operations, in
    registration order. *)
Fixpoint registered (ops : list op) : list BeforeFunc :=
  match ops with
  | [] => []
  | OpBefore f :: rest => f :: registered rest
  | _ :: rest => registered rest
  end.

(** Operations that send neither a status nor a byte. *)
Definition quiet (o : op) : bool :=
  match o with OpBefore _ | OpFlush => true | _ => false end.

Definition is_WriteHeader (o : op) : bool :=
  match o with OpWriteHeader _ => true | _ => false end.

(** The operations that set the status of an unwritten response to a
    non-zero code, and the code they set. *)
Definition sets_status (o : op) : option Z :=
  match o with
  | OpWriteHeader s => if Z.eqb s 0 then None else Some s
  | OpWrite _ => Some StatusOK
  | _ => None
  end.

(** The one operation that clears the recorded status: [WriteHeader(0)]. *)
Definition resets (o : op) : bool :=
  match o with OpWriteHeader s => Z.eqb s 0 | _ => false end.

Definition is_flush (e : wire_event) : bool :=
  match e with WireFlush => true | _ => false end.
Definition is_header (e : wire_event) : bool :=
  match e with WireHeader _ => true | _ => false end.
Definition is_body (e : wire_event) : bool :=
  match e with WireBody _ => true | _ => false end.
Definition is_before (e : wire_event) : bool :=
  match e with WireBefore _ => true | _ => false end.

(** How many times a before-function ran. *)
Definition hook_runs (f : BeforeFunc) (t : list wire_event) : nat :=
  List.length (List.filter (fun e => match e, f with
                                | WireBefore (Hook a), Hook b => (a =? b)%nat
                                | _, _ => false
                                end) t).

(** What an invocation added to the sink. *)
Definition added (before after : responseWriter) : list wire_event :=
  skipn (List.length (wire_of before)) (wire_of after).

Definition count (p : wire_event -> bool) (t : list wire_event) : nat :=
  List.length (List.filter p t).

(** The value rule of the interpreter: one pointer or interface level is
    unwrapped; a byte slice is written as its bytes, any other value as its
    string form. *)
Definition unwrap (v : Reflect.Value) : Reflect.Value :=
  if ReturnHandler.canDeref v then Reflect.Elem v else v.
Definition written_form (v : Reflect.Value) : string :=
  if ReturnHandler.isByteSlice v then Reflect.Bytes v else Reflect.String_of v.
Definition payload (v : Reflect.Value) : string := written_form (unwrap v).

(** Where an answer of the matcher comes from: the continuation, called on
    a subject that is no longer and on registers that are as many. *)
Definition from_kont (s : string) (cs : Matcher.captures) (k : Matcher.kont)
    (x : string * Matcher.captures)
  : Prop :=
  exists s' cs', k s' cs' = Some x
                 /\ (String.length s' <= String.length s)%nat
                 /\ List.length cs' = List.length cs.

(** A route's method matches a request method when they are equal, when
    the route's method is the wildcard, or when a [GET] route meets a
    [HEAD] request. *)
Definition method_matches (route_method request_method : string) : Prop :=
  route_method = request_method
  \/ route_method = "*"
  \/ (route_method = "GET" /\ request_method = "HEAD").

(** The compiled pattern matches the path structurally: the leftmost-first
    match that starts at the beginning of the path consumes all of it;
    [cs] are the texts of the groups, the whole match in front. *)
Definition full_match (re : Regexp.Regexp) (path : string) (cs : list string)
  : Prop :=
  Matcher.match_here re path = Some ("", cs).

Definition structurally_matches (rt : Router.route) (path : string) : Prop :=
  exists cs, full_match (Router.regex rt) path cs.

(** The named captures of a match as a mapping: each group with a name is
    bound to its text; of two groups with one name the later one wins. *)
Definition named_captures (re : Regexp.Regexp) (cs : list string)
  : gmap string string :=
  list_to_map
    (rev (List.filter (fun p => (0 <? String.length (fst p))%nat)
            (combine (Regexp.SubexpNames re) cs))).

(** ** Patterns *)

Fixpoint all_chars (p : ascii -> bool) (s : string) : bool :=
  match s with
  | "" => true
  | String c s' => p c && all_chars p s'
  end.

(** The longest prefix of characters that satisfy [p], and the rest. *)
Fixpoint span (p : ascii -> bool) (s : string) : string * string :=
  match s with
  | "" => ("", "")
  | String c s' =>
      if p c then let '(a, b) := span p s' in (String c a, b) else ("", s)
  end.

Fixpoint strip_prefix (pre s : string) : option string :=
  match pre, s with
  | "", _ => Some s
  | String c pre', String c' s' =>
      if Ascii.eqb c c' then strip_prefix pre' s' else None
  | String _ _, "" => None
  end.

(** A rest that does not continue a run of [p]-characters. *)
Definition stops (p : ascii -> bool) (rest : string) : Prop :=
  match rest with
  | "" => True
  | String c _ => p c = false
  end.

(** The expressions of a literal text, character by character. *)
Fixpoint lits (s : string) : list Regexp.regex :=
  match s with
  | "" => []
  | String c s' => Regexp.Lit c :: lits s'
  end.

(** The optional slash at the end of a path. *)
Definition drop_slash (rest : string) : string :=
  match rest with
  | String "/" r => r
  | _ => rest
  end.

(** The two token expressions of [newRoute], compiled. *)
Definition param_re : Regexp.Regexp :=
  {| Regexp.expr :=
       Regexp.Cat (Regexp.Lit ":")
         (Regexp.Plus (Regexp.Class true ["/"; "#"; "?"; "("; ")"; "."; "\"]%char));
     Regexp.names := [] |}.
Definition wildcard_re : Regexp.Regexp :=
  {| Regexp.expr := Regexp.Cat (Regexp.Lit "*") (Regexp.Lit "*");
     Regexp.names := [] |}.

(** The characters of a [:name] token after its colon. *)
Definition name_char (c : ascii) : bool :=
  negb (Regexp.mem_ascii c ["/"; "#"; "?"; "("; ")"; "."; "\"]%char).

(** The tokens of literal text, and the parser's frame after reading them. *)
Fixpoint toks (s : string) : list Regexp.token :=
  match s with
  | "" => []
  | String c s' => Regexp.TLit c :: toks s'
  end.

Fixpoint push_lits (s : string) (f : Regexp.frame) : Regexp.frame :=
  match s with
  | "" => f
  | String c s' => push_lits s' (Regexp.push_item (Regexp.Lit c) false f)
  end.

(** The characters a named parameter matches: all but [/], [#] and [?]. *)
Definition segment_char (c : ascii) : bool :=
  negb (Regexp.mem_ascii c ["/"; "#"; "?"]%char).

(** The characters a double wildcard matches: all but [#] and [?]. *)
Definition wildcard_char (c : ascii) : bool :=
  negb (Regexp.mem_ascii c ["#"; "?"]%char).

(** Literal pattern text: ASCII characters that neither start a token
    ([:], [*]) nor mean anything to the regular-expression syntax. *)
Definition plain_char (c : ascii) : bool :=
  Regexp.is_ascii7 c &&
  negb (Regexp.mem_ascii c
          [":"; "*"; "\"; "."; "["; "]"; "("; ")"; "|"; "+"; "?"; "{"; "}";
           "^"; "$"]%char).

(** Parameter names that Go accepts as group names: letters, digits and
    underscores, at least one. *)
Definition valid_name (n : string) : bool :=
  (0 <? String.length n)%nat && all_chars Regexp.is_word n.

Definition starts_name (s : string) : bool :=
  match s with
  | String c _ => name_char c
  | "" => false
  end.

(** A pattern as its author writes it: literal text, named parameters
    [:name] and double wildcards. *)
Inductive piece : Type :=
| Text (s : string)
| Param (name_ : string)
| Wild.

(** The pattern string of a sequence of pieces. *)
Fixpoint render (ps : list piece) : string :=
  match ps with
  | [] => ""
  | Text s :: r => s +:+ render r
  | Param n :: r => String ":" n +:+ render r
  | Wild :: r => "**" +:+ render r
  end.

(** The pieces are read back from the pattern string as they were written:
    literal text is plain, a name is one that Go accepts, and what follows a
    name does not go on with a token character (so that the token ends where
    the name ends). *)
Fixpoint well_formed (ps : list piece) : bool :=
  match ps with
  | [] => true
  | Text s :: r => all_chars plain_char s && well_formed r
  | Param n :: r => valid_name n && negb (starts_name (render r)) && well_formed r
  | Wild :: r => well_formed r
  end.

Fixpoint wildcards (ps : list piece) : nat :=
  match ps with
  | [] => 0
  | Wild :: r => S (wildcards r)
  | _ :: r => wildcards r
  end.

(** The only double wildcard, if any, is the last piece. *)
Fixpoint wildcard_last (ps : list piece) : bool :=
  match ps with
  | [] => true
  | Wild :: r => match r with [] => true | _ => false end
  | _ :: r => wildcard_last r
  end.

(** The names of the groups of the compiled pattern: a parameter gives its
    name, the [k]-th double wildcard the name [_k]. *)
Fixpoint group_names (k : nat) (ps : list piece) : list string :=
  match ps with
  | [] => []
  | Text _ :: r => group_names k r
  | Param n :: r => n :: group_names k r
  | Wild :: r => ("_" +:+ Router.format_nat (S k)) :: group_names (S k) r
  end.

(** The paths of a pattern: [path_of ps vs] is the path in which the tokens
    of [ps] stand for the texts [vs], in order; a parameter stands for one or
    more characters other than [/], [#] and [?], a double wildcard for any
    number of characters other than [#] and [?]. *)
Fixpoint path_of (ps : list piece) (vs : list string) : option string :=
  match ps, vs with
  | [], [] => Some ""
  | Text s :: r, _ => option_map (String.append s) (path_of r vs)
  | Param _ :: r, v :: vs' =>
      if (0 <? String.length v)%nat && all_chars segment_char v
      then option_map (String.append v) (path_of r vs') else None
  | Wild :: r, v :: vs' =>
      if all_chars wildcard_char v
      then option_map (String.append v) (path_of r vs') else None
  | _, _ => None
  end.

(** The parameters of such a path: every group name is bound to the text
    of its token; of two tokens with one name the later one wins. *)
Definition bindings (ps : list piece) (vs : list string) : gmap string string :=
  list_to_map (rev (combine (group_names 0 ps) vs)).

(** *** What [newRoute] makes of the pieces *)

(** The two replacement closures of [newRoute]. *)
Definition first_pass : unit -> string -> string * unit :=
  fun (_ : unit) m => ("(?P<" +:+ Router.tail_of m +:+ ">[^/#?]+)", tt).
Definition second_pass : nat -> string -> string * nat :=
  fun index _ =>
    let index := S index in
    ("(?P<_" +:+ Router.format_nat index +:+ ">[^#?]*)", index).

(** The pattern after the first and after the second rewriting pass. *)
Fixpoint first_rewrite (ps : list piece) : string :=
  match ps with
  | [] => ""
  | Text s :: r => s +:+ first_rewrite r
  | Param n :: r => "(?P<" +:+ n +:+ ">[^/#?]+)" +:+ first_rewrite r
  | Wild :: r => "**" +:+ first_rewrite r
  end.

Fixpoint second_rewrite (k : nat) (ps : list piece) : string :=
  match ps with
  | [] => ""
  | Text s :: r => s +:+ second_rewrite k r
  | Param n :: r => "(?P<" +:+ n +:+ ">[^/#?]+)" +:+ second_rewrite k r
  | Wild :: r =>
      "(?P<_" +:+ Router.format_nat (S k) +:+ ">[^#?]*)" +:+ second_rewrite (S k) r
  end.

(** Its tokens, the parser's frame after reading them, and the expression
    that results: the pieces in sequence, each token a capture group, and an
    optional slash at the end. *)
Definition segment_run : Regexp.regex :=
  Regexp.Plus (Regexp.Class true ["/"; "#"; "?"]%char).
Definition wildcard_run : Regexp.regex :=
  Regexp.Star (Regexp.Class true ["#"; "?"]%char).

Fixpoint piece_tokens (k : nat) (ps : list piece) : list Regexp.token :=
  match ps with
  | [] => []
  | Text s :: r => toks s ++ piece_tokens k r
  | Param n :: r =>
      [Regexp.TOpen n; Regexp.TSet true ["/"; "#"; "?"]%char; Regexp.TPlus;
       Regexp.TClose] ++ piece_tokens k r
  | Wild :: r =>
      [Regexp.TOpen ("_" +:+ Router.format_nat (S k));
       Regexp.TSet true ["#"; "?"]%char; Regexp.TStar; Regexp.TClose]
      ++ piece_tokens (S k) r
  end.

Fixpoint push_pieces (i : nat) (ps : list piece) (f : Regexp.frame)
  : Regexp.frame :=
  match ps with
  | [] => f
  | Text s :: r => push_pieces i r (push_lits s f)
  | Param _ :: r =>
      push_pieces (S i) r (Regexp.push_item (Regexp.Capture i segment_run) false f)
  | Wild :: r =>
      push_pieces (S i) r (Regexp.push_item (Regexp.Capture i wildcard_run) false f)
  end.

Fixpoint piece_items (i : nat) (ps : list piece) : list Regexp.regex :=
  match ps with
  | [] => []
  | Text s :: r => lits s ++ piece_items i r
  | Param _ :: r => Regexp.Capture i segment_run :: piece_items (S i) r
  | Wild :: r => Regexp.Capture i wildcard_run :: piece_items (S i) r
  end.

Definition pieces_expr (ps : list piece) : Regexp.regex :=
  Regexp.cat_all (piece_items 1 ps ++ [Regexp.Quest (Regexp.Lit "/")]).

(** The capture registers after the tokens from group [i] on have matched
    the texts [vs]. *)
Fixpoint store_groups (i : nat) (vs : list string) (cs : Matcher.captures)
  : Matcher.captures :=
  match vs with
  | [] => cs
  | v :: vs' => store_groups (S i) vs' (<[i := v]> cs)
  end.

(** The route that [newRoute] builds for [/user/:id]. *)
Definition user_route (m : string) (hs : list Handlers.Handler) : Router.route :=
  {| Router.method := m;
     Router.regex :=
       {| Regexp.expr := pieces_expr [Text "/user/"; Param "id"];
          Regexp.names := ["id"] |};
     Router.handlers := hs;
     Router.pattern := "/user/:id";
     Router.name := "" |}.

(** ** Reverse routing *)

(** Substitution of the [:name] tokens of a pattern, left to right, by the
    values in order.  A token is a colon followed by the longest non-empty
    run of token characters; [skipping] tells that the scan is inside a
    token that has been replaced.  Tokens for which no value is left stay as
    they are. *)
Fixpoint fill (skipping : bool) (s : string) (values : list string) : string :=
  match s with
  | "" => ""
  | String c s' =>
      if skipping && name_char c then fill true s' values
      else
        match values with
        | v :: values' =>
            if Ascii.eqb c ":" && starts_name s'
            then v +:+ fill true s' values'
            else String c (fill false s' values)
        | [] => String c (fill false s' [])
        end
  end.

(** The string form of the accepted arguments; [nil] contributes none. *)
Fixpoint coerced (args : list Router.arg) : list string :=
  match args with
  | [] => []
  | Router.ArgInt v :: rest => Router.FormatInt v :: coerced rest
  | Router.ArgString v :: rest => v :: coerced rest
  | _ :: rest => coerced rest
  end.

(** The first argument that is neither an int, a string nor [nil] comes
    before any other effect. *)
Definition is_other (a : Router.arg) : bool :=
  match a with Router.ArgOther _ => true | _ => false end.

(** The closure of [URLWith]: the [i]-th match is replaced by the [i]-th
    value when there is one. *)
Definition pick (args : list string) (i : nat) (m : string) : string * nat :=
  (if (i <? List.length args)%nat then nth i args "" else m, S i).

(** ** Groups *)

(** The prefixes of the active groups, outermost first, and their
    middleware in the same order. *)
Definition prefix_of (gs : list Router.group) : string :=
  fold_right (fun g acc => Router.gpattern g +:+ acc) "" gs.
Definition middleware_of (gs : list Router.group) : list Handlers.Handler :=
  flat_map Router.ghandlers gs.

(** What is visible of a registered route: method, pattern, handler chain
    and name. *)
Definition entry : Type := string * string * list Handlers.Handler * string.
Definition entry_of (rt : Router.route) : entry :=
  (Router.method rt, Router.pattern rt, Router.handlers rt, Router.name rt).

(** The routes that a registration call declares when the groups [gs] are
    active: a route gets the prefixes of all active groups in front of its
    pattern and their middleware in front of its handlers; a nested group
    is active for the calls of its registration function only. *)
Fixpoint declared (gs : list Router.group) (c : Registration.call) : list entry :=
  match c with
  | Registration.Route v p h n =>
      [(Registration.method_of v, prefix_of gs +:+ p, middleware_of gs ++ h, n)]
  | Registration.Grouped p fn h =>
      flat_map
        (declared (gs ++ [{| Router.gpattern := p; Router.ghandlers := h |}])) fn
  | Registration.NotFoundWith _ => []
  end.

(** A registration with two nested groups and a route after them. *)
Definition sample_registration : list Registration.call :=
  [Registration.Grouped "/api"
     [Registration.Route Registration.Get "/users"
        [Handlers.Callable (Handlers.Return [])] "";
      Registration.Grouped "/v1"
        [Registration.Route Registration.Any "/items/:id"
           [Handlers.Callable (Handlers.CallWrite "item" (Handlers.Return []))] "item"]
        [Handlers.Callable (Handlers.CallNext (Handlers.Return []))]]
     [Handlers.Callable (Handlers.CallWritten (fun _ => Handlers.Return []))];
   Registration.Route Registration.Post "/health" [] "health"].

Definition router_of (x : result Router.router) : Router.router :=
  match x with
  | Ok r => r
  | _ => Router.NewRouter
  end.

(** ** Pipelines *)

(** Reasoning about the runs of a request: if [P] holds of the objects of
    the request before [c], then [Q] holds of its outcome and of the objects
    after it. *)
Definition hoare {A : Type} (P : Handlers.world -> Prop) (c : Handlers.M A)
    (Q : result A -> Handlers.world -> Prop) : Prop :=
  forall w, P w -> Q (fst (c w)) (snd (c w)).

(** The outcome of a computation that stops at a failure. *)
Definition propagate {A B : Type} (x : result A) : result B :=
  match x with
  | Ok _ => Starved
  | Panic msg => Panic msg
  | Unmodelled => Unmodelled
  | Starved => Starved
  end.

(** A property of the objects of the request that a computation keeps,
    whatever its outcome. *)
Definition keeps {A : Type} (K : Handlers.world -> Prop) (c : Handlers.M A)
  : Prop :=
  hoare K c (fun _ w => K w).

(** A computation that keeps [K] and does not exhaust its iteration
    bound. *)
Definition runs {A : Type} (K : Handlers.world -> Prop) (c : Handlers.M A)
  : Prop :=
  hoare K c (fun x w => x <> Starved /\ K w).

(** Lower bounds of the two cursors. *)
Definition cursors_from (jr jc : nat) (w : Handlers.world) : Prop :=
  (jr <= Handlers.rindex w)%nat /\ (jc <= Handlers.cindex w)%nat.
Definition cursor_from (jc : nat) (w : Handlers.world) : Prop :=
  (jc <= Handlers.cindex w)%nat.

(** No [Next] was called on a written response. *)
Definition yields_unwritten (t : list Handlers.event) : Prop :=
  forall l w, In (Handlers.Yielded l w) t -> w = false.

(** No handler was invoked on a written response. *)
Definition invoked_unwritten (t : list Handlers.event) : Prop :=
  forall l i w, In (Handlers.Invoked l i w) t -> w = false.

(** A written response stops the pipelines, unless a handler resumes them
    with [Next]. *)
Definition stops_once_written (t : list Handlers.event) : Prop :=
  yields_unwritten t -> invoked_unwritten t.

(** The values returned by a handler of the route pipeline go to the return
    handler at once: a return with values is directly followed by the call
    of the return handler on these values. *)
Definition returns_interpreted (t : list Handlers.event) : Prop :=
  forall pre i vals post,
    t = pre ++ Handlers.Returned Handlers.Routed i vals :: post ->
    vals <> [] ->
    exists post', post = Handlers.Interpreted Handlers.Routed vals :: post'.

(** What the route pipeline keeps true when [h] is the registered return
    handler. *)
Definition interpreting (h : ReturnHandler.ReturnHandler) (w : Handlers.world)
  : Prop :=
  Handlers.returns w = Some h /\ returns_interpreted (Handlers.trace w).

(** The state between the return of a handler and the call of the return
    handler. *)
Definition pending (h : ReturnHandler.ReturnHandler) (i : nat)
    (vals : list Reflect.Value) (w : Handlers.world) : Prop :=
  Handlers.returns w = Some h
  /\ exists t, Handlers.trace w = t ++ [Handlers.Returned Handlers.Routed i vals]
               /\ returns_interpreted t.

(** What the pipelines keep true between two steps, and what holds where a
    run loop is entered: when the response is written there, a [Next] was
    called on a written response. *)
Definition settled (w : Handlers.world) : Prop :=
  stops_once_written (Handlers.trace w).

Definition entered (w : Handlers.world) : Prop :=
  settled w
  /\ (RW.Written (Handlers.rw w) = true -> ~ yields_unwritten (Handlers.trace w)).

(** Two sample applications: a middleware that writes and then calls
    [Next], and a middleware that returns a value. *)
Definition writes_then_yields : Martini.Martini :=
  {| Martini.handlers :=
       [Handlers.Callable
          (Handlers.CallWriteHeader 200 (Handlers.CallNext (Handlers.Return [])));
        Handlers.Callable (Handlers.Return [])];
     Martini.action := Martini.Plain (Handlers.Callable (Handlers.Return []));
     Martini.services := Some ReturnHandler.defaultReturnHandler |}.

Definition returns_hello : Martini.Martini :=
  {| Martini.handlers :=
       [Handlers.Callable (Handlers.Return [Reflect.OfString "hello"])];
     Martini.action := Martini.Plain (Handlers.Callable (Handlers.Return []));
     Martini.services := Some ReturnHandler.defaultReturnHandler |}.

(** A classic application: one middleware around the router, whose only
    route returns a status and the captured parameter. *)
Definition sample_application : Martini.Martini :=
  {| Martini.handlers :=
       [Handlers.Callable
          (Handlers.CallNext (Handlers.CallWrite "after" (Handlers.Return [])))];
     Martini.action :=
       Martini.Dispatch
         {| Router.routes :=
              [user_route "GET"
                 [Handlers.Callable
                    (Handlers.WithParams (fun p =>
                       Handlers.Return
                         [Reflect.OfInt "int" 201;
                          Reflect.OfString (default "" (p !! "id"))]));
                  Handlers.Callable (Handlers.Return [])]];
            Router.notFounds := [Router.http_NotFound];
            Router.groups := [] |};
     Martini.services := Some ReturnHandler.defaultReturnHandler |}.

Definition sample_request : Handlers.Request :=
  {| Handlers.Method := "GET"; Handlers.Path := "/user/42" |}.

(** A sink that accepts every byte and can flush. *)
Definition plain_sink : transport :=
  {| wire := []; accepted := fun b => Z.of_nat (String.length b);
     flusher := true |}.

(** ** Registration, lookup and the order of a request's events *)

(** The handlers that [validateHandler] accepts. *)
Definition callable (h : Handlers.Handler) : bool :=
  match h with Handlers.Callable _ => true | _ => false end.

(** The test of [route.Match] and [MethodsFor] on the matches of a path. *)
Definition matches_whole (rt : Router.route) (path : string) : bool :=
  let matches := Matcher.FindStringSubmatch (Router.regex rt) path in
  (0 <? List.length matches)%nat && String.eqb (nth 0 matches "") path.

(** A list without the repetitions of what was [seen] or came earlier. *)
Fixpoint first_occurrences (seen l : list string) : list string :=
  match l with
  | [] => []
  | x :: rest =>
      if Router.hasMethod seen x then first_occurrences seen rest
      else x :: first_occurrences (seen ++ [x]) rest
  end.

(** The byte counts that the sink reported for the writes among [ops]. *)
Fixpoint bytes_accepted (t : transport) (ops : list op) : Z :=
  match ops with
  | [] => 0
  | OpWrite b :: rest => (accepted t b + bytes_accepted t rest)%Z
  | _ :: rest => bytes_accepted t rest
  end.

(** The handlers in front of the first one that is not a function. *)
Fixpoint callable_prefix (hs : list Handlers.Handler) : list Handlers.Handler :=
  match hs with
  | [] => []
  | h :: rest => if callable h then h :: callable_prefix rest else []
  end.

(** *** The order of invocations *)

Definition level_eqb (a b : Handlers.level) : bool :=
  match a, b with
  | Handlers.Global, Handlers.Global | Handlers.Routed, Handlers.Routed => true
  | _, _ => false
  end.

(** The cursor indices at which handlers of a pipeline were invoked, in the
    order of the invocations. *)
Fixpoint invoked_at (l : Handlers.level) (t : list Handlers.event) : list nat :=
  match t with
  | [] => []
  | Handlers.Invoked l' i _ :: rest =>
      if level_eqb l l' then i :: invoked_at l rest else invoked_at l rest
  | _ :: rest => invoked_at l rest
  end.

(** [lo <= i1 < i2 < ... < in < bound] *)
Fixpoint ascending (lo : nat) (l : list nat) (bound : nat) : bool :=
  match l with
  | [] => (lo <=? bound)%nat
  | i :: rest => (lo <=? i)%nat && ascending (S i) rest bound
  end.

(** The invocations so far went up the pipeline, below the cursor [bound]
    and below the end [limit] of the pipeline. *)
Definition paced (l : Handlers.level) (bound limit : nat)
    (t : list Handlers.event) : Prop :=
  ascending 0 (invoked_at l t) bound = true
  /\ Forall (fun i => (i < limit)%nat) (invoked_at l t).

(** The outcome of a loop that keeps [P] between its iterations and [Q]
    inside them. *)
Definition between {A : Type} (P Q : Handlers.world -> Prop)
  : result A -> Handlers.world -> Prop :=
  fun x w => Q w /\ (forall a, x = Ok a -> P w).

(** The return handler is called on nothing but the values that a handler
    of the route pipeline has just returned, and there are some. *)
Definition interpreted_after_return (t : list Handlers.event) : Prop :=
  forall pre l vals post,
    t = pre ++ Handlers.Interpreted l vals :: post ->
    l = Handlers.Routed /\ vals <> []
    /\ exists pre' i, pre = pre' ++ [Handlers.Returned Handlers.Routed i vals].

End Spec.

(** * Properties of the response wrapper *)

Module RWFacts.
Import RW Spec.

Lemma callBefore_from_wire (i : nat) (fs : list BeforeFunc) (t : transport) :
  (i <= List.length fs)%nat ->
  wire (callBefore_from i fs t) = wire t ++ map WireBefore (rev (firstn i fs))
  /\ accepted (callBefore_from i fs t) = accepted t
  /\ flusher (callBefore_from i fs t) = flusher t.
Proof.
  revert t. induction i as [|j IH]; intros t Hi; simpl.
  - rewrite app_nil_r. auto.
  - destruct (nth_error fs j) as [f|] eqn:Hf.
    + destruct (IH (send (WireBefore f) t)) as (Hw & Ha & Hfl); [lia|].
      rewrite Hw, Ha, Hfl. simpl. repeat split.
      assert (Hs : firstn (S j) fs = firstn j fs ++ [f]).
      { clear -Hf. revert j Hf. induction fs as [|x fs IHfs]; intros [|j] Hf;
          simpl in *; try discriminate.
        - injection Hf as ->. reflexivity.
        - rewrite (IHfs j Hf). reflexivity. }
      rewrite Hs, rev_app_distr. simpl. rewrite <- app_assoc. reflexivity.
    + apply nth_error_None in Hf. lia.
Qed.

(** Every call of [WriteHeader] runs the registered functions, most recently
    registered first, and then forwards the status. *)
Lemma WriteHeader_wire (s : Z) (rw : responseWriter) :
  wire_of (WriteHeader s rw) =
  wire_of rw ++ map WireBefore (rev (beforeFuncs rw)) ++ [WireHeader s].
Proof.
  unfold wire_of, WriteHeader, callBefore. simpl.
  destruct (callBefore_from_wire (List.length (beforeFuncs rw)) (beforeFuncs rw)
              (ResponseWriter rw)) as (Hw & _); [lia|].
  rewrite Hw, firstn_all, <- app_assoc. reflexivity.
Qed.

Lemma WriteHeader_fields (s : Z) (rw : responseWriter) :
  status (WriteHeader s rw) = s /\ size (WriteHeader s rw) = size rw
  /\ beforeFuncs (WriteHeader s rw) = beforeFuncs rw
  /\ accepted (ResponseWriter (WriteHeader s rw)) = accepted (ResponseWriter rw)
  /\ flusher (ResponseWriter (WriteHeader s rw)) = flusher (ResponseWriter rw).
Proof.
  unfold WriteHeader, callBefore. simpl.
  destruct (callBefore_from_wire (List.length (beforeFuncs rw)) (beforeFuncs rw)
              (ResponseWriter rw)) as (_ & Ha & Hf); [lia|].
  auto.
Qed.

Lemma Written_true (rw : responseWriter) :
  Written rw = true <-> status rw <> 0%Z.
Proof.
  unfold Written. destruct (Z.eqb_spec (status rw) 0); simpl; split;
    intros; congruence.
Qed.

Lemma Written_false (rw : responseWriter) :
  Written rw = false <-> status rw = 0%Z.
Proof.
  unfold Written. destruct (Z.eqb_spec (status rw) 0); simpl; split;
    intros; congruence.
Qed.

(** A [Write] on a written response only forwards the bytes. *)
Lemma Write_written (b : string) (rw : responseWriter) :
  Written rw = true ->
  wire_of (snd (Write b rw)) = wire_of rw ++ [WireBody b]
  /\ status (snd (Write b rw)) = status rw
  /\ size (snd (Write b rw)) =
       wrap_int (size rw + accepted (ResponseWriter rw) b)
  /\ beforeFuncs (snd (Write b rw)) = beforeFuncs rw.
Proof.
  intros H. unfold Write, wire_of. rewrite H. simpl. auto.
Qed.

(** A [Write] on an unwritten response calls [WriteHeader(200)] first. *)
Lemma Write_unwritten (b : string) (rw : responseWriter) :
  Written rw = false ->
  wire_of (snd (Write b rw)) = wire_of (WriteHeader StatusOK rw) ++ [WireBody b]
  /\ status (snd (Write b rw)) = StatusOK
  /\ size (snd (Write b rw)) =
       wrap_int (size rw + accepted (ResponseWriter rw) b)
  /\ beforeFuncs (snd (Write b rw)) = beforeFuncs rw.
Proof.
  intros H. unfold Write, wire_of. rewrite H.
  destruct (WriteHeader_fields StatusOK rw) as (Hs & Hz & Hb & Ha & _).
  cbn [snd ResponseWriter status size beforeFuncs send wire].
  rewrite Hs, Hz, Hb, Ha. auto.
Qed.

Lemma apply_ops_app (a b : list op) (rw : responseWriter) :
  apply_ops (a ++ b) rw = apply_ops b (apply_ops a rw).
Proof. unfold apply_ops. apply fold_left_app. Qed.

(** Registrations and flushes leave the response unwritten. *)
Lemma quiet_prefix (pre : list op) (rw : responseWriter) :
  forallb quiet pre = true ->
  status (apply_ops pre rw) = status rw
  /\ beforeFuncs (apply_ops pre rw) = beforeFuncs rw ++ registered pre
  /\ exists fl, wire_of (apply_ops pre rw) = wire_of rw ++ fl
                /\ forallb is_flush fl = true.
Proof.
  revert rw. induction pre as [|o pre IH]; intros rw H.
  - simpl. rewrite app_nil_r. repeat split. exists []. rewrite app_nil_r. auto.
  - simpl in H. apply andb_true_iff in H as [Ho Hpre].
    change (apply_ops (o :: pre) rw) with (apply_ops pre (apply_op o rw)).
    destruct (IH (apply_op o rw) Hpre) as (Hs & Hb & fl & Hw & Hfl).
    rewrite Hs, Hb, Hw.
    destruct o as [f| | |]; try discriminate; simpl.
    + rewrite <- app_assoc. repeat split. exists fl. auto.
    + unfold Flush, wire_of.
      destruct (flusher (ResponseWriter rw)); simpl; repeat split.
      * exists (WireFlush :: fl). rewrite <- app_assoc. simpl. auto.
      * exists fl. auto.
Qed.

(** Once written, a response stays written and no before-function runs,
    as long as [WriteHeader] is not called again. *)
Lemma settled_suffix (post : list op) (rw : responseWriter) :
  Written rw = true ->
  forallb (fun o => negb (is_WriteHeader o)) post = true ->
  status (apply_ops post rw) = status rw
  /\ exists rest, wire_of (apply_ops post rw) = wire_of rw ++ rest
                  /\ forallb (fun e => is_body e || is_flush e) rest = true.
Proof.
  revert rw. induction post as [|o post IH]; intros rw Hw H.
  - simpl. split; [reflexivity|]. exists []. rewrite app_nil_r. auto.
  - simpl in H. apply andb_true_iff in H as [Ho Hpost].
    change (apply_ops (o :: post) rw) with (apply_ops post (apply_op o rw)).
    assert (Hstep : Written (apply_op o rw) = true
                    /\ status (apply_op o rw) = status rw
                    /\ exists e, wire_of (apply_op o rw) = wire_of rw ++ e
                         /\ forallb (fun e => is_body e || is_flush e) e = true).
    { destruct o as [f|s|b|]; try discriminate; cbn [apply_op].
      - repeat split; auto. exists []. rewrite app_nil_r. auto.
      - destruct (Write_written b rw Hw) as (Hwire & Hst & _).
        repeat split; auto.
        + apply Written_true. rewrite Hst. apply Written_true, Hw.
        + exists [WireBody b]. auto.
      - unfold Flush. destruct (flusher (ResponseWriter rw)).
        + repeat split; auto. exists [WireFlush]. auto.
        + repeat split; auto. exists []. rewrite app_nil_r. auto. }
    destruct Hstep as (Hw' & Hst' & e & He & Hall').
    destruct (IH _ Hw' Hpost) as (Hs & rest & Hr & Hall).
    rewrite Hs, Hr, He, Hst'. split; [reflexivity|].
    exists (e ++ rest). rewrite <- app_assoc. split; [reflexivity|].
    rewrite forallb_app, Hall', Hall. reflexivity.
Qed.

(** The recorded status survives every operation but [WriteHeader(0)]. *)
Lemma Written_stays (ops : list op) (rw : responseWriter) :
  Written rw = true ->
  forallb (fun o => negb (resets o)) ops = true ->
  Written (apply_ops ops rw) = true.
Proof.
  revert rw. induction ops as [|o ops IH]; intros rw Hw H; [assumption|].
  simpl in H. apply andb_true_iff in H as [Ho Hops].
  change (apply_ops (o :: ops) rw) with (apply_ops ops (apply_op o rw)).
  apply IH; [|assumption].
  destruct o as [f|s|b|]; cbn [apply_op resets] in *.
  - exact Hw.
  - apply Written_true. destruct (WriteHeader_fields s rw) as (-> & _).
    destruct (Z.eqb_spec s 0); [discriminate|assumption].
  - destruct (Write_written b rw Hw) as (_ & Hst & _).
    apply Written_true. rewrite Hst. apply Written_true, Hw.
  - unfold Flush. destruct (flusher (ResponseWriter rw)); exact Hw.
Qed.

Lemma wrap_int_small (z : Z) : in_int z -> wrap_int z = z.
Proof.
  unfold in_int, int_min, int_max, wrap_int. intros H.
  rewrite Z.mod_small; lia.
Qed.

(** C5 (as stated, refuted): a before-function registered once runs twice
    when [WriteHeader] is called twice on the same response. *)
Lemma hooks_rerun_on_second_WriteHeader :
  hook_runs (Hook 0)
    (wire_of (apply_ops [OpBefore (Hook 0); OpWriteHeader 200; OpWriteHeader 404]
                (NewResponseWriter plain_sink))) = 2%nat.
Proof. reflexivity. Qed.

(** C5 (amended): when the status of a response is set once -- by the first
    [WriteHeader] with a non-zero code or the first [Write], and
    [WriteHeader] is not called again -- the functions registered before it
    run exactly once each, most recently registered first, immediately
    before that first status reaches the sink and before any byte does. *)
Theorem before_hooks_once (t : transport) (pre post : list op) (o : op) (s : Z) :
  forallb quiet pre = true ->
  sets_status o = Some s ->
  forallb (fun o => negb (is_WriteHeader o)) post = true ->
  exists fl rest,
    wire_of (apply_ops (pre ++ o :: post) (NewResponseWriter t)) =
      wire t ++ fl ++ map WireBefore (rev (registered pre)) ++ WireHeader s :: rest
    /\ forallb is_flush fl = true
    /\ forallb (fun e => is_body e || is_flush e) rest = true.
Proof.
  intros Hpre Ho Hpost.
  rewrite apply_ops_app.
  change (apply_ops (o :: post) ?x) with (apply_ops post (apply_op o x)).
  destruct (quiet_prefix pre (NewResponseWriter t) Hpre) as (Hs & Hb & fl & Hw & Hfl).
  set (rw0 := apply_ops pre (NewResponseWriter t)) in *.
  simpl in Hs, Hb, Hw.
  assert (Hun : Written rw0 = false) by (apply Written_false; exact Hs).
  destruct o as [f|c|b|]; simpl in Ho; try discriminate; cbn [apply_op].
  - destruct (Z.eqb_spec c 0) as [|Hc]; [discriminate|]. injection Ho as ->.
    destruct (settled_suffix post (WriteHeader s rw0)) as (_ & rest & Hr & Hall); auto.
    { apply Written_true. destruct (WriteHeader_fields s rw0) as (-> & _). exact Hc. }
    exists fl, rest. rewrite Hr, WriteHeader_wire, Hw, Hb.
    unfold wire_of; simpl. repeat rewrite <- app_assoc. simpl. auto.
  - injection Ho as <-.
    destruct (Write_unwritten b rw0 Hun) as (Hwire & Hst & _).
    destruct (settled_suffix post (snd (Write b rw0))) as (_ & rest & Hr & Hall); auto.
    { apply Written_true. rewrite Hst. discriminate. }
    exists fl, (WireBody b :: rest).
    rewrite Hr, Hwire, WriteHeader_wire, Hw, Hb.
    unfold wire_of; simpl. repeat rewrite <- app_assoc. simpl. auto.
Qed.

Lemma before_hooks_once_witness :
  exists fl rest,
    wire_of (apply_ops ([OpBefore (Hook 1); OpBefore (Hook 2)] ++
                        OpWrite "a" :: [OpWrite "b"])
               (NewResponseWriter plain_sink)) =
      wire plain_sink ++ fl ++
      map WireBefore (rev (registered [OpBefore (Hook 1); OpBefore (Hook 2)])) ++
      WireHeader 200 :: rest
    /\ forallb is_flush fl = true
    /\ forallb (fun e => is_body e || is_flush e) rest = true.
Proof.
  apply (before_hooks_once plain_sink [OpBefore (Hook 1); OpBefore (Hook 2)]
           [OpWrite "b"] (OpWrite "a") 200); reflexivity.
Defined.

(** C6 (the code departs from the claim, and from its own documentation):
    [Written] does not remain true.  After [WriteHeader(200)] it is true;
    after a following [WriteHeader(0)] it is false and [Status] is 0,
    although status 200 has reached the sink -- where the interface
    documents [Status] as 0 only "if the response has not been written" and
    [Written] as "whether or not the ResponseWriter has been written".  A
    [Write] that follows sends status 200 a second time. *)
Lemma Written_reset_by_WriteHeader_0 :
  Written (apply_ops [OpWriteHeader 200] (NewResponseWriter plain_sink)) = true
  /\ Written (apply_ops [OpWriteHeader 200; OpWriteHeader 0]
                (NewResponseWriter plain_sink)) = false
  /\ Status (apply_ops [OpWriteHeader 200; OpWriteHeader 0]
               (NewResponseWriter plain_sink)) = 0%Z
  /\ wire_of (apply_ops [OpWriteHeader 200; OpWriteHeader 0]
                (NewResponseWriter plain_sink)) = [WireHeader 200; WireHeader 0]
  /\ wire_of (apply_ops [OpWriteHeader 200; OpWriteHeader 0; OpWrite "x"]
                (NewResponseWriter plain_sink)) =
     [WireHeader 200; WireHeader 0; WireHeader 200; WireBody "x"].
Proof. repeat split; reflexivity. Qed.

(** What the code keeps of the same claim: the first [Write] on an
    unwritten response sets status 200 before the bytes; a second [Write]
    leaves the status alone and adds the number of bytes the sink took to
    the byte count; [Written] is true after a status-set with a non-zero
    code and stays true as long as [WriteHeader] is not called with code
    0. *)
Theorem write_status_and_written
    (rw : responseWriter) (b1 b2 : string) (s : Z) (ops : list op) :
  Written rw = false ->
  s <> 0%Z ->
  forallb (fun o => negb (resets o)) ops = true ->
  let rw1 := snd (Write b1 rw) in
  let rw2 := snd (Write b2 rw1) in
  let n := accepted (ResponseWriter rw1) b2 in
  (wire_of rw1 = wire_of (WriteHeader StatusOK rw) ++ [WireBody b1]
   /\ Status rw1 = 200%Z)
  /\ (Status rw2 = Status rw1
      /\ wire_of rw2 = wire_of rw1 ++ [WireBody b2]
      /\ Size rw2 = wrap_int (Size rw1 + n)
      /\ (in_int (Size rw1 + n) -> Size rw2 = (Size rw1 + n)%Z))
  /\ (Written rw1 = true /\ Written (WriteHeader s rw) = true
      /\ Written (apply_ops ops rw1) = true
      /\ Written (apply_ops ops (WriteHeader s rw)) = true).
Proof.
  intros Hun Hs Hops rw1 rw2 n.
  destruct (Write_unwritten b1 rw Hun) as (Hwire & Hst & _).
  assert (Hw1 : Written rw1 = true).
  { apply Written_true. subst rw1. rewrite Hst. discriminate. }
  destruct (Write_written b2 rw1 Hw1) as (Hwire2 & Hst2 & Hsz2 & _).
  assert (Hws : Written (WriteHeader s rw) = true).
  { apply Written_true. destruct (WriteHeader_fields s rw) as (-> & _). exact Hs. }
  unfold Status, Size. repeat split; auto.
  - intros Hin. subst rw2 n. rewrite Hsz2. apply wrap_int_small, Hin.
  - apply Written_stays; assumption.
  - apply Written_stays; assumption.
Qed.

Lemma write_status_and_written_witness :
  let rw := Before (Hook 7) (NewResponseWriter plain_sink) in
  let rw1 := snd (Write "ab" rw) in
  let rw2 := snd (Write "cde" rw1) in
  let n := accepted (ResponseWriter rw1) "cde" in
  (wire_of rw1 = wire_of (WriteHeader StatusOK rw) ++ [WireBody "ab"]
   /\ Status rw1 = 200%Z)
  /\ (Status rw2 = Status rw1
      /\ wire_of rw2 = wire_of rw1 ++ [WireBody "cde"]
      /\ Size rw2 = wrap_int (Size rw1 + n)
      /\ (in_int (Size rw1 + n) -> Size rw2 = (Size rw1 + n)%Z))
  /\ (Written rw1 = true /\ Written (WriteHeader 404 rw) = true
      /\ Written (apply_ops [OpWrite "x"; OpFlush; OpWriteHeader 500] rw1) = true
      /\ Written (apply_ops [OpWrite "x"; OpFlush; OpWriteHeader 500]
                    (WriteHeader 404 rw)) = true).
Proof.
  apply (write_status_and_written (Before (Hook 7) (NewResponseWriter plain_sink))
           "ab" "cde" 404 [OpWrite "x"; OpFlush; OpWriteHeader 500]);
    [reflexivity | lia | reflexivity].
Defined.

End RWFacts.

(** * Properties of the return-value interpreter *)

Module ReturnFacts.
Import RW Reflect ReturnHandler Spec RWFacts.

Lemma added_app (res res' : responseWriter) (x : list wire_event) :
  wire_of res' = wire_of res ++ x -> added res res' = x.
Proof.
  intros H. unfold added. rewrite H.
  rewrite skipn_app, skipn_all, Nat.sub_diag. reflexivity.
Qed.

(** What a [Write] adds to the sink. *)
Lemma Write_wire (b : string) (res : responseWriter) :
  wire_of (snd (Write b res)) =
  wire_of res ++
  (if Written res then []
   else map WireBefore (rev (beforeFuncs res)) ++ [WireHeader StatusOK])
  ++ [WireBody b].
Proof.
  destruct (Written res) eqn:Hw.
  - destruct (Write_written b res Hw) as (-> & _). reflexivity.
  - destruct (Write_unwritten b res Hw) as (-> & _).
    rewrite WriteHeader_wire, <- !app_assoc. reflexivity.
Qed.

Lemma Write_added (b : string) (res : responseWriter) :
  added res (snd (Write b res)) =
  (if Written res then []
   else map WireBefore (rev (beforeFuncs res)) ++ [WireHeader StatusOK])
  ++ [WireBody b].
Proof. apply added_app, Write_wire. Qed.

Lemma count_app (p : wire_event -> bool) (a b : list wire_event) :
  count p (a ++ b) = (count p a + count p b)%nat.
Proof. unfold count. rewrite List.filter_app, length_app. reflexivity. Qed.

Lemma count_befores (p : wire_event -> bool) (fs : list BeforeFunc) :
  (forall f, p (WireBefore f) = false) -> count p (map WireBefore fs) = 0%nat.
Proof.
  intros H. unfold count. induction fs as [|f fs IH]; simpl; [reflexivity|].
  rewrite H. exact IH.
Qed.

(** The one-value case, whatever the value. *)
Lemma defaultReturnHandler_one (res : responseWriter) (v : Value) :
  defaultReturnHandler res [v] = snd (Write (payload v) res).
Proof.
  unfold defaultReturnHandler, payload, written_form, unwrap. simpl.
  destruct (canDeref v); destruct (isByteSlice _); reflexivity.
Qed.

(** Two or more values whose first is not of kind [Int]. *)
Lemma defaultReturnHandler_first (res : responseWriter) (v v' : Value)
    (rest : list Value) :
  Kind_eqb (kind v) Int = false ->
  defaultReturnHandler res (v :: v' :: rest) = snd (Write (payload v) res).
Proof.
  intros Hk. unfold defaultReturnHandler, payload, written_form, unwrap.
  cbn [List.length Nat.ltb Nat.leb nth andb]. rewrite Hk.
  destruct (canDeref v); destruct (isByteSlice _); reflexivity.
Qed.

(** Two or more values whose first is of kind [Int]. *)
Lemma defaultReturnHandler_status (res : responseWriter) (v0 v1 : Value)
    (rest : list Value) :
  Kind_eqb (kind v0) Int = true ->
  defaultReturnHandler res (v0 :: v1 :: rest) =
  snd (Write (payload v1) (WriteHeader (Int_of v0) res)).
Proof.
  intros Hk. unfold defaultReturnHandler, payload, written_form, unwrap.
  cbn [List.length Nat.ltb Nat.leb nth andb]. rewrite Hk.
  destruct (canDeref v1); destruct (isByteSlice _); reflexivity.
Qed.

(** C7 (as stated, refuted): for a handler that set the status itself and
    returns a string, the interpreter sets no status at all. *)
Lemma no_status_set_when_already_written :
  let res := WriteHeader 201 (NewResponseWriter plain_sink) in
  added res (defaultReturnHandler res [OfString "x"]) = [WireBody "x"]
  /\ count is_header (added res (defaultReturnHandler res [OfString "x"])) = 0%nat.
Proof. split; reflexivity. Qed.

(** C7 (amended): with two values of which the first has kind [Int], the
    interpreter writes the first as the status and then the second by the
    value rule; with one value it writes that value by the value rule
    (unwrap one pointer or interface level, then raw bytes for a byte slice
    and the string form otherwise).  Each invocation performs exactly one
    body write (so at most one); it performs exactly one status-set when
    an explicit status other than zero is given, and when one value is
    given and the response is unwritten on entry. *)
Theorem defaultReturnHandler_rule (res : responseWriter) (v0 v1 v : Value) :
  Kind_eqb (kind v0) Int = true ->
  let two := defaultReturnHandler res [v0; v1] in
  let one := defaultReturnHandler res [v] in
  two = snd (Write (payload v1) (WriteHeader (Int_of v0) res))
  /\ one = snd (Write (payload v) res)
  /\ count is_body (added res two) = 1%nat
  /\ count is_body (added res one) = 1%nat
  /\ (Written res = false -> count is_header (added res one) = 1%nat)
  /\ (Int_of v0 <> 0%Z -> count is_header (added res two) = 1%nat).
Proof.
  intros Hk two one.
  assert (H2 : two = snd (Write (payload v1) (WriteHeader (Int_of v0) res)))
    by (apply defaultReturnHandler_status; exact Hk).
  assert (H1 : one = snd (Write (payload v) res))
    by apply defaultReturnHandler_one.
  assert (Hadd2 : added res two =
            map WireBefore (rev (beforeFuncs res)) ++ [WireHeader (Int_of v0)] ++
            (if Written (WriteHeader (Int_of v0) res) then []
             else map WireBefore (rev (beforeFuncs (WriteHeader (Int_of v0) res)))
                  ++ [WireHeader StatusOK]) ++ [WireBody (payload v1)]).
  { apply added_app. rewrite H2, Write_wire, WriteHeader_wire, <- !app_assoc.
    reflexivity. }
  pose proof (Write_added (payload v) res) as Ha1. rewrite <- H1 in Ha1.
  assert (Hfields := WriteHeader_fields (Int_of v0) res).
  destruct Hfields as (Hst & _ & Hbf & _).
  repeat split; try assumption.
  - rewrite Hadd2, !count_app, count_befores by reflexivity.
    destruct (Written (WriteHeader (Int_of v0) res));
      rewrite ?count_app, ?count_befores by reflexivity; reflexivity.
  - rewrite Ha1. destruct (Written res);
      rewrite ?count_app, ?count_befores by reflexivity; reflexivity.
  - intros Hun. rewrite Ha1, Hun.
    rewrite !count_app, count_befores by reflexivity. reflexivity.
  - intros Hnz. rewrite Hadd2.
    assert (Hw : Written (WriteHeader (Int_of v0) res) = true)
      by (apply Written_true; rewrite Hst; exact Hnz).
    rewrite Hw, !count_app, count_befores by reflexivity. reflexivity.
Qed.

Lemma defaultReturnHandler_rule_witness :
  let res := Before (Hook 3) (NewResponseWriter plain_sink) in
  let v0 := OfInt "int" 201 in
  let v1 := OfPtr "*[]uint8" (OfSlice "[]uint8" Uint8 "raw") in
  let v := OfInterface "interface {}" (OfString "text") in
  let two := defaultReturnHandler res [v0; v1] in
  let one := defaultReturnHandler res [v] in
  Kind_eqb (kind v0) Int = true
  /\ Written res = false
  /\ Int_of v0 <> 0%Z
  /\ two = snd (Write (payload v1) (WriteHeader (Int_of v0) res))
  /\ one = snd (Write (payload v) res)
  /\ count is_body (added res two) = 1%nat
  /\ count is_body (added res one) = 1%nat
  /\ count is_header (added res one) = 1%nat
  /\ count is_header (added res two) = 1%nat.
Proof.
  intros res v0 v1 v two one.
  assert (Hk : Kind_eqb (kind v0) Int = true) by reflexivity.
  assert (Hw : Written res = false) by reflexivity.
  assert (Hz : Int_of v0 <> 0%Z) by (simpl; lia).
  destruct (defaultReturnHandler_rule res v0 v1 v Hk)
    as (H2 & H1 & Hb2 & Hb1 & Hs1 & Hs2).
  pose proof (Hs1 Hw) as Hone. pose proof (Hs2 Hz) as Htwo.
  repeat split; assumption.
Defined.

(** C10: when a handler returns two or more values and the first is not
    of kind [Int], the interpreter treats the call as if only the first
    value had been returned: that value is written by the value rule (its
    bytes for a byte slice, its string form otherwise), the remaining
    values are dropped, and no explicit status is set -- the only status
    that can reach the sink is the implicit 200 of an unwritten
    response. *)
Theorem first_value_only (res : responseWriter) (v v' : Value) (rest : list Value) :
  Kind_eqb (kind v) Int = false ->
  let out := defaultReturnHandler res (v :: v' :: rest) in
  out = defaultReturnHandler res [v]
  /\ out = snd (Write (payload v) res)
  /\ (canDeref v = false ->
      payload v = if isByteSlice v then Bytes v else String_of v)
  /\ added res out =
       (if Written res then []
        else map WireBefore (rev (beforeFuncs res)) ++ [WireHeader StatusOK])
       ++ [WireBody (payload v)].
Proof.
  intros Hk out.
  assert (H : out = snd (Write (payload v) res))
    by (apply defaultReturnHandler_first; exact Hk).
  repeat split.
  - rewrite defaultReturnHandler_one. exact H.
  - exact H.
  - intros Hd. unfold payload, unwrap, written_form. rewrite Hd. reflexivity.
  - rewrite H. apply Write_added.
Qed.

Lemma first_value_only_witness :
  let res := NewResponseWriter plain_sink in
  let v := OfString "done" in
  let v' := OfInterface "error" (OfPtr "*errors.errorString" (OfOpaque KStruct "errors.errorString")) in
  let out := defaultReturnHandler res (v :: v' :: []) in
  out = defaultReturnHandler res [v]
  /\ out = snd (Write (payload v) res)
  /\ (canDeref v = false ->
      payload v = if isByteSlice v then Bytes v else String_of v)
  /\ added res out =
       (if Written res then []
        else map WireBefore (rev (beforeFuncs res)) ++ [WireHeader StatusOK])
       ++ [WireBody (payload v)].
Proof.
  apply (first_value_only (NewResponseWriter plain_sink) (OfString "done")
           (OfInterface "error"
              (OfPtr "*errors.errorString" (OfOpaque KStruct "errors.errorString")))
           []).
  reflexivity.
Defined.

End ReturnFacts.

(** * Properties of the matcher *)

Module MatcherFacts.
Import Regexp Matcher Spec.

Lemma length_append (a b : string) :
  String.length (a +:+ b) = (String.length a + String.length b)%nat.
Proof. induction a as [|c a IH]; simpl; [reflexivity|]. rewrite IH. reflexivity. Qed.

Lemma substring_prefix (a b : string) :
  String.substring 0 (String.length a) (a +:+ b) = a.
Proof.
  induction a as [|c a IH]; simpl.
  - destruct b; reflexivity.
  - rewrite IH. reflexivity.
Qed.

Lemma substring_length_le (n : nat) (s : string) :
  (n <= String.length s)%nat -> String.length (String.substring 0 n s) = n.
Proof.
  revert n. induction s as [|c s IH]; intros [|n] H; simpl in *; try lia.
  rewrite IH; lia.
Qed.

Lemma substring_all (s : string) : String.substring 0 (String.length s) s = s.
Proof. induction s as [|c s IH]; simpl; [reflexivity|]. rewrite IH. reflexivity. Qed.

Lemma length_zero (s : string) : String.length s = 0%nat -> s = "".
Proof. destruct s; simpl; [reflexivity|discriminate]. Qed.

Lemma consumed_app (a b : string) : consumed (a +:+ b) b = a.
Proof.
  unfold consumed. rewrite length_append.
  replace (String.length a + String.length b - String.length b)%nat
    with (String.length a) by lia.
  apply substring_prefix.
Qed.

Lemma consumed_all (s : string) : consumed s "" = s.
Proof. unfold consumed. simpl. rewrite Nat.sub_0_r. apply substring_all. Qed.

Lemma consumed_length (s rest : string) :
  String.length (consumed s rest) = (String.length s - String.length rest)%nat.
Proof. unfold consumed. apply substring_length_le. lia. Qed.

Lemma iterate_kont (body : string -> captures -> kont -> answer) :
  (forall s cs k x, body s cs k = Some x -> from_kont s cs k x) ->
  forall n s cs k x, iterate body n s cs k = Some x -> from_kont s cs k x.
Proof.
  intros Hbody. induction n as [|n IH]; intros s cs k x H; simpl in H.
  - exists s, cs. auto.
  - destruct (body s cs _) as [y|] eqn:Hb.
    + injection H as ->. apply Hbody in Hb. destruct Hb as (s1 & cs1 & Hk & Hl & Hc).
      destruct (String.length s1 <? String.length s)%nat eqn:Hlt; [|discriminate].
      apply IH in Hk. destruct Hk as (s2 & cs2 & Hk & Hl2 & Hc2).
      exists s2, cs2. repeat split; [assumption|lia|congruence].
    + exists s, cs. auto.
Qed.

Lemma exec_kont (r : regex) :
  forall s cs k x, exec r s cs k = Some x -> from_kont s cs k x.
Proof.
  induction r as [| c | | neg items | r1 IH1 r2 IH2 | r1 IH1 r2 IH2
                 | r1 IH1 | r1 IH1 | r1 IH1 | i r1 IH1];
    intros s cs k x H; simpl in H.
  - exists s, cs. auto.
  - destruct s as [|c' s']; [discriminate|].
    destruct (Ascii.eqb c c'); [|discriminate].
    exists s', cs. simpl. auto.
  - destruct s as [|c' s']; [discriminate|].
    destruct (Ascii.eqb c' _); [discriminate|].
    exists s', cs. simpl. auto.
  - destruct s as [|c' s']; [discriminate|].
    destruct (class_matches neg items c'); [|discriminate].
    exists s', cs. simpl. auto.
  - apply IH1 in H. destruct H as (s1 & cs1 & Hk & Hl & Hc).
    apply IH2 in Hk. destruct Hk as (s2 & cs2 & Hk & Hl2 & Hc2).
    exists s2, cs2. repeat split; [assumption|lia|congruence].
  - destruct (exec r1 s cs k) as [y|] eqn:H1.
    + injection H as ->. apply IH1, H1.
    + apply IH2, H.
  - apply (iterate_kont (exec r1) IH1) in H. exact H.
  - apply IH1 in H. destruct H as (s1 & cs1 & Hk & Hl & Hc).
    apply (iterate_kont (exec r1) IH1) in Hk.
    destruct Hk as (s2 & cs2 & Hk & Hl2 & Hc2).
    exists s2, cs2. repeat split; [assumption|lia|congruence].
  - destruct (exec r1 s cs k) as [y|] eqn:H1.
    + injection H as ->. apply IH1, H1.
    + exists s, cs. auto.
  - apply IH1 in H. destruct H as (s1 & cs1 & Hk & Hl & Hc).
    exists s1, (<[i := consumed s s1]> cs1). repeat split; [assumption|lia|].
    rewrite length_insert. exact Hc.
Qed.

(** A match at the start of [s] leaves a rest no longer than [s] and has
    the text it consumed in register 0. *)
Lemma match_here_shape (re : Regexp) (s rest : string) (cs : captures) :
  match_here re s = Some (rest, cs) ->
  (String.length rest <= String.length s)%nat
  /\ nth 0 cs "" = consumed s rest
  /\ List.length cs = S (NumSubexp re).
Proof.
  unfold match_here. intros H. apply exec_kont in H.
  destruct H as (s' & cs' & Hk & Hl & Hc).
  injection Hk as <- <-. rewrite length_replicate in Hc.
  split; [exact Hl|].
  destruct cs' as [|c0 cs']; [discriminate|]. simpl. split; [reflexivity|].
  simpl in Hc. simpl. exact Hc.
Qed.

Lemma FindStringSubmatch_here (re : Regexp) (s rest : string) (cs : captures) :
  match_here re s = Some (rest, cs) -> FindStringSubmatch re s = cs.
Proof. intros H. destruct s; simpl; rewrite H; reflexivity. Qed.

Lemma FindStringSubmatch_later (re : Regexp) (c : ascii) (s : string) :
  match_here re (String c s) = None ->
  FindStringSubmatch re (String c s) = FindStringSubmatch re s.
Proof. intros H. simpl. rewrite H. reflexivity. Qed.

(** The text found is never longer than the subject from which the search
    started. *)
Lemma FindStringSubmatch_length (re : Regexp) (s : string) :
  FindStringSubmatch re s <> [] ->
  (String.length (nth 0 (FindStringSubmatch re s) "") <= String.length s)%nat.
Proof.
  induction s as [|c s IH]; intros Hne.
  - simpl in *. destruct (match_here re "") as [[rest cs]|] eqn:H; [|congruence].
    apply match_here_shape in H. destruct H as (Hl & -> & _).
    rewrite consumed_length. simpl. lia.
  - destruct (match_here re (String c s)) as [[rest cs]|] eqn:H.
    + rewrite (FindStringSubmatch_here _ _ _ _ H).
      apply match_here_shape in H. destruct H as (Hl & -> & _).
      rewrite consumed_length. lia.
    + rewrite (FindStringSubmatch_later _ _ _ H) in *.
      specialize (IH Hne). simpl. lia.
Qed.

(** The test of [route.Match] and [MethodsFor] -- a match was found and it
    is the whole path -- holds exactly when the leftmost-first match at the
    start of the path consumes the whole path. *)
Lemma whole_path_match (re : Regexp) (path : string) :
  let matches := FindStringSubmatch re path in
  (0 <? List.length matches)%nat && String.eqb (nth 0 matches "") path = true
  <-> exists cs, match_here re path = Some ("", cs) /\ matches = cs.
Proof.
  cbv zeta. split.
  - intros H. apply andb_true_iff in H as [Hlen Heq].
    apply Nat.ltb_lt in Hlen. apply String.eqb_eq in Heq.
    assert (Hne : FindStringSubmatch re path <> [])
      by (intros E; rewrite E in Hlen; simpl in Hlen; lia).
    destruct (match_here re path) as [[rest cs]|] eqn:Hm.
    + rewrite (FindStringSubmatch_here _ _ _ _ Hm) in *.
      pose proof (match_here_shape _ _ _ _ Hm) as (Hl & H0 & _).
      assert (Hrest : rest = "").
      { apply length_zero.
        assert (Hc := consumed_length path rest).
        rewrite <- H0, Heq in Hc. lia. }
      subst rest. exists cs. auto.
    + destruct path as [|c path].
      * simpl in Hne. rewrite Hm in Hne. congruence.
      * rewrite (FindStringSubmatch_later _ _ _ Hm) in *.
        pose proof (FindStringSubmatch_length re path Hne) as Hl.
        rewrite Heq in Hl. simpl in Hl. lia.
  - intros (cs & Hm & Hcs).
    rewrite (FindStringSubmatch_here _ _ _ _ Hm).
    pose proof (match_here_shape _ _ _ _ Hm) as (_ & H0 & Hlen).
    rewrite H0, consumed_all, Hlen, String.eqb_refl. reflexivity.
Qed.

End MatcherFacts.

(** * Properties of the router *)

Module RouterFacts.
Import RW Regexp Matcher Handlers Router RouteContext Spec MatcherFacts.

Lemma MatchMethod_spec (r : route) (m : string) :
  MatchMethod r m = true <-> method_matches (method r) m.
Proof.
  unfold MatchMethod, method_matches.
  rewrite !orb_true_iff, andb_true_iff, !String.eqb_eq.
  split.
  - intros [[H|H]|[H1 H2]]; auto.
  - intros [H|[H|[H1 H2]]]; auto.
Qed.

(** The loop over the names of the groups builds the mapping of the named
    captures. *)
Lemma collect_fold (names_ : list string) :
  forall (i : nat) (ms : list string) (p : Params),
    (i + List.length names_ <= List.length ms)%nat ->
    collect names_ i ms p =
    fold_left (fun acc (q : string * string) => <[fst q := snd q]> acc)
      (List.filter (fun q => (0 <? String.length (fst q))%nat)
         (combine names_ (skipn i ms))) p.
Proof.
  induction names_ as [|name_ rest IH]; intros i ms p Hlen; [reflexivity|].
  simpl in Hlen. cbn [collect].
  rewrite IH by lia.
  assert (Hs : skipn i ms = nth i ms "" :: skipn (S i) ms).
  { clear -Hlen. revert i Hlen.
    induction ms as [|x ms IHms]; intros i Hlen; simpl in Hlen; [lia|].
    destruct i as [|i]; [reflexivity|].
    simpl. apply IHms. simpl. lia. }
  rewrite Hs. cbn [combine List.filter fst].
  destruct (0 <? String.length name_)%nat; reflexivity.
Qed.

Lemma fold_insert_list_to_map (l : list (string * string)) :
  fold_left (fun acc (q : string * string) => <[fst q := snd q]> acc) l
    (∅ : Params) = list_to_map (rev l).
Proof.
  induction l as [|x l IH] using rev_ind; [reflexivity|].
  rewrite fold_left_app, rev_app_distr. simpl. rewrite IH.
  destruct x; reflexivity.
Qed.

Lemma collect_named_captures (re : Regexp) (cs : list string) :
  List.length cs = S (NumSubexp re) ->
  collect (SubexpNames re) 0 cs ∅ = named_captures re cs.
Proof.
  intros Hlen. unfold named_captures.
  rewrite collect_fold by (unfold SubexpNames, NumSubexp in *; simpl; lia).
  apply fold_insert_list_to_map.
Qed.

(** [route.Match] succeeds exactly when the method matches and the pattern
    matches the path structurally, and then returns the named captures. *)
Lemma Match_true (rt : route) (m path : string) (cs : list string) :
  method_matches (method rt) m ->
  full_match (regex rt) path cs ->
  Match rt m path = (true, named_captures (regex rt) cs).
Proof.
  intros Hm Hf. unfold Match.
  apply MatchMethod_spec in Hm. rewrite Hm. cbn [negb].
  pose proof (proj2 (whole_path_match (regex rt) path)) as Hw. cbv zeta in Hw.
  rewrite Hw by (exists cs; split; [exact Hf | apply (FindStringSubmatch_here _ _ _ _ Hf)]).
  rewrite (FindStringSubmatch_here _ _ _ _ Hf).
  rewrite collect_named_captures; [reflexivity|].
  apply match_here_shape in Hf. tauto.
Qed.

Lemma Match_false (rt : route) (m path : string) :
  ~ (method_matches (method rt) m /\ structurally_matches rt path) ->
  Match rt m path = (false, ∅).
Proof.
  intros Hn. unfold Match.
  destruct (MatchMethod rt m) eqn:Hm; [|reflexivity]. cbn [negb].
  destruct (_ && _) eqn:Hw; [|reflexivity].
  exfalso. apply Hn. split; [apply MatchMethod_spec, Hm|].
  apply whole_path_match in Hw. destruct Hw as (cs & Hh & _).
  exists cs. exact Hh.
Qed.

Lemma dispatch_skip (x : route) (rest : list route) (nf : list Handler) (w : world) :
  Match x (Method (request w)) (Path (request w)) = (false, ∅) ->
  dispatch (x :: rest) nf w = dispatch rest nf w.
Proof. intros H. cbn [dispatch]. unfold bind, get. rewrite H. reflexivity. Qed.

Lemma dispatch_hit (x : route) (rest : list route) (nf : list Handler) (w : world)
    (ps : Params) :
  Match x (Method (request w)) (Path (request w)) = (true, ps) ->
  dispatch (x :: rest) nf w = route_Handle x (set_params ps w).
Proof. intros H. cbn [dispatch]. unfold bind, get. rewrite H. reflexivity. Qed.

(** C1: [Handle] dispatches to the first route, in registration order,
    whose method matches the request method and whose compiled pattern
    matches the request path structurally; the named captures of that match
    are bound as [Params] and the handler chain of that route is run.  A
    route's method matches when it equals the request method, when it is the
    wildcard, or when it is [GET] and the request method is [HEAD]. *)
Theorem Handle_first_match (r : router) (w : world) (pre post : list route)
    (rt : route) (cs : list string) :
  routes r = pre ++ rt :: post ->
  Forall (fun x => ~ (method_matches (method x) (Method (request w))
                      /\ structurally_matches x (Path (request w)))) pre ->
  method_matches (method rt) (Method (request w)) ->
  full_match (regex rt) (Path (request w)) cs ->
  Handle r w =
  route_Handle rt (set_params (named_captures (regex rt) cs) w).
Proof.
  intros Hr Hpre Hm Hf. unfold Handle. rewrite Hr. clear Hr.
  induction Hpre as [|x pre Hx Hpre IH].
  - simpl app. apply dispatch_hit, Match_true; assumption.
  - simpl app. rewrite dispatch_skip; [exact IH|]. apply Match_false, Hx.
Qed.

(** When no route matches, the not-found chain is run. *)
Lemma Handle_no_match (r : router) (w : world) :
  Forall (fun x => ~ (method_matches (method x) (Method (request w))
                      /\ structurally_matches x (Path (request w)))) (routes r) ->
  Handle r w = start (notFounds r) w.
Proof.
  unfold Handle. induction 1 as [|x rs Hx Hrs IH]; [reflexivity|].
  rewrite dispatch_skip; [exact IH|]. apply Match_false, Hx.
Qed.

Lemma Handle_first_match_witness :
  let r := {| routes := [user_route "POST" []; user_route "GET" []; user_route "*" []];
              notFounds := []; groups := [] |} in
  let w := Martini.createContext Martini.New plain_sink
             {| Method := "HEAD"; Path := "/user/42/" |} in
  Handle r w =
  route_Handle (user_route "GET" []) (set_params {[ "id" := "42" ]} w).
Proof.
  intros r w.
  apply (Handle_first_match r w [user_route "POST" []] [user_route "*" []]
           (user_route "GET" []) ["/user/42/"; "42"]).
  - reflexivity.
  - constructor; [|constructor].
    intros [[H|[H|[H _]]] _]; discriminate H.
  - right. right. split; reflexivity.
  - reflexivity.
Defined.

End RouterFacts.

(** * Compilation and matching of route patterns *)

Module PatternFacts.
Import Regexp Matcher Handlers Router Spec MatcherFacts RouterFacts.

(** ** Strings *)

Lemma append_cons (c : ascii) (a b : string) :
  String c a +:+ b = String c (a +:+ b).
Proof. reflexivity. Qed.

Lemma append_nil_l (b : string) : "" +:+ b = b.
Proof. reflexivity. Qed.

Lemma append_assoc (a b c : string) : (a +:+ b) +:+ c = a +:+ (b +:+ c).
Proof.
  induction a as [|x a IH]; [reflexivity|].
  rewrite !append_cons, IH. reflexivity.
Qed.

Lemma append_nil_r (a : string) : a +:+ "" = a.
Proof.
  induction a as [|x a IH]; [reflexivity|]. rewrite append_cons, IH. reflexivity.
Qed.

Lemma all_chars_app (p : ascii -> bool) (a b : string) :
  all_chars p (a +:+ b) = all_chars p a && all_chars p b.
Proof.
  induction a as [|x a IH]; [reflexivity|].
  rewrite append_cons. simpl. rewrite IH, andb_assoc. reflexivity.
Qed.

Lemma all_chars_impl (p q : ascii -> bool) (s : string) :
  (forall c, p c = true -> q c = true) ->
  all_chars p s = true -> all_chars q s = true.
Proof.
  intros Hpq. induction s as [|c s IH]; simpl; [reflexivity|].
  intros H. apply andb_true_iff in H as [Hc Hs].
  rewrite (Hpq _ Hc), (IH Hs). reflexivity.
Qed.

Lemma span_spec (p : ascii -> bool) (s : string) :
  s = fst (span p s) +:+ snd (span p s)
  /\ all_chars p (fst (span p s)) = true
  /\ stops p (snd (span p s)).
Proof.
  induction s as [|c s (IH1 & IH2 & IH3)]; simpl; [auto|].
  destruct (p c) eqn:Hc.
  - destruct (span p s) as [a b]. simpl in *. rewrite append_cons, Hc, IH2, <- IH1. auto.
  - simpl. auto.
Qed.

Lemma strip_prefix_app (pre s : string) : strip_prefix pre (pre +:+ s) = Some s.
Proof.
  induction pre as [|c pre IH]; [destruct s; reflexivity|].
  rewrite append_cons. simpl. rewrite Ascii.eqb_refl. exact IH.
Qed.

Lemma strip_prefix_Some (pre s t : string) :
  strip_prefix pre s = Some t -> s = pre +:+ t.
Proof.
  revert s. induction pre as [|c pre IH]; intros s H.
  - destruct s; simpl in H; injection H as <-; reflexivity.
  - destruct s as [|c' s]; simpl in H; [discriminate|].
    destruct (Ascii.eqb_spec c c') as [<-|]; [|discriminate].
    rewrite append_cons, (IH _ H). reflexivity.
Qed.

(** ** Runs of a character class *)

Lemma exec_class_cons (neg : bool) (items : list ascii) (c : ascii) (s : string)
    (cs : captures) (k : kont) :
  exec (Class neg items) (String c s) cs k =
  if class_matches neg items c then k s cs else None.
Proof. reflexivity. Qed.

Lemma iterate_class_greedy (neg : bool) (items : list ascii) (v rest : string) :
  forall (n : nat) (cs : captures) (k : kont) (x : string * captures),
    all_chars (class_matches neg items) v = true ->
    stops (class_matches neg items) rest ->
    (String.length v <= n)%nat ->
    k rest cs = Some x ->
    iterate (exec (Class neg items)) n (v +:+ rest) cs k = Some x.
Proof.
  induction v as [|c v IH]; intros n cs k x Hv Hr Hn Hk.
  - rewrite append_nil_l. destruct n as [|n]; cbn [iterate]; [exact Hk|].
    destruct rest as [|c r]; [exact Hk|].
    rewrite exec_class_cons. simpl in Hr. rewrite Hr. exact Hk.
  - simpl in Hv. apply andb_true_iff in Hv as [Hc Hv].
    destruct n as [|n]; simpl in Hn; [lia|].
    rewrite append_cons. cbn [iterate]. rewrite exec_class_cons, Hc.
    assert (Hlt : (String.length (v +:+ rest)
                   <? String.length (String c (v +:+ rest)))%nat = true)
      by (apply Nat.ltb_lt; simpl; lia).
    rewrite Hlt. rewrite (IH n cs k x); auto. lia.
Qed.

Lemma exec_star_class (neg : bool) (items : list ascii) (v rest : string)
    (cs : captures) (k : kont) (x : string * captures) :
  all_chars (class_matches neg items) v = true ->
  stops (class_matches neg items) rest ->
  k rest cs = Some x ->
  exec (Star (Class neg items)) (v +:+ rest) cs k = Some x.
Proof.
  intros Hv Hr Hk.
  change (exec (Star (Class neg items)) (v +:+ rest) cs k)
    with (iterate (exec (Class neg items)) (String.length (v +:+ rest))
            (v +:+ rest) cs k).
  apply iterate_class_greedy; auto. rewrite length_append. lia.
Qed.

Lemma exec_plus_class (neg : bool) (items : list ascii) (c : ascii)
    (v rest : string) (cs : captures) (k : kont) (x : string * captures) :
  all_chars (class_matches neg items) (String c v) = true ->
  stops (class_matches neg items) rest ->
  k rest cs = Some x ->
  exec (Plus (Class neg items)) (String c v +:+ rest) cs k = Some x.
Proof.
  intros Hv Hr Hk. simpl in Hv. apply andb_true_iff in Hv as [Hc Hv].
  rewrite append_cons.
  change (exec (Plus (Class neg items)) (String c (v +:+ rest)) cs k)
    with (exec (Class neg items) (String c (v +:+ rest)) cs
            (fun s' cs' => iterate (exec (Class neg items)) (String.length s') s' cs' k)).
  rewrite exec_class_cons, Hc.
  apply iterate_class_greedy; auto. rewrite length_append. lia.
Qed.

Lemma exec_plus_class_stops (neg : bool) (items : list ascii) (rest : string)
    (cs : captures) (k : kont) :
  stops (class_matches neg items) rest ->
  exec (Plus (Class neg items)) rest cs k = None.
Proof.
  intros Hr. destruct rest as [|c r]; [reflexivity|].
  simpl in *. rewrite Hr. reflexivity.
Qed.

(** ** Literal text *)

Lemma cat_all_cons (r : Regexp.regex) (rs : list Regexp.regex) :
  rs <> [] -> cat_all (r :: rs) = Cat r (cat_all rs).
Proof. destruct rs; [congruence|reflexivity]. Qed.

Lemma exec_lits (lit : string) (r : Regexp.regex) (rs : list Regexp.regex) :
  forall (s : string) (cs : captures) (k : kont),
    exec (cat_all (lits lit ++ r :: rs)) s cs k =
    match strip_prefix lit s with
    | Some s' => exec (cat_all (r :: rs)) s' cs k
    | None => None
    end.
Proof.
  induction lit as [|c lit IH]; intros s cs k.
  - destruct s; reflexivity.
  - cbn [lits app]. rewrite cat_all_cons by (destruct (lits lit); discriminate).
    cbn [exec]. destruct s as [|c' s]; [reflexivity|].
    cbn [strip_prefix]. destruct (Ascii.eqb c c'); [apply IH|reflexivity].
Qed.

(** ** The optional slash *)

Lemma drop_slash_other (c : ascii) (r : string) :
  c <> "/"%char -> drop_slash (String c r) = String c r.
Proof.
  intros Hc. destruct c as [[] [] [] [] [] [] [] []]; try reflexivity.
  congruence.
Qed.

(** The optional slash at the end of every compiled pattern. *)
Lemma exec_optional_slash (path rest : string) (cs : captures) :
  exec (Quest (Lit "/")) rest cs
    (fun s' cs' => Some (s', <[0%nat := consumed path s']> cs')) =
  Some (drop_slash rest, <[0%nat := consumed path (drop_slash rest)]> cs).
Proof.
  destruct rest as [|c r]; [reflexivity|].
  cbn [exec]. destruct (Ascii.eqb_spec "/"%char c) as [<-|Hc].
  - reflexivity.
  - rewrite drop_slash_other by congruence. reflexivity.
Qed.

(** ** The token expressions and the rewriting passes of [newRoute] *)

Lemma MustCompile_param_token : MustCompile param_token = Ok param_re.
Proof. reflexivity. Qed.

Lemma MustCompile_wildcard_token : MustCompile wildcard_token = Ok wildcard_re.
Proof. reflexivity. Qed.

Ltac by_cases c :=
  destruct c as [[] [] [] [] [] [] [] []]; try reflexivity; try discriminate.

Lemma plain_not_colon (c : ascii) :
  plain_char c = true -> negb (Ascii.eqb ":" c) = true.
Proof. by_cases c. Qed.

Lemma plain_not_star (c : ascii) :
  plain_char c = true -> negb (Ascii.eqb "*" c) = true.
Proof. by_cases c. Qed.

Lemma word_not_star (c : ascii) :
  is_word c = true -> negb (Ascii.eqb "*" c) = true.
Proof. by_cases c. Qed.

Lemma word_name_char (c : ascii) : is_word c = true -> name_char c = true.
Proof. by_cases c. Qed.

Lemma word_not_closing (c : ascii) : is_word c = true -> Ascii.eqb c ">" = false.
Proof. by_cases c. Qed.

Lemma step_normal_plain (c : ascii) :
  plain_char c = true -> step_normal c = Parsed ([TLit c], LNormal).
Proof. by_cases c. Qed.

Lemma match_here_param_token (c : ascii) (v rest : string) :
  all_chars name_char (String c v) = true ->
  stops name_char rest ->
  match_here param_re (String ":" (String c v +:+ rest)) =
  Some (rest, [String ":" (String c v)]).
Proof.
  intros Hv Hr. unfold match_here, param_re. cbn [expr names NumSubexp List.length].
  change (exec (Cat ?a ?b) ?s ?cs ?k) with (exec a s cs (fun s' cs' => exec b s' cs' k)).
  cbn [exec Ascii.eqb Bool.eqb].
  apply exec_plus_class; [exact Hv|exact Hr|].
  change (String ":" (String c v +:+ rest)) with (String ":" (String c v) +:+ rest).
  rewrite consumed_app. reflexivity.
Qed.

Section Replace.
Context {St : Type} (re : Regexp) (repl : St -> string -> string * St)
        (p : ascii -> bool).
Hypothesis no_match : forall c s, p c = true -> match_here re (String c s) = None.

(** Text in which no match can start is copied. *)
Lemma replace_all_skip (lit : string) :
  forall (n : nat) (after : bool) (s : string) (st : St),
    all_chars p lit = true ->
    exists after',
      replace_all re repl (String.length lit + n) after (lit +:+ s) st =
      (let '(t, st') := replace_all re repl n after' s st in (lit +:+ t, st')).
Proof using no_match.
  induction lit as [|c lit IH]; intros n after s st Hp.
  - exists after. rewrite append_nil_l. simpl.
    destruct (replace_all re repl n after s st); reflexivity.
  - simpl in Hp. apply andb_true_iff in Hp as [Hc Hp].
    destruct (IH n false s st Hp) as (after' & Heq).
    exists after'. rewrite append_cons. cbn [String.length Nat.add replace_all].
    rewrite (no_match _ _ Hc), Heq.
    destruct (replace_all re repl n after' s st). reflexivity.
Qed.

End Replace.

Lemma param_token_no_match (c : ascii) (s : string) :
  negb (Ascii.eqb ":" c) = true -> match_here param_re (String c s) = None.
Proof.
  intros H. apply negb_true_iff in H.
  unfold match_here, param_re. cbn [expr exec]. rewrite H. reflexivity.
Qed.

Lemma wildcard_token_no_match (c : ascii) (s : string) :
  negb (Ascii.eqb "*" c) = true -> match_here wildcard_re (String c s) = None.
Proof.
  intros H. apply negb_true_iff in H.
  unfold match_here, wildcard_re. cbn [expr exec]. rewrite H. reflexivity.
Qed.

Lemma stops_starts (s : string) : starts_name s = false -> stops name_char s.
Proof. destruct s; simpl; auto. Qed.

(** The same with any sufficient bound on the number of steps. *)
Lemma replace_all_copy {St : Type} (re : Regexp) (repl : St -> string -> string * St)
    (p : ascii -> bool)
    (no_match : forall c s, p c = true -> match_here re (String c s) = None)
    (lit s : string) (n : nat) (after : bool) (st : St) :
  all_chars p lit = true ->
  (String.length (lit +:+ s) < n)%nat ->
  exists after' n', (String.length s < n')%nat /\
    replace_all re repl n after (lit +:+ s) st =
    (let '(t, st') := replace_all re repl n' after' s st in (lit +:+ t, st')).
Proof.
  intros Hp Hn. rewrite length_append in Hn.
  destruct (replace_all_skip re repl p no_match lit (n - String.length lit) after s st Hp)
    as (after' & H).
  exists after', (n - String.length lit)%nat. split; [lia|].
  rewrite <- H. f_equal. lia.
Qed.

(** The first pass puts a named group in the place of every parameter. *)
Lemma pass_first_rewrite (ps : list piece) :
  well_formed ps = true ->
  forall (n : nat) (after : bool),
    (String.length (render ps) < n)%nat ->
    replace_all param_re first_pass n after (render ps) tt = (first_rewrite ps, tt).
Proof.
  induction ps as [|p ps IH]; intros Hwf n after Hn.
  - destruct n; [simpl in Hn; lia|]. reflexivity.
  - destruct p as [s|nm|]; cbn [render first_rewrite well_formed] in *.
    + apply andb_true_iff in Hwf as [Hs Hwf].
      destruct (replace_all_copy param_re first_pass (fun c => negb (Ascii.eqb ":" c))
                  param_token_no_match s (render ps) n after tt) as (a' & n' & Hn' & ->).
      { apply (all_chars_impl plain_char); [apply plain_not_colon|exact Hs]. }
      { exact Hn. }
      rewrite (IH Hwf n' a' Hn'). reflexivity.
    + apply andb_true_iff in Hwf as [Hwf Hr].
      apply andb_true_iff in Hwf as [Hname Hstop].
      apply negb_true_iff in Hstop.
      unfold valid_name in Hname. apply andb_true_iff in Hname as [Hlen Hword].
      destruct nm as [|c v]; [discriminate|].
      assert (Hv : all_chars name_char (String c v) = true)
        by (apply (all_chars_impl is_word); [apply word_name_char|exact Hword]).
      destruct n as [|n]; [lia|]. rewrite append_cons in *. cbn [replace_all].
      rewrite (match_here_param_token c v (render ps) Hv (stops_starts _ Hstop)).
      cbn [nth first_pass tail_of].
      assert (Hlt : (String.length (render ps)
                     <? String.length (String ":" (String c v +:+ render ps)))%nat = true).
      { apply Nat.ltb_lt. simpl. rewrite length_append. lia. }
      rewrite Hlt. rewrite (IH Hr n true).
      * rewrite !append_assoc. reflexivity.
      * simpl in Hn. rewrite length_append in Hn. simpl in Hn. lia.
    + destruct (replace_all_copy param_re first_pass (fun c => negb (Ascii.eqb ":" c))
                  param_token_no_match "**" (render ps) n after tt eq_refl Hn)
        as (a' & n' & Hn' & ->).
      rewrite (IH Hwf n' a' Hn'). reflexivity.
Qed.

Lemma match_here_wildcard_token (rest : string) :
  match_here wildcard_re ("**" +:+ rest) = Some (rest, ["**"]).
Proof.
  unfold match_here, wildcard_re. cbn [expr names NumSubexp List.length].
  rewrite !append_cons, append_nil_l. cbn [exec Ascii.eqb Bool.eqb].
  change (String "*" (String "*" rest)) with ("**" +:+ rest).
  rewrite consumed_app. reflexivity.
Qed.

(** The second pass puts a numbered group in the place of every double
    wildcard; the closure counts them. *)
Lemma pass_second_rewrite (ps : list piece) :
  well_formed ps = true ->
  forall (n : nat) (after : bool) (k : nat),
    (String.length (first_rewrite ps) < n)%nat ->
    replace_all wildcard_re second_pass n after (first_rewrite ps) k =
    (second_rewrite k ps, (k + wildcards ps)%nat).
Proof.
  induction ps as [|p ps IH]; intros Hwf n after k Hn.
  - destruct n; [simpl in Hn; lia|]. cbn. f_equal. lia.
  - destruct p as [s|nm|]; cbn [render first_rewrite second_rewrite wildcards well_formed] in *.
    + apply andb_true_iff in Hwf as [Hs Hwf].
      destruct (replace_all_copy wildcard_re second_pass (fun c => negb (Ascii.eqb "*" c))
                  wildcard_token_no_match s (first_rewrite ps) n after k) as (a' & n' & Hn' & ->).
      { apply (all_chars_impl plain_char); [apply plain_not_star|exact Hs]. }
      { exact Hn. }
      rewrite (IH Hwf n' a' k Hn'). reflexivity.
    + apply andb_true_iff in Hwf as [Hwf Hr].
      apply andb_true_iff in Hwf as [Hname _].
      unfold valid_name in Hname. apply andb_true_iff in Hname as [_ Hword].
      assert (E : forall t, "(?P<" +:+ nm +:+ ">[^/#?]+)" +:+ t =
                            ("(?P<" +:+ nm +:+ ">[^/#?]+)") +:+ t)
        by (intros t; rewrite !append_assoc; reflexivity).
      rewrite !E in *.
      destruct (replace_all_copy wildcard_re second_pass (fun c => negb (Ascii.eqb "*" c))
                  wildcard_token_no_match ("(?P<" +:+ nm +:+ ">[^/#?]+)") (first_rewrite ps)
                  n after k) as (a' & n' & Hn' & ->).
      { rewrite !all_chars_app.
        rewrite (all_chars_impl is_word _ nm word_not_star Hword). reflexivity. }
      { exact Hn. }
      rewrite (IH Hr n' a' k Hn'). reflexivity.
    + destruct n as [|n]; [lia|]. cbn [replace_all].
      rewrite match_here_wildcard_token. cbn [nth second_pass].
      assert (Hlt : (String.length (first_rewrite ps)
                     <? String.length ("**" +:+ first_rewrite ps))%nat = true).
      { apply Nat.ltb_lt. rewrite length_append. simpl. lia. }
      rewrite Hlt. rewrite (IH Hwf n true (S k)).
      * rewrite !append_assoc. f_equal. lia.
      * rewrite length_append in Hn. simpl in Hn. lia.
Qed.

(** ** Lexing and parsing the rewritten pattern *)

Lemma obind_ret {A : Type} (x : outcome A) : obind x (fun a => Parsed a) = x.
Proof. destruct x; reflexivity. Qed.

Lemma obind_obind {A B C : Type} (x : outcome A) (f : A -> outcome B)
    (g : B -> outcome C) :
  obind (obind x f) g = obind x (fun a => obind (f a) g).
Proof. destruct x; reflexivity. Qed.

Lemma lex_cons (m : lexmode) (c : ascii) (s : string) :
  lex m (String c s) =
  obind (step m c) (fun '(ts, m') =>
  obind (lex m' s) (fun rest => Parsed (ts ++ rest))).
Proof. reflexivity. Qed.

Lemma lex_plain (lit s : string) :
  all_chars plain_char lit = true ->
  lex LNormal (lit +:+ s) =
  obind (lex LNormal s) (fun ts => Parsed (toks lit ++ ts)).
Proof.
  intros Hlit. induction lit as [|c lit IH].
  - rewrite append_nil_l. symmetry. apply obind_ret.
  - simpl in Hlit. apply andb_true_iff in Hlit as [Hc Hlit].
    rewrite append_cons, lex_cons. cbn [step].
    rewrite (step_normal_plain c Hc). cbn [obind].
    rewrite (IH Hlit), obind_obind. reflexivity.
Qed.

Lemma lex_name (n : string) :
  forall (acc tail : string),
    all_chars is_word n = true ->
    (0 <? String.length (acc +:+ n))%nat = true ->
    lex (LName acc) (n +:+ String ">" tail) =
    obind (lex LNormal tail) (fun ts => Parsed (TOpen (acc +:+ n) :: ts)).
Proof.
  induction n as [|c n IH]; intros acc tail Hn Hlen.
  - rewrite append_nil_l, lex_cons. rewrite append_nil_r in *.
    cbn [step Ascii.eqb Bool.eqb]. destruct acc; [discriminate|]. reflexivity.
  - simpl in Hn. apply andb_true_iff in Hn as [Hc Hn].
    rewrite append_cons, lex_cons. cbn [step].
    rewrite (word_not_closing c Hc), Hc. cbn [obind].
    rewrite (IH (acc +:+ String c "") tail Hn).
    + rewrite append_assoc, obind_obind. reflexivity.
    + rewrite append_assoc. exact Hlen.
Qed.

Lemma lex_group (lit name_ tail : string) :
  all_chars plain_char lit = true ->
  valid_name name_ = true ->
  lex LNormal (lit +:+ "(?P<" +:+ name_ +:+ String ">" tail) =
  obind (lex LNormal tail) (fun ts => Parsed (toks lit ++ TOpen name_ :: ts)).
Proof.
  intros Hlit Hname. unfold valid_name in Hname.
  apply andb_true_iff in Hname as [Hlen Hword].
  rewrite (lex_plain _ _ Hlit).
  rewrite !append_cons, append_nil_l.
  do 4 (rewrite lex_cons; cbn [step step_normal obind Ascii.eqb Bool.eqb app]).
  rewrite (lex_name name_ "" tail Hword Hlen). rewrite append_nil_l.
  rewrite !obind_obind. reflexivity.
Qed.

Lemma parse_lits (lit : string) :
  forall (ts : list token) (cur : frame) (stack : list frame) (ns : list string),
    parse (toks lit ++ ts) cur stack ns = parse ts (push_lits lit cur) stack ns.
Proof.
  induction lit as [|c lit IH]; intros ts cur stack ns; [reflexivity|].
  cbn [toks app parse push_lits]. apply IH.
Qed.

Lemma push_lits_fields (lit : string) :
  forall (f : frame),
    fopen (push_lits lit f) = fopen f
    /\ falts (push_lits lit f) = falts f
    /\ fitems (push_lits lit f) = rev (lits lit) ++ fitems f.
Proof.
  induction lit as [|c lit IH]; intros f; [auto|].
  cbn [push_lits lits rev]. destruct (IH (push_item (Lit c) false f)) as (-> & -> & ->).
  cbn [push_item fopen falts fitems]. rewrite <- app_assoc. auto.
Qed.

Lemma digits_word (d : Decimal.uint) :
  all_chars is_word (NilEmpty.string_of_uint d) = true.
Proof. induction d; simpl; auto. Qed.

Lemma format_nat_word (n : nat) : all_chars is_word (format_nat n) = true.
Proof.
  unfold format_nat, NilZero.string_of_uint.
  destruct (Nat.to_uint n) eqn:E; try reflexivity; rewrite <- E; apply digits_word.
Qed.

Lemma wildcard_name_valid (k : nat) : valid_name ("_" +:+ format_nat k) = true.
Proof.
  unfold valid_name. rewrite append_cons, append_nil_l. cbn [String.length Nat.ltb Nat.leb all_chars andb].
  rewrite format_nat_word. reflexivity.
Qed.

Lemma lex_segment_class (tail : string) :
  lex LNormal ("[^/#?]+)" +:+ tail) =
  obind (lex LNormal tail)
    (fun ts => Parsed ([TSet true ["/"; "#"; "?"]%char; TPlus; TClose] ++ ts)).
Proof.
  rewrite !append_cons, append_nil_l. simpl.
  destruct (lex LNormal tail); reflexivity.
Qed.

Lemma lex_wildcard_class (tail : string) :
  lex LNormal ("[^#?]*)" +:+ tail) =
  obind (lex LNormal tail)
    (fun ts => Parsed ([TSet true ["#"; "?"]%char; TStar; TClose] ++ ts)).
Proof.
  rewrite !append_cons, append_nil_l. simpl.
  destruct (lex LNormal tail); reflexivity.
Qed.

(** The tokens of the rewritten pattern. *)
Lemma lex_pieces (ps : list piece) :
  well_formed ps = true ->
  forall (k : nat) (tail : string),
    lex LNormal (second_rewrite k ps +:+ tail) =
    obind (lex LNormal tail) (fun ts => Parsed (piece_tokens k ps ++ ts)).
Proof.
  induction ps as [|p ps IH]; intros Hwf k tail.
  - rewrite append_nil_l. symmetry. apply obind_ret.
  - destruct p as [s|nm|]; cbn [second_rewrite piece_tokens well_formed] in *.
    + apply andb_true_iff in Hwf as [Hs Hwf].
      rewrite append_assoc, (lex_plain _ _ Hs), (IH Hwf), obind_obind.
      destruct (lex LNormal tail); cbn [obind]; [|reflexivity|reflexivity].
      rewrite app_assoc. reflexivity.
    + apply andb_true_iff in Hwf as [Hwf Hr].
      apply andb_true_iff in Hwf as [Hname _].
      rewrite !append_assoc.
      change (">[^/#?]+)" +:+ second_rewrite k ps +:+ tail)
        with (String ">" ("[^/#?]+)" +:+ second_rewrite k ps +:+ tail)).
      pose proof (lex_group "" nm ("[^/#?]+)" +:+ second_rewrite k ps +:+ tail) eq_refl Hname) as H.
      rewrite append_nil_l in H. rewrite H. clear H.
      rewrite lex_segment_class, (IH Hr), !obind_obind.
      destruct (lex LNormal tail); reflexivity.
    + rewrite !append_assoc.
      change ("(?P<_" +:+ format_nat (S k) +:+ ">[^#?]*)" +:+ second_rewrite (S k) ps +:+ tail)
        with ("(?P<" +:+ ("_" +:+ format_nat (S k)) +:+
              String ">" ("[^#?]*)" +:+ second_rewrite (S k) ps +:+ tail)).
      pose proof (lex_group "" ("_" +:+ format_nat (S k))
                    ("[^#?]*)" +:+ second_rewrite (S k) ps +:+ tail) eq_refl
                    (wildcard_name_valid (S k))) as H.
      rewrite append_nil_l in H. rewrite H. clear H.
      rewrite lex_wildcard_class, (IH Hwf), !obind_obind.
      destruct (lex LNormal tail); reflexivity.
Qed.

(** The parser reads them into the frame of the pieces; every token opens
    and closes one capture group. *)
Lemma parse_pieces (ps : list piece) :
  forall (k : nat) (ts : list token) (f : frame) (stack : list frame)
         (ns : list string),
    parse (piece_tokens k ps ++ ts) f stack ns =
    parse ts (push_pieces (S (List.length ns)) ps f) stack (ns ++ group_names k ps).
Proof.
  induction ps as [|p ps IH]; intros k ts f stack ns.
  - cbn. rewrite app_nil_r. reflexivity.
  - destruct p as [s|nm|]; cbn [piece_tokens push_pieces group_names].
    + rewrite <- app_assoc, parse_lits. apply IH.
    + cbn [app parse new_frame push_item repeat fitems frepeated nullable andb obind
           fopen falts close_frame alt_all cat_all rev].
      rewrite IH, length_app, <- app_assoc. cbn [List.length app].
      rewrite Nat.add_1_r. reflexivity.
    + cbn [app parse new_frame push_item repeat fitems frepeated nullable andb obind
           fopen falts close_frame alt_all cat_all rev].
      rewrite IH, length_app, <- app_assoc. cbn [List.length app].
      rewrite Nat.add_1_r. reflexivity.
Qed.

Lemma push_pieces_fields (ps : list piece) :
  forall (i : nat) (f : frame),
    fopen (push_pieces i ps f) = fopen f
    /\ falts (push_pieces i ps f) = falts f
    /\ fitems (push_pieces i ps f) = rev (piece_items i ps) ++ fitems f.
Proof.
  induction ps as [|p ps IH]; intros i f; [auto|].
  destruct p as [s|nm|]; cbn [push_pieces piece_items].
  - destruct (IH i (push_lits s f)) as (-> & -> & ->).
    destruct (push_lits_fields s f) as (-> & -> & ->).
    rewrite rev_app_distr, <- app_assoc. auto.
  - destruct (IH (S i) (push_item (Capture i segment_run) false f)) as (-> & -> & ->).
    cbn [push_item fopen falts fitems rev]. rewrite <- app_assoc. auto.
  - destruct (IH (S i) (push_item (Capture i wildcard_run) false f)) as (-> & -> & ->).
    cbn [push_item fopen falts fitems rev]. rewrite <- app_assoc. auto.
Qed.

Lemma Compile_pieces (ps : list piece) :
  well_formed ps = true ->
  Compile (second_rewrite 0 ps +:+ "\/?") =
  Parsed {| expr := pieces_expr ps; names := group_names 0 ps |}.
Proof.
  intros Hwf. unfold Compile. rewrite (lex_pieces ps Hwf 0 "\/?").
  change (lex LNormal "\/?") with (Parsed [TLit "/"; TQuest]). cbn [obind].
  rewrite parse_pieces.
  destruct (push_pieces_fields ps 1 (new_frame OBase)) as (Ho & Ha & Hi).
  cbn [List.length] in *.
  remember (push_pieces 1 ps (new_frame OBase)) as f eqn:Ef. clear Ef.
  cbn [new_frame fopen falts fitems] in Ho, Ha, Hi. rewrite app_nil_r in Hi.
  cbn [app parse push_item repeat fitems frepeated obind andb fopen falts].
  unfold close_frame. cbn [fopen falts fitems]. rewrite Ho, Ha, Hi.
  cbn [app alt_all rev]. rewrite rev_involutive. reflexivity.
Qed.

(** What [newRoute] compiles a well-formed pattern to. *)
Lemma newRoute_pieces (m : string) (ps : list piece) (hs : list Handler) :
  well_formed ps = true ->
  newRoute m (render ps) hs =
  Ok {| method := m;
        regex := {| expr := pieces_expr ps; names := group_names 0 ps |};
        handlers := hs;
        pattern := render ps;
        name := "" |}.
Proof.
  intros Hwf. unfold newRoute.
  rewrite MustCompile_param_token. cbn [rbind].
  unfold ReplaceAllStringFunc.
  change (fun (_ : unit) (m0 : string) => ("(?P<" +:+ tail_of m0 +:+ ">[^/#?]+)", tt))
    with first_pass.
  rewrite (pass_first_rewrite ps Hwf) by lia. cbn [fst].
  rewrite MustCompile_wildcard_token. cbn [rbind].
  change (fun (index : nat) (_ : string) =>
            let index0 := S index in
            ("(?P<_" +:+ format_nat index0 +:+ ">[^#?]*)", index0))
    with second_pass.
  rewrite (pass_second_rewrite ps Hwf) by lia. cbn [fst].
  unfold MustCompile. rewrite (Compile_pieces ps Hwf). reflexivity.
Qed.

(** ** What the compiled pattern matches *)

Lemma drop_slash_empty (rest : string) :
  drop_slash rest = "" -> rest = "" \/ rest = "/".
Proof.
  destruct rest as [|c r]; [auto|].
  destruct (Ascii.eqb_spec c "/") as [->|Hc].
  - cbn. intros ->. auto.
  - rewrite drop_slash_other by exact Hc. discriminate.
Qed.

Lemma Match_iff (rt : route) (req path : string) (ps : Params) :
  Match rt req path = (true, ps) <->
  method_matches (method rt) req
  /\ exists cs, full_match (regex rt) path cs
                /\ ps = named_captures (regex rt) cs.
Proof.
  split.
  - intros H. unfold Match in H.
    destruct (MatchMethod rt req) eqn:Hm; [|discriminate]. cbn [negb] in H.
    destruct (_ && _) eqn:Hw; [|discriminate].
    apply whole_path_match in Hw. destruct Hw as (cs & Hh & Hcs).
    rewrite Hcs in H. injection H as <-.
    split; [apply MatchMethod_spec, Hm|]. exists cs. split; [exact Hh|].
    apply collect_named_captures. apply match_here_shape in Hh. tauto.
  - intros (Hm & cs & Hf & ->). apply Match_true; assumption.
Qed.

Lemma MatchMethod_same (rt : route) : MatchMethod rt (method rt) = true.
Proof.
  unfold MatchMethod. rewrite String.eqb_refl, orb_true_r. reflexivity.
Qed.

(** A run of a character class matched some prefix made of characters of
    the class, and went on with the continuation after it. *)
Lemma iterate_class_sound (neg : bool) (items_ : list ascii) :
  forall (n : nat) (s : string) (cs : captures) (k : kont) (x : string * captures),
    iterate (exec (Class neg items_)) n s cs k = Some x ->
    exists v rest, all_chars (class_matches neg items_) v = true
                   /\ s = v +:+ rest /\ k rest cs = Some x.
Proof.
  induction n as [|n IH]; intros s cs k x H.
  - exists "", s. auto.
  - cbn [iterate] in H.
    destruct s as [|c s].
    + cbn [exec] in H. exists "", "". auto.
    + rewrite exec_class_cons in H.
      destruct (class_matches neg items_ c) eqn:Hc.
      * destruct (String.length s <? String.length (String c s))%nat.
        -- destruct (iterate (exec (Class neg items_)) n s cs k) as [y|] eqn:Hi.
           ++ injection H as <-. apply IH in Hi. destruct Hi as (v & rest & Hv & -> & Hk).
              exists (String c v), rest. cbn [all_chars]. rewrite Hc, Hv. auto.
           ++ exists "", (String c s). auto.
        -- exists "", (String c s). auto.
      * exists "", (String c s). auto.
Qed.

Lemma exec_plus_class_sound (neg : bool) (items_ : list ascii) (s : string)
    (cs : captures) (k : kont) (x : string * captures) :
  exec (Plus (Class neg items_)) s cs k = Some x ->
  exists v rest, (0 <? String.length v)%nat = true
                 /\ all_chars (class_matches neg items_) v = true
                 /\ s = v +:+ rest /\ k rest cs = Some x.
Proof.
  intros H.
  change (exec (Plus (Class neg items_)) s cs k)
    with (exec (Class neg items_) s cs
            (fun s' cs' => iterate (exec (Class neg items_)) (String.length s') s' cs' k))
    in H.
  destruct s as [|c s]; [discriminate|].
  rewrite exec_class_cons in H.
  destruct (class_matches neg items_ c) eqn:Hc; [|discriminate].
  apply iterate_class_sound in H. destruct H as (v & rest & Hv & -> & Hk).
  exists (String c v), rest. cbn [all_chars String.length]. rewrite Hc, Hv. auto.
Qed.

Lemma exec_star_class_sound (neg : bool) (items_ : list ascii) (s : string)
    (cs : captures) (k : kont) (x : string * captures) :
  exec (Star (Class neg items_)) s cs k = Some x ->
  exists v rest, all_chars (class_matches neg items_) v = true
                 /\ s = v +:+ rest /\ k rest cs = Some x.
Proof. apply iterate_class_sound. Qed.

Lemma exec_lits_any (lit : string) (rs : list Regexp.regex) :
  rs <> [] ->
  forall (s : string) (cs : captures) (k : kont),
    exec (cat_all (lits lit ++ rs)) s cs k =
    match strip_prefix lit s with
    | Some s' => exec (cat_all rs) s' cs k
    | None => None
    end.
Proof.
  intros Hrs. destruct rs as [|r rs]; [congruence|]. apply exec_lits.
Qed.

Lemma exec_capture (i : nat) (r : Regexp.regex) (s : string) (cs : captures)
    (k : kont) :
  exec (Capture i r) s cs k =
  exec r s cs (fun s' cs' => k s' (<[i := consumed s s']> cs')).
Proof. reflexivity. Qed.

Lemma exec_cat (r1 r2 : Regexp.regex) (s : string) (cs : captures) (k : kont) :
  exec (Cat r1 r2) s cs k = exec r1 s cs (fun s' cs' => exec r2 s' cs' k).
Proof. reflexivity. Qed.

Lemma items_tail_nonempty (i : nat) (ps : list piece) (tail : list Regexp.regex) :
  tail <> [] -> piece_items i ps ++ tail <> [].
Proof. destruct (piece_items i ps); [auto|discriminate]. Qed.

(** Whatever the matcher answers on the expression of the pieces, it found
    a path of the pattern in front of the subject. *)
Lemma exec_pieces_sound (ps : list piece) (tail : list Regexp.regex) :
  tail <> [] ->
  forall (i : nat) (s : string) (cs : captures) (k : kont) (x : string * captures),
    exec (cat_all (piece_items i ps ++ tail)) s cs k = Some x ->
    exists vs text rest,
      path_of ps vs = Some text
      /\ s = text +:+ rest
      /\ exec (cat_all tail) rest (store_groups i vs cs) k = Some x.
Proof.
  intros Htail. induction ps as [|p ps IH]; intros i s cs k x H.
  - exists [], "", s. auto.
  - destruct p as [lit|nm|]; cbn [piece_items] in H.
    + rewrite <- app_assoc, exec_lits_any in H by (apply items_tail_nonempty, Htail).
      destruct (strip_prefix lit s) as [s'|] eqn:Hs; [|discriminate].
      apply strip_prefix_Some in Hs. subst s.
      apply IH in H. destruct H as (vs & text & rest & Hi & -> & Hk).
      exists vs, (lit +:+ text), rest. cbn [path_of]. rewrite Hi.
      rewrite append_assoc. auto.
    + cbn [app] in H.
      rewrite cat_all_cons, exec_cat, exec_capture in H
        by (apply items_tail_nonempty, Htail).
      apply exec_plus_class_sound in H.
      destruct H as (v & s' & Hlen & Hv & -> & H). rewrite consumed_app in H.
      apply IH in H. destruct H as (vs & text & rest & Hi & -> & Hk).
      exists (v :: vs), (v +:+ text), rest. cbn [path_of store_groups].
      change (all_chars segment_char v) with
        (all_chars (class_matches true ["/"; "#"; "?"]%char) v).
      rewrite Hlen, Hv, Hi. cbn [andb option_map]. rewrite append_assoc. auto.
    + cbn [app] in H.
      rewrite cat_all_cons, exec_cat, exec_capture in H
        by (apply items_tail_nonempty, Htail).
      apply exec_star_class_sound in H.
      destruct H as (v & s' & Hv & -> & H). rewrite consumed_app in H.
      apply IH in H. destruct H as (vs & text & rest & Hi & -> & Hk).
      exists (v :: vs), (v +:+ text), rest. cbn [path_of store_groups].
      change (all_chars wildcard_char v) with
        (all_chars (class_matches true ["#"; "?"]%char) v).
      rewrite Hv, Hi. cbn [option_map]. rewrite append_assoc. auto.
Qed.

(** The registers after a match, when they were all unset before. *)
Lemma store_fresh (vs : list string) :
  forall (pre : list string),
    store_groups (List.length pre) vs (pre ++ replicate (List.length vs) "") = pre ++ vs.
Proof.
  induction vs as [|v vs IH]; intros pre; [reflexivity|].
  cbn [store_groups List.length replicate].
  rewrite insert_app_r_alt by lia. rewrite Nat.sub_diag. cbn [insert list_insert].
  specialize (IH (pre ++ [v])). rewrite length_app, <- !app_assoc in IH.
  cbn [List.length app] in IH. rewrite Nat.add_1_r in IH. exact IH.
Qed.

Lemma path_of_length (ps : list piece) :
  forall (k : nat) (vs : list string) (text : string),
    path_of ps vs = Some text ->
    List.length (group_names k ps) = List.length vs.
Proof.
  induction ps as [|p ps IH]; intros k vs text H.
  - destruct vs; [reflexivity|discriminate].
  - destruct p as [lit|nm|]; cbn [path_of group_names] in *.
    + destruct (path_of ps vs) eqn:E; [|discriminate]. apply (IH k _ _ E).
    + destruct vs as [|v vs]; [discriminate|].
      destruct (_ && _); [|discriminate].
      destruct (path_of ps vs) eqn:E; [|discriminate].
      cbn [List.length]. f_equal. apply (IH k _ _ E).
    + destruct vs as [|v vs]; [discriminate|].
      destruct (all_chars _ _); [|discriminate].
      destruct (path_of ps vs) eqn:E; [|discriminate].
      cbn [List.length]. f_equal. apply (IH (S k) _ _ E).
Qed.

Lemma group_names_nonempty (ps : list piece) :
  well_formed ps = true ->
  forall (k : nat),
    Forall (fun n => (0 <? String.length n)%nat = true) (group_names k ps).
Proof.
  induction ps as [|p ps IH]; intros Hwf k; [constructor|].
  destruct p as [lit|nm|]; cbn [well_formed group_names] in *.
  - apply andb_true_iff in Hwf as [_ Hwf]. apply IH, Hwf.
  - apply andb_true_iff in Hwf as [Hwf Hr].
    apply andb_true_iff in Hwf as [Hname _].
    unfold valid_name in Hname. apply andb_true_iff in Hname as [Hlen _].
    constructor; [exact Hlen|apply IH, Hr].
  - constructor; [reflexivity|apply IH, Hwf].
Qed.

Lemma filter_named (ns vs : list string) :
  Forall (fun n => (0 <? String.length n)%nat = true) ns ->
  List.filter (fun p : string * string => (0 <? String.length (fst p))%nat)
    (combine ns vs) = combine ns vs.
Proof.
  intros H. revert vs. induction H as [|n ns Hn _ IH]; intros vs; [reflexivity|].
  destruct vs as [|v vs]; [reflexivity|]. cbn [combine List.filter fst].
  rewrite Hn, IH. reflexivity.
Qed.

Lemma named_captures_pieces (ps : list piece) (path : string) (vs : list string) :
  well_formed ps = true ->
  named_captures {| expr := pieces_expr ps; names := group_names 0 ps |} (path :: vs)
  = bindings ps vs.
Proof.
  intros Hwf. unfold named_captures, bindings, SubexpNames. cbn [names combine List.filter fst].
  cbn [String.length Nat.ltb Nat.leb].
  rewrite (filter_named _ _ (group_names_nonempty ps Hwf 0)). reflexivity.
Qed.

Lemma match_here_pieces_sound (ps : list piece) (path : string) (cs : list string) :
  match_here {| expr := pieces_expr ps; names := group_names 0 ps |} path
    = Some ("", cs) ->
  exists vs text,
    path_of ps vs = Some text
    /\ (path = text \/ path = text +:+ "/")
    /\ cs = path :: vs.
Proof.
  unfold match_here, pieces_expr. cbn [expr names NumSubexp]. intros H.
  apply exec_pieces_sound in H; [|discriminate].
  destruct H as (vs & text & rest & Hi & Hp & H).
  cbn [cat_all] in H. rewrite exec_optional_slash in H.
  injection H as Hd Hcs. rewrite Hd, consumed_all in Hcs.
  exists vs, text. split; [exact Hi|]. split.
  - apply drop_slash_empty in Hd. destruct Hd as [->| ->]; [left|right]; [|exact Hp].
    rewrite append_nil_r in Hp. exact Hp.
  - unfold NumSubexp in Hcs. cbn [names] in Hcs.
    rewrite (path_of_length ps 0 vs text Hi) in Hcs.
    pose proof (store_fresh vs [""]) as Hst. cbn [List.length app] in Hst.
    rewrite Hst in Hcs. subst cs. reflexivity.
Qed.

Lemma plain_stop_segment (c : ascii) :
  plain_char c = true -> name_char c = false -> segment_char c = false.
Proof.
  destruct c as [[] [] [] [] [] [] [] []]; intros H1 H2;
    try reflexivity; try discriminate H1; discriminate H2.
Qed.

(** What follows a parameter in a path of the pattern does not go on with
    a character of a segment. *)
Lemma stops_segment_next (r : list piece) :
  well_formed r = true ->
  starts_name (render r) = false ->
  forall (vs : list string) (t rest : string),
    path_of r vs = Some t ->
    stops segment_char rest ->
    stops segment_char (t +:+ rest).
Proof.
  induction r as [|p r IH]; intros Hwf Hs vs t rest Hi Hrest.
  - destruct vs; [|discriminate]. injection Hi as <-. exact Hrest.
  - destruct p as [lit|nm|]; cbn [well_formed render path_of] in *.
    + apply andb_true_iff in Hwf as [Hlit Hwf].
      destruct (path_of r vs) as [t'|] eqn:E; [|discriminate]. injection Hi as <-.
      destruct lit as [|c lit].
      * rewrite append_nil_l in *. apply (IH Hwf Hs vs); assumption.
      * rewrite !append_cons in *. cbn [starts_name all_chars stops] in *.
        apply andb_true_iff in Hlit as [Hc _]. apply plain_stop_segment; assumption.
    + rewrite append_cons in Hs. cbn in Hs. discriminate.
    + rewrite append_cons in Hs. cbn in Hs. discriminate.
Qed.

(** When the only double wildcard is last, the greedy runs take exactly
    the texts of the tokens: a path of the pattern is matched as such. *)
Lemma exec_pieces_complete (ps : list piece) (tail : list Regexp.regex) :
  tail <> [] ->
  well_formed ps = true ->
  wildcard_last ps = true ->
  forall (i : nat) (vs : list string) (text rest : string) (cs : captures)
         (k : kont) (x : string * captures),
    path_of ps vs = Some text ->
    stops segment_char rest ->
    (wildcards ps = 0%nat \/ stops wildcard_char rest) ->
    exec (cat_all tail) rest (store_groups i vs cs) k = Some x ->
    exec (cat_all (piece_items i ps ++ tail)) (text +:+ rest) cs k = Some x.
Proof.
  intros Htail. induction ps as [|p ps IH]; intros Hwf Ht i vs text rest cs k x Hi Hseg Hw Hk.
  - destruct vs; [|discriminate]. injection Hi as <-. exact Hk.
  - destruct p as [lit|nm|]; cbn [well_formed wildcard_last path_of piece_items wildcards] in *.
    + apply andb_true_iff in Hwf as [_ Hwf].
      destruct (path_of ps vs) as [t'|] eqn:E; [|discriminate]. injection Hi as <-.
      rewrite <- app_assoc, exec_lits_any by (apply items_tail_nonempty, Htail).
      rewrite append_assoc, strip_prefix_app.
      apply (IH Hwf Ht i vs); auto.
    + apply andb_true_iff in Hwf as [Hwf Hr].
      apply andb_true_iff in Hwf as [_ Hstop]. apply negb_true_iff in Hstop.
      destruct vs as [|v vs]; [discriminate|].
      destruct ((0 <? String.length v)%nat && all_chars segment_char v) eqn:Hv;
        [|discriminate].
      apply andb_true_iff in Hv as [Hlen Hv].
      destruct (path_of ps vs) as [t'|] eqn:E; [|discriminate]. injection Hi as <-.
      destruct v as [|c v]; [discriminate|].
      cbn [app]. rewrite cat_all_cons, exec_cat, exec_capture
        by (apply items_tail_nonempty, Htail).
      rewrite append_assoc.
      apply exec_plus_class.
      * exact Hv.
      * apply (stops_segment_next ps Hr Hstop vs); assumption.
      * rewrite consumed_app. apply (IH Hr Ht (S i) vs); auto.
    + destruct ps as [|p' ps']; [|discriminate].
      destruct vs as [|v vs]; [discriminate|].
      destruct (all_chars wildcard_char v) eqn:Hv; [|discriminate].
      destruct vs; [|discriminate]. injection Hi as <-.
      cbn [app piece_items]. rewrite cat_all_cons, exec_cat, exec_capture by exact Htail.
      rewrite append_nil_r.
      apply exec_star_class.
      * exact Hv.
      * destruct Hw as [Hw|Hw]; [discriminate|exact Hw].
      * rewrite consumed_app. exact Hk.
Qed.

Lemma match_here_pieces_complete (ps : list piece) (vs : list string) (text : string) :
  well_formed ps = true ->
  wildcard_last ps = true ->
  path_of ps vs = Some text ->
  let re := {| expr := pieces_expr ps; names := group_names 0 ps |} in
  match_here re text = Some ("", text :: vs)
  /\ (wildcards ps = 0%nat ->
      match_here re (text +:+ "/") = Some ("", (text +:+ "/") :: vs)).
Proof.
  intros Hwf Ht Hi re.
  assert (Hgen : forall rest,
            stops segment_char rest ->
            (wildcards ps = 0%nat \/ stops wildcard_char rest) ->
            drop_slash rest = "" ->
            match_here re (text +:+ rest) = Some ("", (text +:+ rest) :: vs)).
  { intros rest Hseg Hw Hd. unfold match_here, re, pieces_expr.
    cbn [expr names]. unfold NumSubexp. cbn [names].
    apply (exec_pieces_complete ps [Quest (Lit "/")] ltac:(discriminate) Hwf Ht 1 vs);
      [exact Hi|exact Hseg|exact Hw|].
    cbn [cat_all]. rewrite exec_optional_slash, Hd, consumed_all.
    rewrite (path_of_length ps 0 vs text Hi).
    pose proof (store_fresh vs [""]) as Hst. cbn [List.length app] in Hst.
    cbn [replicate]. rewrite Hst. reflexivity. }
  split.
  - pose proof (Hgen "" I (or_intror I) eq_refl) as H.
    rewrite append_nil_r in H. exact H.
  - intros Hw. apply Hgen; simpl; auto.
Qed.

(** What the route compiled from a well-formed pattern matches. *)
Lemma pieces_route_matches (m : string) (ps : list piece) (hs : list Handler) :
  well_formed ps = true ->
  exists rt, newRoute m (render ps) hs = Ok rt
    /\ (forall req path params,
          Match rt req path = (true, params) ->
          method_matches m req
          /\ exists vs text, path_of ps vs = Some text
                             /\ (path = text \/ path = text +:+ "/")
                             /\ params = bindings ps vs)
    /\ (wildcard_last ps = true ->
        forall req vs text,
          method_matches m req ->
          path_of ps vs = Some text ->
          Match rt req text = (true, bindings ps vs)
          /\ (wildcards ps = 0%nat ->
              Match rt req (text +:+ "/") = (true, bindings ps vs))).
Proof.
  intros Hwf. eexists. split; [apply newRoute_pieces; exact Hwf|]. split.
  - intros req path params H. apply Match_iff in H. cbn [method regex] in H.
    destruct H as (Hm & cs & Hf & ->). split; [exact Hm|].
    apply match_here_pieces_sound in Hf. destruct Hf as (vs & text & Hi & Hp & ->).
    exists vs, text. rewrite (named_captures_pieces ps path vs Hwf). auto.
  - intros Ht req vs text Hm Hi.
    destruct (match_here_pieces_complete ps vs text Hwf Ht Hi) as [H1 H2].
    split.
    + rewrite <- (named_captures_pieces ps text vs Hwf).
      apply Match_true; [exact Hm|exact H1].
    + intros Hw. rewrite <- (named_captures_pieces ps (text +:+ "/") vs Hwf).
      apply Match_true; [exact Hm|exact (H2 Hw)].
Qed.

(** C2: a [:name] token matches one or more characters other than [/],
    [#] and [?] and binds them to [name]; a [**] token matches zero or more
    characters other than [#] and [?], across segments; the match must
    consume the whole path, one trailing slash being tolerated.  For every
    pattern made of plain text, names and double wildcards: the compiled
    route matches only paths of the pattern ([path_of]), with or without
    one more slash, and binds every name to the text of its token; and
    when the only double wildcard is last it matches every such path (a
    double wildcard itself takes a slash at the end).  In particular
    [/user/:id] matches [/user/42] binding [id] to [42] and does not match
    [/user/42/extra], and [/files/**] matches [/files/a/b/c] capturing
    [a/b/c]. *)
Theorem pattern_tokens (m : string) (ps : list piece) (hs : list Handler) :
  well_formed ps = true ->
  (exists rt, newRoute m (render ps) hs = Ok rt
     /\ (forall req path params,
           Match rt req path = (true, params) ->
           method_matches m req
           /\ exists vs text, path_of ps vs = Some text
                              /\ (path = text \/ path = text +:+ "/")
                              /\ params = bindings ps vs)
     /\ (wildcard_last ps = true ->
         forall req vs text,
           method_matches m req ->
           path_of ps vs = Some text ->
           Match rt req text = (true, bindings ps vs)
           /\ (wildcards ps = 0%nat ->
               Match rt req (text +:+ "/") = (true, bindings ps vs))))
  /\ (exists user files,
        newRoute m "/user/:id" hs = Ok user
        /\ newRoute m "/files/**" hs = Ok files
        /\ Match user m "/user/42" = (true, {[ "id" := "42" ]})
        /\ fst (Match user m "/user/42/extra") = false
        /\ Match files m "/files/a/b/c" = (true, {[ "_1" := "a/b/c" ]})).
Proof.
  intros Hwf. split; [apply pieces_route_matches; exact Hwf|].
  eexists. eexists.
  split; [exact (newRoute_pieces m [Text "/user/"; Param "id"] hs eq_refl)|].
  split; [exact (newRoute_pieces m [Text "/files/"; Wild] hs eq_refl)|].
  unfold Match. rewrite !MatchMethod_same. repeat split; reflexivity.
Qed.

Lemma pattern_tokens_witness :
  let ps := [Text "/users/"; Param "id"; Text "/files/"; Wild] in
  well_formed ps = true
  /\ render ps = "/users/:id/files/**"
  /\ exists rt, newRoute "GET" (render ps) [] = Ok rt
       /\ Match rt "HEAD" "/users/42/files/a/b.txt"
          = (true, {[ "id" := "42"; "_1" := "a/b.txt" ]})
       /\ (forall path params,
             Match rt "GET" path = (true, params) ->
             exists vs text, path_of ps vs = Some text
                             /\ (path = text \/ path = text +:+ "/")
                             /\ params = bindings ps vs).
Proof.
  intros ps.
  assert (Hwf : well_formed ps = true) by reflexivity.
  destruct (pattern_tokens "GET" ps [] Hwf) as [(rt & Hrt & Hsound & Hcomplete) _].
  split; [exact Hwf|]. split; [reflexivity|].
  exists rt. split; [exact Hrt|]. split.
  - destruct (Hcomplete eq_refl "HEAD" ["42"; "a/b.txt"] "/users/42/files/a/b.txt")
      as [H _].
    + right. right. split; reflexivity.
    + reflexivity.
    + rewrite H. apply f_equal. vm_compute. reflexivity.
  - intros path params H. apply (Hsound "GET" path params H).
Defined.

Lemma newRoute_user (m : string) (hs : list Handler) :
  newRoute m "/user/:id" hs = Ok (user_route m hs).
Proof. exact (newRoute_pieces m [Text "/user/"; Param "id"] hs eq_refl). Qed.

End PatternFacts.

(** * Reverse routing *)

Module ReverseFacts.
Import Regexp Matcher Handlers Router Spec MatcherFacts PatternFacts.

Lemma fill_nil (s : string) : fill false s [] = s.
Proof.
  induction s as [|c s IH]; [reflexivity|]. cbn [fill andb]. rewrite IH. reflexivity.
Qed.

Lemma fill_stops (s : string) (values : list string) :
  stops name_char s -> fill true s values = fill false s values.
Proof.
  intros H. destruct s as [|c s]; [reflexivity|].
  simpl in H. cbn [fill]. rewrite H. reflexivity.
Qed.

Lemma fill_run (v rest : string) (values : list string) :
  all_chars name_char v = true ->
  stops name_char rest ->
  fill true (v +:+ rest) values = fill false rest values.
Proof.
  intros Hv Hr. induction v as [|c v IH].
  - rewrite append_nil_l. apply fill_stops, Hr.
  - simpl in Hv. apply andb_true_iff in Hv as [Hc Hv].
    rewrite append_cons. cbn [fill]. rewrite Hc. cbn [andb]. apply IH, Hv.
Qed.

Lemma skipn_nth (i : nat) (args : list string) :
  (i < List.length args)%nat ->
  skipn i args = nth i args "" :: skipn (S i) args.
Proof.
  revert i. induction args as [|a args IH]; intros i Hi; simpl in Hi; [lia|].
  destruct i as [|i]; [reflexivity|]. simpl. apply IH. lia.
Qed.

(** A colon that no token character follows is not a token. *)
Lemma param_token_bare_colon (s : string) :
  stops name_char s -> match_here param_re (String ":" s) = None.
Proof.
  intros H. unfold match_here, param_re. cbn [expr names NumSubexp List.length].
  change (exec (Cat ?a ?b) ?x ?cs ?k) with (exec a x cs (fun s' cs' => exec b s' cs' k)).
  cbn [exec Ascii.eqb Bool.eqb]. apply exec_plus_class_stops. exact H.
Qed.

(** [ReplaceAllStringFunc] with the token expression and the closure of
    [URLWith] substitutes the tokens left to right. *)
Lemma replace_fill (args : list string) :
  forall (n : nat) (s : string) (after : bool) (i : nat),
    (String.length s < n)%nat ->
    fst (replace_all param_re (pick args) n after s i) =
    fill false s (skipn i args).
Proof.
  induction n as [|n IH]; intros s after i Hn; [lia|].
  destruct s as [|c s]; [reflexivity|].
  simpl in Hn.
  destruct (Ascii.eqb_spec ":" c) as [<-|Hc].
  - destruct (span_spec name_char s) as (Hs & Hv & Hr).
    destruct (span name_char s) as [v rest]. cbn [fst snd] in *.
    destruct v as [|c' v].
    + (* a colon alone *)
      rewrite append_nil_l in Hs. subst rest.
      cbn [replace_all]. rewrite (param_token_bare_colon s Hr).
      specialize (IH s false i ltac:(lia)).
      destruct (replace_all param_re (pick args) n false s i) as [t j].
      cbn [fst] in *. rewrite IH.
      assert (Hstart : starts_name s = false)
        by (destruct s; [reflexivity|exact Hr]).
      cbn [fill andb Ascii.eqb Bool.eqb]. rewrite Hstart.
      destruct (skipn i args); reflexivity.
    + (* a token *)
      cbn [replace_all]. rewrite Hs at 1.
      rewrite (match_here_param_token c' v rest Hv Hr).
      assert (Hlen : (String.length rest < String.length (String ":" s))%nat).
      { rewrite Hs. cbn [String.length]. rewrite length_append. simpl. lia. }
      apply Nat.ltb_lt in Hlen as Hlt. rewrite Hlt. cbn [nth].
      unfold pick at 1.
      specialize (IH rest true (S i) ltac:(simpl in Hlen; lia)).
      destruct (replace_all param_re (pick args) n true rest (S i)) as [t j].
      cbn [fst] in *. rewrite IH.
      assert (Hstart : starts_name s = true).
      { rewrite Hs. simpl in Hv. apply andb_true_iff in Hv as [Hc' _]. exact Hc'. }
      destruct (Nat.ltb_spec i (List.length args)) as [Hi|Hi].
      * rewrite (skipn_nth i args Hi).
        cbn [fill andb Ascii.eqb Bool.eqb]. rewrite Hstart.
        rewrite Hs at 1. rewrite (fill_run _ _ _ Hv Hr). reflexivity.
      * rewrite !skipn_all2 by lia. rewrite !fill_nil.
        rewrite Hs. reflexivity.
  - cbn [replace_all]. rewrite param_token_no_match
      by (apply negb_true_iff, Ascii.eqb_neq; exact Hc).
    specialize (IH s false i ltac:(lia)).
    destruct (replace_all param_re (pick args) n false s i) as [t j].
    cbn [fst] in *. rewrite IH.
    assert (Hne : Ascii.eqb c ":" = false)
      by (apply Ascii.eqb_neq; congruence).
    cbn [fill andb]. rewrite Hne. destruct (skipn i args); reflexivity.
Qed.

(** [URLWith] substitutes the tokens of the pattern by the values. *)
Lemma URLWith_fill (rt : route) (args : list string) :
  URLWith rt args = Ok (fill false (pattern rt) args).
Proof.
  unfold URLWith. destruct args as [|a args].
  - cbn. rewrite fill_nil. reflexivity.
  - remember (a :: args) as l eqn:Hl.
    assert (Hpos : (0 <? List.length l)%nat = true) by (subst l; reflexivity).
    rewrite Hpos, MustCompile_param_token. cbn [rbind].
    unfold ReplaceAllStringFunc. fold (pick l).
    rewrite replace_fill by lia. reflexivity.
Qed.

Lemma coerce_coerced (params_ : list arg) :
  forall acc,
    coerce params_ acc =
    if existsb is_other params_
    then Panic "Arguments passed to URLFor must be integers or strings"
    else Ok (acc ++ coerced params_).
Proof.
  induction params_ as [|a rest IH]; intros acc.
  - simpl. rewrite app_nil_r. reflexivity.
  - destruct a; cbn [coerce existsb is_other orb coerced]; rewrite ?IH;
      try reflexivity;
      destruct (existsb is_other rest); try reflexivity;
      rewrite <- app_assoc; reflexivity.
Qed.

Lemma findRoute_None (rs : list route) (n : string) :
  findRoute rs n = None <-> Forall (fun rt => name rt <> n) rs.
Proof.
  induction rs as [|rt rs IH]; simpl.
  - split; auto.
  - destruct (String.eqb_spec (name rt) n) as [He|Hne].
    + split; [discriminate|]. intros H. inversion H. contradiction.
    + rewrite IH. split; [intros H; constructor; assumption|].
      intros H. inversion H. assumption.
Qed.

(** C8 (as stated, refuted): a [nil] argument is not a usage error; it is
    skipped, and the token stays in the URL. *)
Lemma URLFor_nil_is_skipped :
  URLFor {| routes := [Name "home" (user_route "GET" [])];
            notFounds := []; groups := [] |} "home" [ArgNil] = Ok "/user/:id".
Proof. reflexivity. Qed.

(** C8 (amended): [URLFor] on a name that no route bears panics with
    "route not found"; otherwise each argument is coerced to its string form
    -- an int to its decimal form, a string to itself, [nil] is skipped --
    and any other value is a fatal usage error; for a known route the
    [:name] tokens of its pattern are substituted left to right by the
    coerced values in order, tokens for which no value is left staying as
    they are.  So the route named "home" with pattern [/user/:id] called
    with the value "7" yields [/user/7]. *)
Theorem URLFor_substitutes (r : router) (n : string) (params_ : list arg) :
  URLFor r n params_ =
    match findRoute (routes r) n with
    | None => Panic "route not found"
    | Some rt =>
        if existsb is_other params_
        then Panic "Arguments passed to URLFor must be integers or strings"
        else Ok (fill false (pattern rt) (coerced params_))
    end
  /\ (findRoute (routes r) n = None <-> Forall (fun rt => name rt <> n) (routes r))
  /\ (forall m hs,
        newRoute m "/user/:id" hs = Ok (user_route m hs)
        /\ URLFor {| routes := [Name "home" (user_route m hs)];
                     notFounds := []; groups := [] |} "home" [ArgString "7"]
           = Ok "/user/7").
Proof.
  split; [|split].
  - unfold URLFor. destruct (findRoute (routes r) n) as [rt|]; [|reflexivity].
    rewrite coerce_coerced. destruct (existsb is_other params_); [reflexivity|].
    cbn [rbind app]. apply URLWith_fill.
  - apply findRoute_None.
  - intros m hs. split; [apply newRoute_user|reflexivity].
Qed.

End ReverseFacts.

(** * Groups *)

Module GroupFacts.
Import Handlers Router Registration Spec PatternFacts.

(** Induction over registration calls and the functions nested in them. *)
Lemma call_induction (P : call -> Prop) (Q : list call -> Prop) :
  (forall v p h n, P (Route v p h n)) ->
  (forall p fn h, Q fn -> P (Grouped p fn h)) ->
  (forall h, P (NotFoundWith h)) ->
  Q [] ->
  (forall c cs, P c -> Q cs -> Q (c :: cs)) ->
  forall c, P c.
Proof.
  intros HR HG HN Hnil Hcons. fix IH 1. intros [v p h n | p fn h | h].
  - apply HR.
  - apply HG. induction fn as [|c cs IHcs].
    + exact Hnil.
    + apply Hcons; [apply IH | exact IHcs].
  - apply HN.
Qed.

Lemma perform_Grouped (p : string) (fn : list call) (h : list Handler) (r : router) :
  perform (Grouped p fn h) r = Group p (perform_all fn) h r.
Proof. reflexivity. Qed.

Lemma group_fold (gs : list group) :
  forall (a : string) (b : list Handler),
    fold_left (fun '(gp, h) g => (gp +:+ gpattern g, h ++ ghandlers g)) gs (a, b) =
    (a +:+ prefix_of gs, b ++ middleware_of gs).
Proof.
  induction gs as [|g gs IH]; intros a b.
  - simpl. rewrite append_nil_r, app_nil_r. reflexivity.
  - cbn [fold_left prefix_of middleware_of fold_right flat_map].
    rewrite IH, append_assoc, <- app_assoc. reflexivity.
Qed.

Lemma prefix_of_app (gs : list group) (g : group) :
  prefix_of (gs ++ [g]) = prefix_of gs +:+ gpattern g.
Proof.
  induction gs as [|x gs IH]; simpl.
  - rewrite append_nil_r. reflexivity.
  - unfold prefix_of in *. cbn [fold_right]. rewrite IH, append_assoc. reflexivity.
Qed.

Lemma newRoute_fields (m p : string) (hs : list Handler) (rt : route) :
  newRoute m p hs = Ok rt ->
  method rt = m /\ pattern rt = p /\ handlers rt = hs /\ name rt = "".
Proof.
  unfold newRoute. intros H.
  destruct (MustCompile param_token); cbn [rbind] in H; try discriminate.
  destruct (MustCompile wildcard_token); cbn [rbind] in H; try discriminate.
  destruct (MustCompile _); cbn [rbind] in H; try discriminate.
  injection H as <-. auto.
Qed.

(** What [addRoute] registers while the groups of [r] are active. *)
Lemma addRoute_entry (m p : string) (h : list Handler) (r r' : router) (rt : route) :
  addRoute m p h r = Ok (rt, r') ->
  entry_of rt = (m, prefix_of (groups r) +:+ p, middleware_of (groups r) ++ h, "")
  /\ routes r' = routes r ++ [rt]
  /\ notFounds r' = notFounds r
  /\ groups r' = groups r.
Proof.
  unfold addRoute. intros H.
  assert (Hpair : (if (0 <? List.length (groups r))%nat
                   then let '(groupPattern, h0) :=
                          fold_left (fun '(gp, h0) g =>
                                       (gp +:+ gpattern g, h0 ++ ghandlers g))
                            (groups r) ("", []) in
                        (groupPattern +:+ p, h0 ++ h)
                   else (p, h)) =
                  (prefix_of (groups r) +:+ p, middleware_of (groups r) ++ h)).
  { destruct (groups r) as [|g gs] eqn:Hg; [reflexivity|].
    cbn [List.length Nat.ltb Nat.leb]. rewrite group_fold. reflexivity. }
  rewrite Hpair in H. clear Hpair.
  destruct (newRoute m _ _) as [x| | |] eqn:Hn; cbn [rbind] in H; try discriminate.
  destruct (Validate (handlers x)); cbn [rbind] in H; try discriminate.
  injection H as <- <-.
  apply newRoute_fields in Hn. destruct Hn as (Hm & Hp & Hh & Hname).
  unfold entry_of. rewrite Hm, Hp, Hh, Hname. auto.
Qed.

Lemma removelast_snoc {A : Type} (l : list A) (x : A) : removelast (l ++ [x]) = l.
Proof. apply removelast_last. Qed.

Lemma perform_declares (c : call) :
  forall r r',
    perform c r = Ok r' ->
    groups r' = groups r
    /\ map entry_of (routes r') = map entry_of (routes r) ++ declared (groups r) c.
Proof.
  apply (call_induction
           (fun c => forall r r', perform c r = Ok r' ->
              groups r' = groups r
              /\ map entry_of (routes r') =
                 map entry_of (routes r) ++ declared (groups r) c)
           (fun cs => forall r r', perform_all cs r = Ok r' ->
              groups r' = groups r
              /\ map entry_of (routes r') =
                 map entry_of (routes r) ++ flat_map (declared (groups r)) cs)).
  - (* a route *)
    intros v p h n r r' H. cbn [perform] in H.
    destruct (addRoute (method_of v) p h r) as [[rt r1]| | |] eqn:Ha;
      cbn [rbind] in H; try discriminate.
    injection H as <-.
    apply addRoute_entry in Ha. destruct Ha as (He & Hr & _ & Hg).
    cbn [named groups routes]. split; [exact Hg|].
    rewrite Hr, removelast_snoc, map_app. cbn [map declared].
    unfold entry_of in *. cbn [Name method pattern handlers name].
    injection He as -> -> -> _. reflexivity.
  - (* a group *)
    intros p fn h IH r r' H. rewrite perform_Grouped in H. unfold Group in H.
    match type of H with rbind (perform_all fn ?x) _ = _ => set (r1 := x) in * end.
    destruct (perform_all fn r1) as [r2| | |] eqn:Hfn; cbn [rbind] in H;
      try discriminate.
    injection H as <-. apply IH in Hfn. destruct Hfn as (Hg & Hr).
    subst r1. cbn [groups routes] in *.
    rewrite Hg, removelast_snoc. split; [reflexivity|exact Hr].
  - (* not found *)
    intros h r r' H. cbn [perform] in H. injection H as <-.
    cbn. rewrite app_nil_r. auto.
  - intros r r' H. cbn in H. injection H as <-. cbn. rewrite app_nil_r. auto.
  - intros c0 cs IHc IHcs r r' H. cbn [perform_all] in H.
    destruct (perform c0 r) as [r1| | |] eqn:Hc; cbn [rbind] in H; try discriminate.
    apply IHc in Hc. destruct Hc as (Hg1 & Hr1).
    apply IHcs in H. destruct H as (Hg & Hr).
    rewrite Hg, Hg1. split; [reflexivity|].
    rewrite Hr, Hr1, Hg1, <- app_assoc. reflexivity.
Qed.

(** C9: a route registered inside nested [Group] calls gets as its pattern
    the prefixes of all active groups, outermost first, followed by its own
    pattern, and as its handler chain the middleware of all active groups
    in the same order followed by its own handlers; when a [Group] call
    returns the group stack is what it was before, so that registrations
    that follow include none of that group's prefix or middleware -- also
    when registration functions declare groups within groups. *)
Theorem groups_compose (fn : list call) (r r' : router) :
  perform_all fn r = Ok r' ->
  groups r' = groups r
  /\ map entry_of (routes r') =
     map entry_of (routes r) ++ flat_map (declared (groups r)) fn.
Proof.
  revert r r'. induction fn as [|c cs IH]; intros r r' H.
  - cbn in H. injection H as <-. cbn. rewrite app_nil_r. auto.
  - cbn [perform_all] in H.
    destruct (perform c r) as [r1| | |] eqn:Hc; cbn [rbind] in H; try discriminate.
    apply perform_declares in Hc. destruct Hc as (Hg1 & Hr1).
    apply IH in H. destruct H as (Hg & Hr).
    rewrite Hg, Hg1. split; [reflexivity|].
    rewrite Hr, Hr1, Hg1, <- app_assoc. reflexivity.
Qed.

Lemma groups_compose_witness :
  let r' := router_of (perform_all sample_registration NewRouter) in
  groups r' = []
  /\ map entry_of (routes r') =
     [("GET", "/api/users",
       [Callable (CallWritten (fun _ => Return [])); Callable (Return [])], "");
      ("*", "/api/v1/items/:id",
       [Callable (CallWritten (fun _ => Return []));
        Callable (CallNext (Return []));
        Callable (CallWrite "item" (Return []))], "item");
      ("POST", "/health", [], "health")].
Proof.
  apply (groups_compose sample_registration NewRouter
           (router_of (perform_all sample_registration NewRouter))).
  vm_compute. reflexivity.
Defined.

End GroupFacts.

(** * The pipelines *)

Module PipelineFacts.
Import RW Handlers Router RouteContext Spec.

(** ** Rules *)

Lemma hoare_ret {A : Type} (P : world -> Prop) (a : A) (Q : result A -> world -> Prop) :
  (forall w, P w -> Q (Ok a) w) -> hoare P (ret a) Q.
Proof. intros H w Hw. apply H, Hw. Qed.

Lemma hoare_lift {A : Type} (P : world -> Prop) (x : result A)
    (Q : result A -> world -> Prop) :
  (forall w, P w -> Q x w) -> hoare P (lift x) Q.
Proof. intros H w Hw. apply H, Hw. Qed.

Lemma hoare_bind {A B : Type} (P : world -> Prop) (c : M A) (f : A -> M B)
    (Q : result A -> world -> Prop) (R : result B -> world -> Prop) :
  hoare P c Q ->
  (forall a, hoare (Q (Ok a)) (f a) R) ->
  (forall x w, (forall a, x <> Ok a) -> Q x w -> R (propagate x) w) ->
  hoare P (bind c f) R.
Proof.
  intros Hc Hf Hfail w Hw. specialize (Hc w Hw). unfold bind.
  destruct (c w) as [[a|msg| |] w1]; cbn [fst snd] in *.
  - apply Hf, Hc.
  - apply (Hfail (Panic msg)); [discriminate|exact Hc].
  - apply (Hfail Unmodelled); [discriminate|exact Hc].
  - apply (Hfail Starved); [discriminate|exact Hc].
Qed.

Lemma hoare_get (P : world -> Prop) (Q : result world -> world -> Prop) :
  (forall w, P w -> Q (Ok w) w) -> hoare P get Q.
Proof. intros H w Hw. apply H, Hw. Qed.

Lemma hoare_modify (P : world -> Prop) (f : world -> world)
    (Q : result unit -> world -> Prop) :
  (forall w, P w -> Q (Ok tt) (f w)) -> hoare P (modify f) Q.
Proof. intros H w Hw. apply H, Hw. Qed.

Lemma hoare_weaken {A : Type} (P P' : world -> Prop) (c : M A)
    (Q Q' : result A -> world -> Prop) :
  hoare P' c Q' ->
  (forall w, P w -> P' w) ->
  (forall x w, Q' x w -> Q x w) ->
  hoare P c Q.
Proof. intros H HP HQ w Hw. apply HQ, H, HP, Hw. Qed.

Lemma keeps_bind {A B : Type} (K : world -> Prop) (c : M A) (f : A -> M B) :
  keeps K c -> (forall a, keeps K (f a)) -> keeps K (bind c f).
Proof.
  intros Hc Hf. apply (hoare_bind K c f (fun _ w => K w)); auto.
Qed.

Lemma keeps_ret {A : Type} (K : world -> Prop) (a : A) : keeps K (ret a).
Proof. apply hoare_ret. auto. Qed.

Lemma keeps_lift {A : Type} (K : world -> Prop) (x : result A) : keeps K (lift x).
Proof. apply hoare_lift. auto. Qed.

Lemma keeps_get (K : world -> Prop) : keeps K get.
Proof. apply hoare_get. auto. Qed.

Lemma keeps_written (K : world -> Prop) : keeps K written.
Proof. unfold written. apply keeps_bind; [apply keeps_get|intros; apply keeps_ret]. Qed.

Lemma keeps_modify (K : world -> Prop) (f : world -> world) :
  (forall w, K w -> K (f w)) -> keeps K (modify f).
Proof. intros H. apply hoare_modify. exact H. Qed.

Lemma keeps_tell (K : world -> Prop) (e : event) :
  (forall w, K w -> K (record e w)) -> keeps K (tell e).
Proof. intros H. apply keeps_modify. exact H. Qed.

(** ** Return values in the route pipeline *)

Lemma snoc_or_nil {A : Type} (l : list A) :
  l = [] \/ exists l' x, l = l' ++ [x].
Proof.
  destruct l as [|a l]; [left; reflexivity|right].
  destruct (exists_last (l := a :: l)) as (l' & x & H); [discriminate|].
  exists l', x. exact H.
Qed.

Lemma returns_interpreted_nil : returns_interpreted [].
Proof. intros [|? ?] i vals post H; discriminate H. Qed.

Lemma returns_interpreted_snoc (t : list event) (e : event) :
  returns_interpreted t ->
  (forall i vals, e = Returned Routed i vals -> vals = []) ->
  returns_interpreted (t ++ [e]).
Proof.
  intros Ht He pre i vals post Heq Hne.
  destruct (snoc_or_nil post) as [->|(post0 & x & ->)].
  - apply app_inj_tail in Heq as [_ Heq]. apply He in Heq. contradiction.
  - rewrite app_comm_cons, app_assoc in Heq.
    apply app_inj_tail in Heq as [Heq _].
    destruct (Ht _ _ _ _ Heq Hne) as (post' & ->).
    exists (post' ++ [x]). reflexivity.
Qed.

Lemma returns_interpreted_pair (t : list event) (i : nat) (vals : list Reflect.Value) :
  returns_interpreted t ->
  returns_interpreted (t ++ [Returned Routed i vals; Interpreted Routed vals]).
Proof.
  intros Ht pre j vs post Heq Hne.
  change [Returned Routed i vals; Interpreted Routed vals]
    with ([Returned Routed i vals] ++ [Interpreted Routed vals]) in Heq.
  rewrite app_assoc in Heq.
  destruct (snoc_or_nil post) as [->|(post0 & x & ->)].
  - apply app_inj_tail in Heq as [_ Heq]. discriminate Heq.
  - rewrite app_comm_cons, (app_assoc pre) in Heq.
    apply app_inj_tail in Heq as [Heq <-].
    destruct (snoc_or_nil post0) as [->|(post1 & y & ->)].
    + apply app_inj_tail in Heq as [_ Heq]. injection Heq as _ <-.
      exists []. reflexivity.
    + rewrite app_comm_cons, (app_assoc pre) in Heq.
      apply app_inj_tail in Heq as [Heq <-].
      destruct (Ht _ _ _ _ Heq Hne) as (post' & ->).
      exists (post' ++ [Returned Routed i vals; Interpreted Routed vals]).
      rewrite <- !app_assoc. reflexivity.
Qed.

Section Interpreting.
Variable h : ReturnHandler.ReturnHandler.

Lemma interpreting_event (e : event) (w : world) :
  (forall i vals, e = Returned Routed i vals -> vals = []) ->
  interpreting h w -> interpreting h (record e w).
Proof.
  intros He [Hr Ht]. split; [exact Hr|].
  cbn [record trace]. apply returns_interpreted_snoc; assumption.
Qed.

Lemma interpreting_call (l : level) (next : M unit) (f : body) :
  keeps (interpreting h) next -> keeps (interpreting h) (call l next f).
Proof.
  intros Hnext. induction f as [vals|msg|k IH|k IH|s k IH|b k IH|g k IH|k IH];
    cbn [call].
  - apply keeps_ret.
  - apply keeps_lift.
  - apply keeps_bind; [apply keeps_written|intros wr].
    apply keeps_bind; [|intros _; apply keeps_bind; [exact Hnext|intros _; exact IH]].
    apply keeps_tell. intros w. apply interpreting_event. discriminate.
  - apply keeps_bind; [apply keeps_written|intros wr; apply IH].
  - apply keeps_bind; [|intros _; exact IH]. apply keeps_modify. auto.
  - apply keeps_bind; [|intros _; exact IH]. apply keeps_modify. auto.
  - apply keeps_bind; [|intros _; exact IH]. apply keeps_modify. auto.
  - apply keeps_bind; [apply keeps_get|intros w].
    destruct (params w); [apply IH|apply keeps_lift].
Qed.

Lemma interpreting_Invoke (l : level) (next : M unit) (handler : Handler) :
  keeps (interpreting h) next -> keeps (interpreting h) (Invoke l next handler).
Proof.
  intros Hnext. destruct handler; [apply interpreting_call, Hnext|apply keeps_lift..].
Qed.

(** After a handler of the route pipeline returned: the values, if any,
    go to the return handler. *)
Lemma interpreting_return (i : nat) (vals : list Reflect.Value) (rest : M unit) :
  keeps (interpreting h) rest ->
  keeps (interpreting h)
    (bind (tell (Returned Routed i vals)) (fun _ =>
     bind (modify (fun w => set_rindex (rindex w + 1) w)) (fun _ =>
     bind (if (0 <? List.length vals)%nat then
             bind get (fun w =>
               match returns w with
               | None => panic "reflect: call of reflect.Value.Interface on zero Value"
               | Some handleReturn =>
                   bind (tell (Interpreted Routed vals)) (fun _ =>
                   modify (fun w => set_rw (handleReturn (rw w) vals) w))
               end)
           else ret tt) (fun _ => rest)))).
Proof.
  intros Hrest.
  apply (hoare_bind _ _ _ (fun x w => x = Ok tt /\ pending h i vals w)).
  - intros w [Hr Ht]. split; [reflexivity|]. split; [exact Hr|].
    exists (trace w). auto.
  - intros [] .
    apply (hoare_bind _ _ _ (fun x w => x = Ok tt /\ pending h i vals w)).
    + intros w [_ Hp]. split; [reflexivity|exact Hp].
    + intros [].
      apply (hoare_bind _ _ _ (fun _ w => interpreting h w)).
      * destruct vals as [|v vals].
        -- intros w [_ (Hr & t & Ht & Hri)]. cbn. split; [exact Hr|].
           rewrite Ht. apply returns_interpreted_snoc; [exact Hri|].
           intros j vs E. injection E as _ <-. reflexivity.
        -- intros w [_ (Hr & t & Ht & Hri)].
           cbn [List.length Nat.ltb Nat.leb]. unfold bind, get. rewrite Hr.
           unfold tell, modify. cbn [fst snd].
           split; [exact Hr|]. cbn [set_rw record trace].
           rewrite Ht, <- app_assoc.
           apply returns_interpreted_pair, Hri.
      * intros _. exact Hrest.
      * auto.
    + intros x w Hx [E _]. subst x. exfalso. apply (Hx tt). reflexivity.
  - intros x w Hx [E _]. subst x. exfalso. apply (Hx tt). reflexivity.
Qed.

Lemma interpreting_route_run (n : nat) (hs : list Handler) :
  keeps (interpreting h) (RouteContext.run_n n hs).
Proof.
  induction n as [|n IH]; cbn [RouteContext.run_n].
  - apply keeps_bind; [apply keeps_get|intros w].
    destruct (rindex w <? List.length hs)%nat; [apply keeps_lift|apply keeps_ret].
  - apply keeps_bind; [apply keeps_get|intros w].
    destruct (rindex w <? List.length hs)%nat; [|apply keeps_ret].
    destruct (nth_error hs (rindex w)) as [handler|]; [|apply keeps_lift].
    apply keeps_bind.
    { apply keeps_tell. intros w'. apply interpreting_event. discriminate. }
    intros _. apply keeps_bind.
    { apply interpreting_Invoke. apply keeps_bind; [|intros _; exact IH].
      apply keeps_modify. auto. }
    intros vals. apply interpreting_return.
    apply keeps_bind; [apply keeps_written|intros wr].
    destruct wr; [apply keeps_ret|exact IH].
Qed.

Lemma interpreting_start (hs : list Handler) :
  keeps (interpreting h) (start hs).
Proof.
  unfold start, RouteContext.run.
  apply keeps_bind; [apply keeps_modify; auto|intros _].
  apply keeps_bind; [apply keeps_get|intros w]. apply interpreting_route_run.
Qed.

Lemma interpreting_Handle (r : router) : keeps (interpreting h) (Handle r).
Proof.
  unfold Handle. induction (routes r) as [|rt rs IH]; cbn [dispatch].
  - apply interpreting_start.
  - apply keeps_bind; [apply keeps_get|intros w].
    destruct (Match rt _ _) as [[] vals]; [|exact IH].
    apply keeps_bind; [apply keeps_modify; auto|intros _].
    apply interpreting_start.
Qed.

Lemma interpreting_context_run (n : nat) (m : Martini.Martini) :
  keeps (interpreting h) (Martini.run_n n m).
Proof.
  induction n as [|n IH]; cbn [Martini.run_n].
  - apply keeps_bind; [apply keeps_get|intros w].
    destruct (cindex w <=? _)%nat; [apply keeps_lift|apply keeps_ret].
  - apply keeps_bind; [apply keeps_get|intros w].
    destruct (cindex w <=? _)%nat; [|apply keeps_ret].
    apply keeps_bind; [apply keeps_lift|intros a].
    apply keeps_bind.
    { apply keeps_tell. intros w'. apply interpreting_event. discriminate. }
    intros _. apply keeps_bind.
    { destruct a as [hd|r]; cbn [Martini.InvokeAction].
      - apply interpreting_Invoke. apply keeps_bind; [|intros _; exact IH].
        apply keeps_modify. auto.
      - apply keeps_bind; [apply interpreting_Handle|intros _; apply keeps_ret]. }
    intros vals. apply keeps_bind.
    { apply keeps_tell. intros w'. apply interpreting_event. discriminate. }
    intros _. apply keeps_bind; [apply keeps_modify; auto|intros _].
    apply keeps_bind; [apply keeps_written|intros wr].
    destruct wr; [apply keeps_ret|exact IH].
Qed.
End Interpreting.

(** ** A written response stops the pipelines *)

Lemma yields_unwritten_app (t1 t2 : list event) :
  yields_unwritten (t1 ++ t2) <-> yields_unwritten t1 /\ yields_unwritten t2.
Proof.
  unfold yields_unwritten. split.
  - intros H. split; intros l w Hin; apply (H l w), in_or_app; auto.
  - intros [H1 H2] l w Hin. apply in_app_or in Hin as [Hin|Hin]; eauto.
Qed.

Lemma settled_event (e : event) (w : world) :
  (forall l i b, e = Invoked l i b -> b = false) ->
  settled w -> settled (record e w).
Proof.
  intros He Hs Hy. cbn [record trace] in *.
  apply yields_unwritten_app in Hy as [Hy _]. specialize (Hs Hy).
  intros l i b Hin. apply in_app_or in Hin as [Hin|[Hin|[]]].
  - apply (Hs l i b Hin).
  - apply (He l i b). exact Hin.
Qed.

Lemma entered_invoke (l : level) (i : nat) (w : world) :
  entered w -> entered (record (Invoked l i (Written (rw w))) w).
Proof.
  intros [Hs Hw]. split.
  - destruct (Written (rw w)) eqn:E.
    + intros Hy. cbn [record trace] in Hy.
      apply yields_unwritten_app in Hy as [Hy _]. destruct (Hw eq_refl Hy).
    + apply settled_event; [|exact Hs]. intros ? ? ? H. injection H as _ _ <-.
      reflexivity.
  - cbn [record rw trace]. intros E Hy.
    apply yields_unwritten_app in Hy as [Hy _]. exact (Hw E Hy).
Qed.

Lemma entered_yield (l : level) (w : world) :
  settled w -> entered (record (Yielded l (Written (rw w))) w).
Proof.
  intros Hs. split.
  - apply settled_event; [discriminate|exact Hs].
  - cbn [record rw trace]. intros E Hy.
    specialize (Hy l (Written (rw w))). rewrite E in Hy.
    discriminate Hy. apply in_or_app. right. left. reflexivity.
Qed.

Lemma entered_settled (w : world) : entered w -> settled w.
Proof. intros [H _]. exact H. Qed.

Lemma settled_unwritten (w : world) :
  settled w -> Written (rw w) = false -> entered w.
Proof. intros Hs E. split; [exact Hs|]. rewrite E. discriminate. Qed.

(** The value of [written] is the state of the response at that point. *)
Lemma written_value (K : world -> Prop) :
  hoare K written (fun x w => K w /\ x = Ok (Written (rw w))).
Proof. intros w Hw. cbn. auto. Qed.

Lemma get_value (K : world -> Prop) :
  hoare K get (fun x w => K w /\ x = Ok w).
Proof. intros w Hw. cbn. auto. Qed.

Ltac no_failure :=
  let x := fresh "x" in let w := fresh "w" in
  let Hx := fresh "Hx" in let E := fresh "E" in
  intros x w Hx [? E]; subst x; exfalso; eapply Hx; reflexivity.

Lemma settled_call (l : level) (next : M unit) (f : body) :
  hoare entered next (fun _ w => settled w) ->
  keeps settled (call l next f).
Proof.
  intros Hnext. induction f as [vals|msg|k IH|k IH|s k IH|b k IH|g k IH|k IH];
    cbn [call].
  - apply keeps_ret.
  - apply keeps_lift.
  - apply (hoare_bind _ _ _ _ _ (written_value settled)); [|no_failure].
    intros wr.
    apply (hoare_bind _ _ _ (fun _ w => entered w)).
    + intros w [Hs E]. injection E as ->. apply entered_yield, Hs.
    + intros _. apply (hoare_bind _ _ _ (fun _ w => settled w)); auto.
    + intros x w _ H. apply entered_settled, H.
  - apply keeps_bind; [apply keeps_written|intros wr; apply IH].
  - apply keeps_bind; [|intros _; exact IH]. apply keeps_modify. auto.
  - apply keeps_bind; [|intros _; exact IH]. apply keeps_modify. auto.
  - apply keeps_bind; [|intros _; exact IH]. apply keeps_modify. auto.
  - apply keeps_bind; [apply keeps_get|intros w].
    destruct (params w); [apply IH|apply keeps_lift].
Qed.

Lemma settled_Invoke (l : level) (next : M unit) (handler : Handler) :
  hoare entered next (fun _ w => settled w) ->
  keeps settled (Invoke l next handler).
Proof.
  intros Hnext. destruct handler; [apply settled_call, Hnext|apply keeps_lift..].
Qed.

(** The end of a loop iteration: the loop goes on only if the response is
    unwritten. *)
Lemma settled_check (rest : M unit) :
  hoare entered rest (fun _ w => settled w) ->
  keeps settled (bind written (fun wr => if wr then ret tt else rest)).
Proof.
  intros Hrest.
  apply (hoare_bind _ _ _ _ _ (written_value settled)); [|no_failure].
  intros [|].
  - intros w [Hs _]. exact Hs.
  - intros w [Hs E]. injection E as E. apply Hrest.
    apply settled_unwritten; [exact Hs|symmetry; exact E].
Qed.

Lemma entered_move (f : world -> world) :
  (forall w, rw (f w) = rw w /\ trace (f w) = trace w) ->
  hoare entered (modify f) (fun _ w => entered w).
Proof.
  intros Hf w [Hs Hw]. cbn. destruct (Hf w) as (Hr & Ht).
  unfold entered, settled. rewrite Hr, Ht. auto.
Qed.

Lemma settled_route_run (n : nat) (hs : list Handler) :
  hoare entered (RouteContext.run_n n hs) (fun _ w => settled w).
Proof.
  induction n as [|n IH]; cbn [RouteContext.run_n].
  - apply (hoare_bind _ _ _ _ _ (get_value entered)); [|no_failure].
    intros w0. destruct (rindex w0 <? List.length hs)%nat.
    + intros w [H _]. apply entered_settled, H.
    + intros w [H _]. apply entered_settled, H.
  - apply (hoare_bind _ _ _ _ _ (get_value entered)); [|no_failure].
    intros w0. destruct (rindex w0 <? List.length hs)%nat;
      [|intros w [H _]; apply entered_settled, H].
    destruct (nth_error hs (rindex w0)) as [handler|];
      [|intros w [H _]; apply entered_settled, H].
    apply (hoare_bind _ _ _ (fun _ w => settled w)); [| |auto].
    { intros w [H E]. injection E as ->. apply entered_settled, entered_invoke, H. }
    intros _. apply keeps_bind.
    { apply settled_Invoke.
      apply (hoare_bind _ _ _ (fun _ w => entered w)).
      - apply entered_move. auto.
      - intros _. exact IH.
      - intros x w _ H. apply entered_settled, H. }
    intros vals. apply keeps_bind.
    { apply keeps_tell. intros w. apply settled_event. discriminate. }
    intros _. apply keeps_bind; [apply keeps_modify; auto|intros _].
    apply keeps_bind.
    { destruct (0 <? List.length vals)%nat; [|apply keeps_ret].
      apply keeps_bind; [apply keeps_get|intros w].
      destruct (returns w); [|apply keeps_lift].
      apply keeps_bind; [|intros _; apply keeps_modify; auto].
      apply keeps_tell. intros w'. apply settled_event. discriminate. }
    intros _. apply settled_check, IH.
Qed.

Lemma settled_start (hs : list Handler) :
  hoare entered (start hs) (fun _ w => settled w).
Proof.
  unfold start, RouteContext.run.
  apply (hoare_bind _ _ _ (fun _ w => entered w)).
  - apply entered_move. auto.
  - intros _. apply (hoare_bind _ _ _ _ _ (get_value entered)); [|no_failure].
    intros w0. intros w [H _]. apply settled_route_run, H.
  - intros x w _ H. apply entered_settled, H.
Qed.

Lemma settled_Handle (r : router) :
  hoare entered (Handle r) (fun _ w => settled w).
Proof.
  unfold Handle. induction (routes r) as [|rt rs IH]; cbn [dispatch].
  - apply settled_start.
  - apply (hoare_bind _ _ _ _ _ (get_value entered)); [|no_failure].
    intros w0. destruct (Match rt _ _) as [[] vals].
    + apply (hoare_bind _ _ _ (fun _ w => entered w)).
      * intros w [H _]. revert w H. apply entered_move. auto.
      * intros _. apply settled_start.
      * intros x w _ H. apply entered_settled, H.
    + intros w [H _]. apply IH, H.
Qed.

Lemma settled_context_run (n : nat) (m : Martini.Martini) :
  hoare entered (Martini.run_n n m) (fun _ w => settled w).
Proof.
  induction n as [|n IH]; cbn [Martini.run_n].
  - apply (hoare_bind _ _ _ _ _ (get_value entered)); [|no_failure].
    intros w0. destruct (cindex w0 <=? _)%nat;
      intros w [H _]; apply entered_settled, H.
  - apply (hoare_bind _ _ _ _ _ (get_value entered)); [|no_failure].
    intros w0. destruct (cindex w0 <=? _)%nat;
      [|intros w [H _]; apply entered_settled, H].
    apply (hoare_bind _ _ _ (fun _ w => entered w /\ Ok w0 = Ok w)).
    { intros w H. exact H. }
    2:{ intros x w _ [H _]. apply entered_settled, H. }
    intros a.
    apply (hoare_bind _ _ _ (fun _ w => entered w)).
    { intros w [H E]. injection E as ->. apply entered_invoke, H. }
    2:{ intros x w _ H. apply entered_settled, H. }
    intros _. apply (hoare_bind _ _ _ (fun _ w => settled w)); [| |auto].
    { destruct a as [hd|r]; cbn [Martini.InvokeAction].
      - intros w H. apply settled_Invoke; [|apply entered_settled, H].
        apply (hoare_bind _ _ _ (fun _ w => entered w)).
        + apply entered_move. auto.
        + intros _. exact IH.
        + intros x w' _ H'. apply entered_settled, H'.
      - apply (hoare_bind _ _ _ (fun _ w => settled w)); [apply settled_Handle| |auto].
        intros _. apply keeps_ret. }
    intros vals. apply keeps_bind.
    { apply keeps_tell. intros w. apply settled_event. discriminate. }
    intros _. apply keeps_bind; [apply keeps_modify; auto|intros _].
    apply settled_check, IH.
Qed.

(** ** The iteration bounds suffice *)

Lemma runs_bind {A B : Type} (K : world -> Prop) (c : M A) (f : A -> M B) :
  runs K c -> (forall a, runs K (f a)) -> runs K (bind c f).
Proof.
  intros Hc Hf. apply (hoare_bind K c f (fun x w => x <> Starved /\ K w)).
  - exact Hc.
  - intros a w [_ Hw]. apply Hf, Hw.
  - intros x w Hx [Hs Hw]. split; [|exact Hw].
    destruct x as [a|msg| |]; cbn;
      [exfalso; exact (Hx a eq_refl)|discriminate|discriminate
      |exfalso; exact (Hs eq_refl)].
Qed.

Lemma runs_ret {A : Type} (K : world -> Prop) (a : A) : runs K (ret a).
Proof. intros w Hw. cbn. split; [discriminate|exact Hw]. Qed.

Lemma runs_panic {A : Type} (K : world -> Prop) (msg : string) :
  runs K (@panic A msg).
Proof. intros w Hw. cbn. split; [discriminate|exact Hw]. Qed.

Lemma runs_get (K : world -> Prop) : runs K get.
Proof. intros w Hw. cbn. split; [discriminate|exact Hw]. Qed.

Lemma runs_written (K : world -> Prop) : runs K written.
Proof. intros w Hw. cbn. split; [discriminate|exact Hw]. Qed.

Lemma runs_modify (K : world -> Prop) (f : world -> world) :
  (forall w, K w -> K (f w)) -> runs K (modify f).
Proof. intros H w Hw. cbn. split; [discriminate|apply H, Hw]. Qed.

Lemma runs_tell (K : world -> Prop) (e : event) :
  (forall w, K w -> K (record e w)) -> runs K (tell e).
Proof. apply runs_modify. Qed.

Lemma runs_weaken {A : Type} (K K' : world -> Prop) (c : M A) :
  runs K' c -> (forall w, K w -> K' w) -> (forall w, K' w -> K w) ->
  runs K c.
Proof.
  intros H H1 H2 w Hw. destruct (H w (H1 w Hw)) as [Hs Hk]. auto.
Qed.

Lemma runs_call (K : world -> Prop) (l : level) (next : M unit) (f : body) :
  (forall e w, K w -> K (record e w)) ->
  (forall x w, K w -> K (set_rw x w)) ->
  runs K next -> runs K (call l next f).
Proof.
  intros He Hrw Hnext.
  induction f as [vals|msg|k IH|k IH|s k IH|b k IH|g k IH|k IH]; cbn [call].
  - apply runs_ret.
  - apply runs_panic.
  - apply runs_bind; [apply runs_written|intros wr].
    apply runs_bind; [apply runs_tell; auto|intros _].
    apply runs_bind; [exact Hnext|intros _; exact IH].
  - apply runs_bind; [apply runs_written|intros wr; apply IH].
  - apply runs_bind; [|intros _; exact IH]. apply runs_modify. auto.
  - apply runs_bind; [|intros _; exact IH]. apply runs_modify. auto.
  - apply runs_bind; [|intros _; exact IH]. apply runs_modify. auto.
  - apply runs_bind; [apply runs_get|intros w].
    destruct (params w); [apply IH|apply runs_panic].
Qed.

Lemma runs_Invoke (K : world -> Prop) (l : level) (next : M unit) (handler : Handler) :
  (forall e w, K w -> K (record e w)) ->
  (forall x w, K w -> K (set_rw x w)) ->
  runs K next -> runs K (Invoke l next handler).
Proof.
  intros He Hrw Hnext. destruct handler; [apply runs_call; assumption|apply runs_panic..].
Qed.

Lemma runs_chain {A B : Type} (P K1 K2 : world -> Prop) (c : M A) (f : A -> M B) :
  hoare P c (fun x w => x <> Starved /\ K1 w) ->
  (forall a, hoare K1 (f a) (fun x w => x <> Starved /\ K2 w)) ->
  (forall w, K1 w -> K2 w) ->
  hoare P (bind c f) (fun x w => x <> Starved /\ K2 w).
Proof.
  intros Hc Hf Hk. apply (hoare_bind P c f (fun x w => x <> Starved /\ K1 w)).
  - exact Hc.
  - intros a w [_ Hw]. apply Hf, Hw.
  - intros x w Hx [Hs Hw]. split; [|apply Hk, Hw].
    destruct x as [a|msg| |]; cbn;
      [exfalso; exact (Hx a eq_refl)|discriminate|discriminate
      |exfalso; exact (Hs eq_refl)].
Qed.

Lemma runs_post {A : Type} (K K' : world -> Prop) (c : M A) :
  runs K c -> (forall w, K w -> K' w) ->
  hoare K c (fun x w => x <> Starved /\ K' w).
Proof. intros H Hk w Hw. destruct (H w Hw) as [Hs Hw']. auto. Qed.

(** The route pipeline: [n] iterations suffice when [n] handlers remain. *)
Lemma route_run_fuel (hs : list Handler) (jc : nat) (n : nat) :
  forall j,
    (List.length hs <= n + j)%nat ->
    runs (cursors_from j jc) (RouteContext.run_n n hs).
Proof.
  induction n as [|n IH]; intros j Hfuel; cbn [RouteContext.run_n].
  - apply (hoare_bind _ _ _ _ _ (get_value (cursors_from j jc))); [|no_failure].
    intros w0 w [[Hj Hc] E]. injection E as ->.
    destruct (Nat.ltb_spec (rindex w) (List.length hs)); [lia|].
    cbn. split; [discriminate|split; assumption].
  - apply (hoare_bind _ _ _ _ _ (get_value (cursors_from j jc))); [|no_failure].
    intros w0 w [[Hj Hc] E]. injection E as ->.
    destruct (Nat.ltb_spec (rindex w) (List.length hs)) as [Hlt|Hge];
      [|cbn; split; [discriminate|split; assumption]].
    destruct (nth_error hs (rindex w)) as [handler|];
      [|cbn; split; [discriminate|split; assumption]].
    set (j0 := rindex w) in *.
    assert (Hstep : runs (cursors_from (S j0) jc) (RouteContext.run_n n hs))
      by (apply IH; lia).
    assert (Hup : forall w', cursors_from (S j0) jc w' -> cursors_from j0 jc w')
      by (intros w' [H1 H2]; split; lia).
    assert (Hdown : forall w', cursors_from j0 jc w' -> cursors_from j jc w')
      by (intros w' [H1 H2]; split; lia).
    assert (Hincr : hoare (cursors_from j0 jc)
                      (modify (fun w => set_rindex (rindex w + 1) w))
                      (fun x w' => x <> Starved /\ cursors_from (S j0) jc w')).
    { intros w' [H1 H2]. cbn. split; [discriminate|]. split; cbn; lia. }
    assert (Hnext : runs (cursors_from j0 jc)
              (bind (modify (fun w => set_rindex (rindex w + 1) w))
                 (fun _ => RouteContext.run_n n hs))).
    { apply (runs_chain _ (cursors_from (S j0) jc)); [exact Hincr| |exact Hup].
      intros _. apply runs_post; [exact Hstep|exact Hup]. }
    match goal with
    | |- fst (?c w) <> Starved /\ _ =>
        assert (HC : hoare (cursors_from j0 jc) c
                       (fun x w' => x <> Starved /\ cursors_from j jc w'))
    end.
    { apply (runs_chain _ (cursors_from j0 jc)); [apply runs_tell; auto| |exact Hdown].
      intros _.
      apply (runs_chain _ (cursors_from j0 jc)); [apply runs_Invoke; auto| |exact Hdown].
      intros vals.
      apply (runs_chain _ (cursors_from j0 jc)); [apply runs_tell; auto| |exact Hdown].
      intros _.
      apply (runs_chain _ (cursors_from (S j0) jc)); [exact Hincr| |auto].
      intros _.
      apply runs_post; [|auto]. apply runs_bind.
      { destruct (0 <? List.length vals)%nat; [|apply runs_ret].
        apply runs_bind; [apply runs_get|intros w1].
        destruct (returns w1); [|apply runs_panic].
        apply runs_bind; [apply runs_tell; auto|intros _].
        apply runs_modify. auto. }
      intros _. apply runs_bind; [apply runs_written|intros wr].
      destruct wr; [apply runs_ret|exact Hstep]. }
    apply HC. split; [apply Nat.le_refl|exact Hc].
Qed.

Lemma start_runs (hs : list Handler) (jc : nat) :
  runs (cursor_from jc) (start hs).
Proof.
  unfold start, RouteContext.run.
  apply (runs_chain _ (cursors_from 0 jc) (cursor_from jc)).
  - intros w H. cbn. split; [discriminate|]. split; [cbn; lia|exact H].
  - intros _.
    apply (hoare_bind _ _ _ _ _ (get_value (cursors_from 0 jc))); [|no_failure].
    intros w0 w [H E]. injection E as ->.
    destruct (route_run_fuel hs jc (List.length hs - rindex w) (rindex w)
                ltac:(lia) w) as [Hs [_ Hc]].
    + destruct H as [_ Hc]. split; [apply Nat.le_refl|exact Hc].
    + split; [exact Hs|exact Hc].
  - intros w [_ H]. exact H.
Qed.

Lemma Handle_runs (r : router) (jc : nat) : runs (cursor_from jc) (Handle r).
Proof.
  unfold Handle. induction (routes r) as [|rt rs IH]; cbn [dispatch].
  - apply start_runs.
  - apply runs_bind; [apply runs_get|intros w].
    destruct (Match rt _ _) as [[] vals]; [|exact IH].
    apply runs_bind; [apply runs_modify; auto|intros _]. apply start_runs.
Qed.

(** The global pipeline: one iteration per handler and one for the action. *)
Lemma context_run_fuel (m : Martini.Martini) (n : nat) :
  forall j,
    (S (List.length (Martini.handlers m)) <= n + j)%nat ->
    runs (cursor_from j) (Martini.run_n n m).
Proof.
  induction n as [|n IH]; intros j Hfuel; cbn [Martini.run_n].
  - apply (hoare_bind _ _ _ _ _ (get_value (cursor_from j))); [|no_failure].
    intros w0 w [Hj E]. injection E as ->. unfold cursor_from in Hj.
    destruct (Nat.leb_spec (cindex w) (List.length (Martini.handlers m))); [lia|].
    cbn. split; [discriminate|exact Hj].
  - apply (hoare_bind _ _ _ _ _ (get_value (cursor_from j))); [|no_failure].
    intros w0 w [Hj E]. injection E as ->. unfold cursor_from in Hj.
    destruct (Nat.leb_spec (cindex w) (List.length (Martini.handlers m)))
      as [Hle|Hgt]; [|cbn; split; [discriminate|exact Hj]].
    set (j0 := cindex w) in *.
    assert (Hstep : runs (cursor_from (S j0)) (Martini.run_n n m))
      by (apply IH; lia).
    assert (Hup : forall w', cursor_from (S j0) w' -> cursor_from j0 w')
      by (unfold cursor_from; intros; lia).
    assert (Hdown : forall w', cursor_from j0 w' -> cursor_from j w')
      by (unfold cursor_from; intros; lia).
    assert (Hincr : hoare (cursor_from j0)
                      (modify (fun w => set_cindex (cindex w + 1) w))
                      (fun x w' => x <> Starved /\ cursor_from (S j0) w')).
    { intros w' H. unfold cursor_from in *. cbn. split; [discriminate|lia]. }
    assert (Hnext : runs (cursor_from j0)
              (bind (modify (fun w => set_cindex (cindex w + 1) w))
                 (fun _ => Martini.run_n n m))).
    { apply (runs_chain _ (cursor_from (S j0))); [exact Hincr| |exact Hup].
      intros _. apply runs_post; [exact Hstep|exact Hup]. }
    match goal with
    | |- fst (?c w) <> Starved /\ _ =>
        assert (HC : hoare (cursor_from j0) c
                       (fun x w' => x <> Starved /\ cursor_from j w'))
    end.
    { apply (runs_chain _ (cursor_from j0)); [| |exact Hdown].
      { intros w' H. unfold Martini.handler, lift. cbn [fst snd].
        split; [|exact H].
        destruct (j0 <? _)%nat; [destruct (nth_error _ _); discriminate|].
        destruct (j0 =? _)%nat; discriminate. }
      intros a.
      apply (runs_chain _ (cursor_from j0)); [apply runs_tell; auto| |exact Hdown].
      intros _.
      apply (runs_chain _ (cursor_from j0)); [| |exact Hdown].
      { destruct a as [hd|r]; cbn [Martini.InvokeAction].
        - apply runs_Invoke; auto.
        - apply runs_bind; [apply Handle_runs|intros _; apply runs_ret]. }
      intros vals.
      apply (runs_chain _ (cursor_from j0)); [apply runs_tell; auto| |exact Hdown].
      intros _.
      apply (runs_chain _ (cursor_from (S j0))); [exact Hincr| |auto].
      intros _. apply runs_post; [|auto].
      apply runs_bind; [apply runs_written|intros wr].
      destruct wr; [apply runs_ret|exact Hstep]. }
    apply HC. unfold cursor_from. lia.
Qed.

(** The pipelines never exhaust their iteration bounds. *)
Lemma ServeHTTP_never_starves (m : Martini.Martini) (res : transport) (req : Request) :
  fst (Martini.ServeHTTP m res req) <> Starved.
Proof.
  unfold Martini.ServeHTTP, Martini.run.
  match goal with |- fst (bind get ?f ?w) <> _ =>
    change (bind get f w) with (f w w) end.
  cbn [Martini.createContext cindex].
  destruct (context_run_fuel m (S (List.length (Martini.handlers m)) - 0) 0
              ltac:(lia) (Martini.createContext m res req)) as [H _].
  - unfold cursor_from. cbn. lia.
  - exact H.
Qed.

Lemma start_never_starves (hs : list Handler) (w : world) :
  fst (start hs w) <> Starved.
Proof.
  destruct (start_runs hs 0 w) as [H _]; [unfold cursor_from; lia|exact H].
Qed.

(** ** The two claims on the pipelines *)

Lemma stops_once_written_nil : stops_once_written [].
Proof. intros _ l i w []. Qed.

Lemma ServeHTTP_unfold (m : Martini.Martini) (res : transport) (req : Request) :
  Martini.ServeHTTP m res req =
  Martini.run_n (S (List.length (Martini.handlers m))) m
    (Martini.createContext m res req).
Proof. reflexivity. Qed.

(** C3 (as stated, refuted): a middleware writes the status and then calls
    [Next]; the handler at the next cursor index is invoked although the
    response is written. *)
Lemma Next_after_write_invokes_next_handler :
  trace (snd (Martini.ServeHTTP writes_then_yields plain_sink sample_request)) =
  [Invoked Global 0 false; Yielded Global true; Invoked Global 1 true;
   Returned Global 1 []; Returned Global 0 []].
Proof. reflexivity. Qed.

(** C3 (amended): in both pipelines the run loop goes on to the next
    handler only while the response is unwritten, so that once the response
    wrapper reports written no handler at a later cursor index is invoked --
    in particular when a middleware writes and returns without calling
    [Next] -- unless a handler calls [Next] on the written response, which
    resumes the pipeline at the next cursor index.  Stated on the history of
    a request: if no [Next] was called on a written response, no handler
    was invoked on a written response.  The pipelines always terminate. *)
Theorem written_stops_pipelines (m : Martini.Martini) (res : transport)
    (req : Request) (hs : list Handler) (w0 : world) :
  Written (rw w0) = false ->
  stops_once_written (trace w0) ->
  stops_once_written (trace (snd (Martini.ServeHTTP m res req)))
  /\ stops_once_written (trace (snd (start hs w0)))
  /\ fst (Martini.ServeHTTP m res req) <> Starved
  /\ fst (start hs w0) <> Starved.
Proof.
  intros Hw Ht. repeat split.
  - rewrite ServeHTTP_unfold. apply settled_context_run.
    apply settled_unwritten; [apply stops_once_written_nil|reflexivity].
  - apply settled_start. apply settled_unwritten; assumption.
  - apply ServeHTTP_never_starves.
  - apply start_never_starves.
Qed.

Lemma written_stops_pipelines_witness :
  let w0 := Martini.createContext sample_application plain_sink sample_request in
  let hs := [Callable (CallWrite "done" (Return [])); Callable (Return [])] in
  stops_once_written
    (trace (snd (Martini.ServeHTTP sample_application plain_sink sample_request)))
  /\ stops_once_written (trace (snd (start hs w0)))
  /\ fst (Martini.ServeHTTP sample_application plain_sink sample_request) <> Starved
  /\ fst (start hs w0) <> Starved.
Proof.
  apply (written_stops_pipelines sample_application plain_sink sample_request
           [Callable (CallWrite "done" (Return [])); Callable (Return [])]
           (Martini.createContext sample_application plain_sink sample_request)).
  - reflexivity.
  - intros _ l i w H. simpl in H. destruct H.
Defined.

(** C4 (as stated, refuted): in the global pipeline the value returned by
    a handler is dropped: the return handler is not called, nothing reaches
    the sink, and the next handler runs. *)
Lemma global_return_values_dropped :
  let out := Martini.ServeHTTP returns_hello plain_sink sample_request in
  trace (snd out) =
    [Invoked Global 0 false; Returned Global 0 [Reflect.OfString "hello"];
     Invoked Global 1 false; Returned Global 1 []]
  /\ wire_of (rw (snd out)) = [].
Proof. split; reflexivity. Qed.

(** C4 (amended): in the run loop of the per-route pipeline, whenever an
    invoked handler produces one or more return values, those values are
    passed to the registered [ReturnHandler] before the next handler is
    invoked: in the history of a request every return with values is
    directly followed by the call of the return handler on them, and a
    one-handler chain leaves the response as the return handler made it.
    (The run loop of the global pipeline drops the values.) *)
Theorem route_return_values_interpreted (h : ReturnHandler.ReturnHandler)
    (m : Martini.Martini) (res : transport) (req : Request)
    (hs : list Handler) (w0 : world) (v : Reflect.Value) (vs : list Reflect.Value) :
  Martini.services m = Some h ->
  returns w0 = Some h ->
  returns_interpreted (trace w0) ->
  returns_interpreted (trace (snd (Martini.ServeHTTP m res req)))
  /\ returns_interpreted (trace (snd (start hs w0)))
  /\ (let w1 := snd (start [Callable (Return (v :: vs))] w0) in
      rw w1 = h (rw w0) (v :: vs)
      /\ trace w1 =
         trace w0 ++ [Invoked Routed 0 (Written (rw w0));
                      Returned Routed 0 (v :: vs);
                      Interpreted Routed (v :: vs)]).
Proof.
  intros Hm Hr Ht. repeat split.
  - rewrite ServeHTTP_unfold.
    apply (interpreting_context_run h). split; [exact Hm|apply returns_interpreted_nil].
  - apply (interpreting_start h hs w0). split; assumption.
  - unfold start, RouteContext.run, bind, modify, get, tell, written, ret.
    cbn [fst snd set_rindex rindex List.length Nat.sub RouteContext.run_n
         Nat.ltb Nat.leb nth_error bind get Invoke call ret tell modify record
         returns set_rw rw trace written].
    unfold bind, modify, get, tell, written, ret. cbn. rewrite Hr. cbn.
    destruct (Written (h (rw w0) (v :: vs))); reflexivity.
  - unfold start, RouteContext.run, bind, modify, get, tell, written, ret.
    cbn [fst snd set_rindex rindex List.length Nat.sub RouteContext.run_n
         Nat.ltb Nat.leb nth_error bind get Invoke call ret tell modify record
         returns set_rw rw trace written].
    unfold bind, modify, get, tell, written, ret. cbn. rewrite Hr. cbn.
    destruct (Written (h (rw w0) (v :: vs))); cbn; rewrite <- !app_assoc; reflexivity.
Qed.

Lemma route_return_values_interpreted_witness :
  let h := ReturnHandler.defaultReturnHandler in
  let w0 := Martini.createContext sample_application plain_sink sample_request in
  let hs := [Callable (Return [Reflect.OfString "a"]); Callable (Return [])] in
  returns_interpreted
    (trace (snd (Martini.ServeHTTP sample_application plain_sink sample_request)))
  /\ returns_interpreted (trace (snd (start hs w0)))
  /\ (let w1 := snd (start [Callable (Return (Reflect.OfInt "int" 404 :: [Reflect.OfString "gone"]))] w0) in
      rw w1 = h (rw w0) (Reflect.OfInt "int" 404 :: [Reflect.OfString "gone"])
      /\ trace w1 =
         trace w0 ++ [Invoked Routed 0 (Written (rw w0));
                      Returned Routed 0 (Reflect.OfInt "int" 404 :: [Reflect.OfString "gone"]);
                      Interpreted Routed (Reflect.OfInt "int" 404 :: [Reflect.OfString "gone"])]).
Proof.
  apply (route_return_values_interpreted ReturnHandler.defaultReturnHandler
           sample_application plain_sink sample_request
           [Callable (Return [Reflect.OfString "a"]); Callable (Return [])]
           (Martini.createContext sample_application plain_sink sample_request)
           (Reflect.OfInt "int" 404) [Reflect.OfString "gone"]).
  - reflexivity.
  - reflexivity.
  - apply returns_interpreted_nil.
Defined.

End PipelineFacts.

(** * Requests that no route matches *)

Module DispatchFacts.
Import RW Regexp Matcher Handlers Router RouteContext Spec MatcherFacts RouterFacts.

Lemma start_http_NotFound (w : world) :
  let out := start [http_NotFound] w in
  fst out = Ok tt
  /\ rw (snd out) = snd (Write ("404 page not found" +:+ String "010" "")
                          (WriteHeader 404 (rw w)))
  /\ params (snd out) = params w
  /\ trace (snd out) =
     trace w ++ [Invoked Routed 0 (Written (rw w)); Returned Routed 0 []].
Proof.
  unfold start, RouteContext.run, bind, modify, get, tell, written, ret.
  cbn [fst snd set_rindex rindex List.length Nat.sub RouteContext.run_n
       Nat.ltb Nat.leb nth_error bind get Invoke call ret tell modify record
       returns set_rw rw trace written http_NotFound].
  unfold bind, modify, get, tell, written, ret. cbn.
  rewrite <- app_assoc. repeat split.
Qed.

(** X1: when no registered route matches the request -- by method and
    structurally -- [Handle] runs the not-found handlers as a route
    pipeline, on the objects of the request as they are; [NotFound]
    replaces these handlers, without validating them; with the
    [http.NotFound] that [NewRouter] installs, the response is status 404
    followed by the body ["404 page not found\n"], the run ends normally
    and the binding of [Params] is left as it was. *)
Theorem Handle_not_found (r : router) (w : world) (hs : list Handler) :
  Forall (fun x => ~ (method_matches (method x) (Method (request w))
                      /\ structurally_matches x (Path (request w)))) (routes r) ->
  Handle r w = start (notFounds r) w
  /\ Handle (NotFound hs r) w = start hs w
  /\ (notFounds r = [http_NotFound] ->
      fst (Handle r w) = Ok tt
      /\ rw (snd (Handle r w)) =
         snd (Write ("404 page not found" +:+ String "010" "")
                (WriteHeader 404 (rw w)))
      /\ params (snd (Handle r w)) = params w).
Proof.
  intros H. split; [apply Handle_no_match, H|]. split.
  - apply (Handle_no_match (NotFound hs r) w). exact H.
  - intros Hnf. rewrite (Handle_no_match r w H), Hnf.
    destruct (start_http_NotFound w) as (H1 & H2 & H3 & _). auto.
Qed.

Lemma Handle_not_found_witness :
  let r := {| routes := [user_route "GET" []]; notFounds := [http_NotFound];
              groups := [] |} in
  let w := Martini.createContext Martini.New plain_sink
             {| Method := "POST"; Path := "/user/42" |} in
  Handle r w = start (notFounds r) w
  /\ Handle (NotFound [] r) w = start [] w
  /\ fst (Handle r w) = Ok tt
  /\ wire_of (rw (snd (Handle r w))) =
     [WireHeader 404; WireBody ("404 page not found" +:+ String "010" "")]
  /\ params (snd (Handle r w)) = None.
Proof.
  intros r w.
  assert (H : Forall (fun x => ~ (method_matches (method x) (Method (request w))
                      /\ structurally_matches x (Path (request w)))) (routes r)).
  { constructor; [|constructor]. intros [Hm _]. vm_compute in Hm.
    destruct Hm as [Hm|[Hm|[_ Hm]]]; discriminate Hm. }
  destruct (Handle_not_found r w [] H) as (H1 & H2 & H3).
  destruct (H3 eq_refl) as (H4 & H5 & H6).
  split; [exact H1|]. split; [exact H2|]. split; [exact H4|].
  split; [rewrite H5; reflexivity|exact H6].
Defined.

End DispatchFacts.

(** * Registration and lookup of routes *)

Module RegistrationFacts.
Import RW Regexp Matcher Handlers Router RouteContext Spec MatcherFacts RouterFacts
       PatternFacts ReverseFacts GroupFacts.

(** [Validate] accepts a list of functions and nothing else. *)
Lemma Validate_accepts (hs : list Handler) :
  Validate hs = Ok tt <-> forallb callable hs = true.
Proof.
  induction hs as [|h hs IH]; [split; reflexivity|].
  destruct h as [f| |]; cbn [Validate validateHandler rbind forallb callable andb];
    [exact IH|split; discriminate..].
Qed.

(** It fails as [validateHandler] does on the first handler that is not a
    function. *)
Lemma Validate_refuses (pre post : list Handler) (h : Handler) :
  forallb callable pre = true ->
  callable h = false ->
  Validate (pre ++ h :: post) = validateHandler h.
Proof.
  intros Hpre Hh. induction pre as [|x pre IH].
  - destruct h as [f| |]; [discriminate Hh|reflexivity..].
  - cbn [forallb] in Hpre. apply andb_true_iff in Hpre as [Hx Hpre].
    destruct x as [f| |]; try discriminate Hx.
    cbn [app Validate validateHandler rbind]. exact (IH Hpre).
Qed.

(** [addRoute] in two steps: compilation under the prefixes and with the
    middleware of the active groups, then validation. *)
Lemma addRoute_steps (m p : string) (hs : list Handler) (r : router) :
  addRoute m p hs r =
  rbind (newRoute m (prefix_of (groups r) +:+ p) (middleware_of (groups r) ++ hs))
    (fun rt =>
       rbind (Validate (middleware_of (groups r) ++ hs))
         (fun _ => Ok (rt, {| routes := routes r ++ [rt]; notFounds := notFounds r;
                              groups := groups r |}))).
Proof.
  unfold addRoute.
  assert (E : (if (0 <? List.length (groups r))%nat
               then let '(groupPattern, h) :=
                      fold_left (fun '(gp, h) g => (gp +:+ gpattern g, h ++ ghandlers g))
                        (groups r) ("", []) in
                    (groupPattern +:+ p, h ++ hs)
               else (p, hs)) =
              (prefix_of (groups r) +:+ p, middleware_of (groups r) ++ hs)).
  { destruct (groups r) as [|g gs] eqn:Eg; [reflexivity|].
    cbn [List.length Nat.ltb Nat.leb]. rewrite group_fold. reflexivity. }
  rewrite E.
  destruct (newRoute m _ _) as [rt|msg| |] eqn:En; cbn [rbind]; try reflexivity.
  apply newRoute_fields in En. destruct En as (_ & _ & -> & _). reflexivity.
Qed.

(** X2: [addRoute] compiles the pattern under the concatenated prefixes of
    the active groups and validates the middleware of these groups followed
    by the given handlers.  When the pattern does not compile it panics with
    the error of the compilation, whatever the handlers are.  When it
    compiles and every handler is a function, exactly that route is appended
    at the end of the table and nothing else of the router changes.
    Otherwise the first handler that is not a function decides the panic:
    ["martini handler must be a callable func"] for a value of another type,
    and the nil dereference of the Go runtime for the nil handler.  For a
    well-formed pattern of plain text, names and double wildcards the
    registration therefore succeeds exactly when every handler is a
    function. *)
Theorem addRoute_validates (m p : string) (hs : list Handler) (r : router) :
  let pattern_ := prefix_of (groups r) +:+ p in
  let all := middleware_of (groups r) ++ hs in
  (forall msg, newRoute m pattern_ all = Panic msg ->
               addRoute m p hs r = Panic msg)
  /\ (forall rt,
        newRoute m pattern_ all = Ok rt ->
        (forallb callable all = true ->
         addRoute m p hs r =
         Ok (rt, {| routes := routes r ++ [rt]; notFounds := notFounds r;
                    groups := groups r |}))
        /\ (forall pre h post,
              all = pre ++ h :: post ->
              forallb callable pre = true ->
              (h = NotCallable ->
               addRoute m p hs r = Panic "martini handler must be a callable func")
              /\ (h = NilHandler -> addRoute m p hs r = Panic nil_dereference)))
  /\ (forall ps,
        well_formed ps = true ->
        pattern_ = render ps ->
        (forallb callable all = true <->
         exists rt r', addRoute m p hs r = Ok (rt, r'))).
Proof.
  intros pattern_ all. rewrite addRoute_steps. fold pattern_ all.
  split; [|split].
  - intros msg ->. reflexivity.
  - intros rt ->. cbn [rbind]. split.
    + intros Hall. apply Validate_accepts in Hall. rewrite Hall. reflexivity.
    + intros pre h post Hall Hpre. unfold all in *. rewrite Hall. split; intros ->.
      * rewrite (Validate_refuses pre post NotCallable Hpre eq_refl). reflexivity.
      * rewrite (Validate_refuses pre post NilHandler Hpre eq_refl). reflexivity.
  - intros ps Hwf ->. rewrite (newRoute_pieces m ps all Hwf). cbn [rbind]. split.
    + intros Hall. apply Validate_accepts in Hall. rewrite Hall.
      cbn [rbind]. eexists. eexists. reflexivity.
    + intros (rt & r' & H). apply Validate_accepts.
      destruct (Validate all) as [[]|msg| |]; [reflexivity|discriminate H..].
Qed.

(** [findRoute] returns the first route of the given name, in registration
    order. *)
Lemma findRoute_first (rs : list route) (n : string) (rt : route) :
  findRoute rs n = Some rt <->
  exists pre post, rs = pre ++ rt :: post
                   /\ name rt = n
                   /\ Forall (fun x => name x <> n) pre.
Proof.
  split.
  - induction rs as [|x rs IH]; [discriminate|]. cbn [findRoute].
    destruct (String.eqb_spec (name x) n) as [E|E].
    + intros H. injection H as ->. exists [], rs. auto.
    + intros H. destruct (IH H) as (pre & post & -> & Hn & Hpre).
      exists (x :: pre), post. auto.
  - intros (pre & post & -> & Hn & Hpre). induction Hpre as [|x pre Hx _ IH].
    + cbn. apply String.eqb_eq in Hn. rewrite Hn. reflexivity.
    + cbn [app findRoute]. apply String.eqb_neq in Hx. rewrite Hx. exact IH.
Qed.

Lemma URLFor_first_named_aux (r : router) (n : string) (params_ : list arg) :
  URLFor r n params_ =
  match findRoute (routes r) n with
  | None => Panic "route not found"
  | Some rt =>
      if existsb is_other params_
      then Panic "Arguments passed to URLFor must be integers or strings"
      else Ok (fill false (pattern rt) (coerced params_))
  end.
Proof.
  unfold URLFor. destruct (findRoute (routes r) n) as [rt|]; [|reflexivity].
  rewrite coerce_coerced. destruct (existsb is_other params_); [reflexivity|].
  cbn [rbind app]. apply URLWith_fill.
Qed.

(** X3: [URLFor] returns a URL exactly when a route of that name is
    registered and every argument is an int, a string or [nil]; the URL is
    then built from the pattern of the first route of that name in
    registration order, with the string forms of the arguments, [nil]
    dropped. *)
Theorem URLFor_first_named (r : router) (n : string) (params_ : list arg)
    (u : string) :
  URLFor r n params_ = Ok u <->
  exists pre rt post,
    routes r = pre ++ rt :: post
    /\ name rt = n
    /\ Forall (fun x => name x <> n) pre
    /\ existsb is_other params_ = false
    /\ u = fill false (pattern rt) (coerced params_).
Proof.
  rewrite URLFor_first_named_aux. split.
  - destruct (findRoute (routes r) n) as [rt|] eqn:E; [|discriminate].
    destruct (existsb is_other params_) eqn:Eo; [discriminate|].
    intros H. injection H as <-.
    apply findRoute_first in E. destruct E as (pre & post & Hr & Hn & Hpre).
    exists pre, rt, post. auto.
  - intros (pre & rt & post & Hr & Hn & Hpre & Ho & ->).
    assert (E : findRoute (routes r) n = Some rt)
      by (apply findRoute_first; exists pre, post; auto).
    rewrite E, Ho. reflexivity.
Qed.

Lemma findRoute_snoc (rs : list route) (x : route) (n : string) :
  findRoute (rs ++ [x]) n =
  match findRoute rs n with
  | Some rt => Some rt
  | None => if String.eqb (name x) n then Some x else None
  end.
Proof.
  induction rs as [|y rs IH]; cbn [app findRoute]; [reflexivity|].
  destruct (String.eqb (name y) n); [reflexivity|exact IH].
Qed.

(** X4: after a route is added through a verb method and named, the names
    that are not found are the names that were not found before, the new
    name excepted; every lookup that succeeded before returns the same
    route (a name already in use keeps its earlier route); and when the
    name was new, [URLFor] without arguments returns the pattern with the
    prefixes of the active groups in front. *)
Theorem named_route_lookup (v : Registration.verb) (p : string)
    (hs : list Handler) (n : string) (r r' : router) :
  Registration.perform (Registration.Route v p hs n) r = Ok r' ->
  (forall n',
     findRoute (routes r') n' = None <->
     findRoute (routes r) n' = None /\ n' <> n)
  /\ (forall n' rt, findRoute (routes r) n' = Some rt ->
                    findRoute (routes r') n' = Some rt)
  /\ (findRoute (routes r) n = None ->
      URLFor r' n [] = Ok (prefix_of (groups r) +:+ p)).
Proof.
  cbn [Registration.perform]. intros H.
  destruct (addRoute (Registration.method_of v) p hs r) as [[rt r1]|msg| |] eqn:Ea;
    cbn [rbind] in H; try discriminate.
  injection H as <-.
  destruct (addRoute_entry _ _ _ _ _ _ Ea) as (He & Hr & _ & _).
  rewrite URLFor_first_named_aux. cbn [routes]. rewrite Hr, removelast_last.
  split; [|split].
  - intros n'. rewrite findRoute_snoc. cbn [Name name].
    destruct (findRoute (routes r) n') as [x|].
    + split; [discriminate|intros [E _]; discriminate E].
    + destruct (String.eqb_spec n n') as [->|Hne].
      * split; [discriminate|intros [_ E]; congruence].
      * split; [intros _; split; [reflexivity|congruence]|reflexivity].
  - intros n' x Hx. rewrite findRoute_snoc, Hx. reflexivity.
  - intros Hn. rewrite findRoute_snoc, Hn.
    cbn [Name name pattern existsb coerced]. rewrite String.eqb_refl.
    rewrite fill_nil. unfold entry_of in He. injection He as _ Hp _ _.
    unfold Name. cbn [pattern]. rewrite Hp. reflexivity.
Qed.

Lemma named_route_lookup_witness :
  let r := {| routes := [user_route "GET" []]; notFounds := [];
              groups := [{| gpattern := "/api"; ghandlers := [] |}] |} in
  let r' := router_of (Registration.perform
                         (Registration.Route Registration.Post "/items/:id" [] "item") r) in
  (forall n',
     findRoute (routes r') n' = None <->
     findRoute (routes r) n' = None /\ n' <> "item")
  /\ (forall n' rt, findRoute (routes r) n' = Some rt ->
                    findRoute (routes r') n' = Some rt)
  /\ URLFor r' "item" [] = Ok "/api/items/:id".
Proof.
  intros r r'.
  destruct (named_route_lookup Registration.Post "/items/:id" [] "item" r r')
    as (H1 & H2 & H3).
  { vm_compute. reflexivity. }
  split; [exact H1|]. split; [exact H2|]. apply H3. reflexivity.
Defined.

End RegistrationFacts.

(** * The methods available for a path *)

Module MethodsFacts.
Import RW Regexp Matcher Handlers Router RouteContext Spec MatcherFacts RouterFacts.

Lemma hasMethod_In (ms : list string) (m : string) :
  hasMethod ms m = true <-> In m ms.
Proof.
  unfold hasMethod. rewrite existsb_exists. split.
  - intros (x & Hx & E). apply String.eqb_eq in E. subst. exact Hx.
  - intros H. exists m. split; [exact H|apply String.eqb_refl].
Qed.

Lemma hasMethod_not_In (ms : list string) (m : string) :
  hasMethod ms m = false <-> ~ In m ms.
Proof.
  rewrite <- hasMethod_In. destruct (hasMethod ms m); split; congruence.
Qed.

Lemma MethodsFor_fold (path : string) (rs : list route) :
  forall acc,
    fold_left
      (fun methods rt =>
         let matches := FindStringSubmatch (regex rt) path in
         if (0 <? List.length matches)%nat && String.eqb (nth 0 matches "") path
            && negb (hasMethod methods (method rt))
         then methods ++ [method rt] else methods) rs acc =
    acc ++ first_occurrences acc
             (map method (List.filter (fun rt => matches_whole rt path) rs)).
Proof.
  induction rs as [|rt rs IH]; intros acc.
  - cbn. rewrite app_nil_r. reflexivity.
  - cbn [fold_left List.filter]. fold (matches_whole rt path).
    destruct (matches_whole rt path); cbn [andb map first_occurrences].
    + destruct (hasMethod acc (method rt)); cbn [negb].
      * apply IH.
      * rewrite IH, <- app_assoc. reflexivity.
    + apply IH.
Qed.

Lemma first_occurrences_In (l : list string) :
  forall seen x, In x (first_occurrences seen l) <-> In x l /\ ~ In x seen.
Proof.
  induction l as [|y l IH]; intros seen x; cbn [first_occurrences].
  - cbn. tauto.
  - destruct (hasMethod seen y) eqn:E.
    + apply hasMethod_In in E. rewrite IH. cbn [In]. split.
      * tauto.
      * intros [[->|H] Hn]; [contradiction|tauto].
    + apply hasMethod_not_In in E. cbn [In]. rewrite IH, in_app_iff. cbn [In].
      split.
      * intros [->|[H Hn]]; [tauto|]. split; [tauto|]. intros Hs. apply Hn. tauto.
      * intros [[->|H] Hn]; [tauto|].
        destruct (String.eqb_spec y x) as [->|Hne]; [tauto|].
        right. split; [exact H|]. intros [Hs|[Hs|[]]]; [tauto|congruence].
Qed.

Lemma first_occurrences_NoDup (l : list string) :
  forall seen, List.NoDup (first_occurrences seen l).
Proof.
  induction l as [|y l IH]; intros seen; cbn [first_occurrences].
  - apply List.NoDup_nil.
  - destruct (hasMethod seen y); [apply IH|].
    apply List.NoDup_cons; [|apply IH].
    rewrite first_occurrences_In, in_app_iff. cbn [In]. tauto.
Qed.

Lemma matches_whole_spec (rt : route) (path : string) :
  matches_whole rt path = true <-> structurally_matches rt path.
Proof.
  unfold matches_whole, structurally_matches, full_match.
  rewrite whole_path_match. split.
  - intros (cs & H & _). exists cs. exact H.
  - intros (cs & H). exists cs. split; [exact H|].
    apply FindStringSubmatch_here in H. exact H.
Qed.

(** X5: [MethodsFor] returns the methods of the routes whose pattern
    matches the whole path, in registration order and without repetitions:
    a method is in the result exactly when some route with that method
    matches the path structurally. *)
Theorem MethodsFor_spec (r : router) (path : string) :
  MethodsFor r path =
    first_occurrences []
      (map method (List.filter (fun rt => matches_whole rt path) (routes r)))
  /\ List.NoDup (MethodsFor r path)
  /\ (forall m, In m (MethodsFor r path) <->
                exists rt, In rt (routes r) /\ method rt = m
                           /\ structurally_matches rt path).
Proof.
  assert (E : MethodsFor r path =
              first_occurrences []
                (map method (List.filter (fun rt => matches_whole rt path) (routes r))))
    by (unfold MethodsFor; rewrite MethodsFor_fold; reflexivity).
  split; [exact E|]. rewrite E. split; [apply first_occurrences_NoDup|].
  intros m. rewrite first_occurrences_In, in_map_iff. split.
  - intros [(rt & Hm & Hin) _]. apply filter_In in Hin as [Hin Hw].
    exists rt. rewrite <- matches_whole_spec. auto.
  - intros (rt & Hin & Hm & Hs). split; [|intros []].
    exists rt. split; [exact Hm|]. apply filter_In.
    rewrite matches_whole_spec. auto.
Qed.

End MethodsFacts.

(** * Reverse routing and matching, round trip *)

Module RoundTripFacts.
Import RW Regexp Matcher Handlers Router RouteContext Spec MatcherFacts RouterFacts
       PatternFacts ReverseFacts RegistrationFacts.






End RoundTripFacts.

(** * The byte count of a response *)

Module WriterFacts.
Import RW Spec RWFacts.

Lemma wrap_int_add (a b : Z) : wrap_int (wrap_int a + b) = wrap_int (a + b).
Proof.
  unfold wrap_int.
  replace ((a + 2 ^ 63) mod 2 ^ 64 - 2 ^ 63 + b + 2 ^ 63)%Z
    with ((a + 2 ^ 63) mod 2 ^ 64 + b)%Z by lia.
  rewrite Z.add_mod_idemp_l by lia.
  replace (a + 2 ^ 63 + b)%Z with (a + b + 2 ^ 63)%Z by lia. reflexivity.
Qed.

Lemma accepted_apply_op (o : op) (rw : responseWriter) :
  accepted (ResponseWriter (apply_op o rw)) = accepted (ResponseWriter rw).
Proof.
  destruct o as [f|s|b|]; cbn [apply_op].
  - reflexivity.
  - apply WriteHeader_fields.
  - unfold Write. cbn [snd ResponseWriter send accepted].
    destruct (Written rw); [reflexivity|apply WriteHeader_fields].
  - unfold Flush. destruct (flusher (ResponseWriter rw)); reflexivity.
Qed.

Lemma Size_apply_op (o : op) (rw : responseWriter) :
  Size (apply_op o rw) =
  match o with
  | OpWrite b => wrap_int (Size rw + accepted (ResponseWriter rw) b)
  | _ => Size rw
  end.
Proof.
  destruct o as [f|s|b|]; cbn [apply_op].
  - reflexivity.
  - apply WriteHeader_fields.
  - unfold Write, Size. cbn [snd size].
    destruct (Written rw); [reflexivity|].
    destruct (WriteHeader_fields StatusOK rw) as (_ & Hs & _ & Ha & _).
    rewrite Hs, Ha. reflexivity.
  - unfold Flush. destruct (flusher (ResponseWriter rw)); reflexivity.
Qed.

Lemma apply_ops_cons (o : op) (ops : list op) (rw : responseWriter) :
  apply_ops (o :: ops) rw = apply_ops ops (apply_op o rw).
Proof. reflexivity. Qed.

Lemma bytes_accepted_apply_op (o : op) (ops : list op) (rw : responseWriter) :
  bytes_accepted (ResponseWriter (apply_op o rw)) ops =
  bytes_accepted (ResponseWriter rw) ops.
Proof.
  induction ops as [|o' ops IH]; [reflexivity|].
  destruct o'; cbn [bytes_accepted]; rewrite ?IH, ?accepted_apply_op; reflexivity.
Qed.

Lemma Size_apply_ops (ops : list op) :
  forall rw z,
    Size rw = wrap_int z ->
    Size (apply_ops ops rw) =
    wrap_int (z + bytes_accepted (ResponseWriter rw) ops).
Proof.
  induction ops as [|o ops IH]; intros rw z Hz.
  - cbn. rewrite Hz. f_equal. lia.
  - rewrite apply_ops_cons.
    destruct o as [f|s|b|].
    + rewrite (IH _ z), bytes_accepted_apply_op; [reflexivity|].
      rewrite Size_apply_op. exact Hz.
    + rewrite (IH _ z), bytes_accepted_apply_op; [reflexivity|].
      rewrite Size_apply_op. exact Hz.
    + rewrite (IH _ (z + accepted (ResponseWriter rw) b)%Z), bytes_accepted_apply_op.
      * cbn [bytes_accepted]. f_equal. lia.
      * rewrite Size_apply_op, Hz. apply wrap_int_add.
    + rewrite (IH _ z), bytes_accepted_apply_op; [reflexivity|].
      rewrite Size_apply_op. exact Hz.
Qed.

Lemma Status_quiet (o : op) (rw : responseWriter) :
  quiet o = true ->
  Status (apply_op o rw) = Status rw /\ Size (apply_op o rw) = Size rw
  /\ Written (apply_op o rw) = Written rw.
Proof.
  destruct o as [f|s|b|]; try discriminate; intros _; cbn [apply_op].
  - repeat split.
  - unfold Flush. destruct (flusher (ResponseWriter rw)); repeat split.
Qed.

(** X7: after any sequence of operations on a fresh wrapper, [Size] is the
    sum of the byte counts that the underlying writer reported for the
    writes, in 64-bit wrap-around arithmetic (so the sum itself while it
    fits); [Before] and [Flush] alone leave the size at zero and the
    response unwritten. *)
Theorem Size_accounts (t : transport) (ops : list op) :
  let rw := apply_ops ops (NewResponseWriter t) in
  Size rw = wrap_int (bytes_accepted t ops)
  /\ (in_int (bytes_accepted t ops) -> Size rw = bytes_accepted t ops)
  /\ (forallb quiet ops = true -> Size rw = 0%Z /\ Written rw = false).
Proof.
  intros rw.
  assert (H : Size rw = wrap_int (bytes_accepted t ops)).
  { unfold rw. rewrite (Size_apply_ops ops (NewResponseWriter t) 0 eq_refl).
    reflexivity. }
  split; [exact H|]. split.
  - intros Hin. rewrite H. apply wrap_int_small, Hin.
  - intros Hq. unfold rw. clear H rw.
    assert (G : forall rw0, Size (apply_ops ops rw0) = Size rw0
                            /\ Written (apply_ops ops rw0) = Written rw0).
    { induction ops as [|o ops IH]; intros rw0; [auto|].
      cbn [forallb] in Hq. apply andb_true_iff in Hq as [Ho Hq].
      rewrite apply_ops_cons. destruct (IH Hq (apply_op o rw0)) as [-> ->].
      destruct (Status_quiet o rw0 Ho) as (_ & -> & ->). auto. }
    destruct (G (NewResponseWriter t)) as [-> ->]. auto.
Qed.

End WriterFacts.

(** * The middleware stack *)

Module MartiniFacts.
Import RW Handlers Router Martini Spec RegistrationFacts.

(** The loop of [Handlers] is the validation of the handlers in order; it
    keeps those in front of the first one that is refused. *)
Lemma use_each_spec (hs : list Handler) :
  forall m,
    use_each hs m =
    (Validate hs,
     {| handlers := handlers m ++ callable_prefix hs; action := action m;
        services := services m |}).
Proof.
  induction hs as [|h hs IH]; intros m.
  - cbn. rewrite app_nil_r. destruct m; reflexivity.
  - destruct h as [f| |]; cbn [use_each Use validateHandler rbind Validate callable
                               callable_prefix].
    + rewrite IH. cbn [handlers action services]. rewrite <- app_assoc. reflexivity.
    + rewrite app_nil_r. destruct m; reflexivity.
    + rewrite app_nil_r. destruct m; reflexivity.
Qed.

Lemma callable_prefix_all (hs : list Handler) :
  forallb callable hs = true -> callable_prefix hs = hs.
Proof.
  induction hs as [|h hs IH]; [reflexivity|]. cbn [forallb callable_prefix].
  intros H. apply andb_true_iff in H as [-> H]. rewrite (IH H). reflexivity.
Qed.

Lemma callable_prefix_stops (pre post : list Handler) (h : Handler) :
  forallb callable pre = true ->
  callable h = false ->
  callable_prefix (pre ++ h :: post) = pre.
Proof.
  intros Hpre Hh. induction pre as [|x pre IH].
  - cbn [app callable_prefix]. rewrite Hh. reflexivity.
  - cbn [forallb] in Hpre. apply andb_true_iff in Hpre as [Hx Hpre].
    cbn [app callable_prefix]. rewrite Hx, (IH Hpre). reflexivity.
Qed.

(** X8: [Handlers] discards the middleware stack and leaves the action and
    the services alone.  It returns normally exactly when every given
    handler is a function, and the stack is then the given handlers in
    order.  Otherwise it panics at the first handler that is not a function
    -- with ["martini handler must be a callable func"] for a value of
    another type, with the nil dereference of the Go runtime for the nil
    handler -- and the stack is left holding the handlers in front of that
    one, the former stack being lost. *)
Theorem SetHandlers_replaces (hs : list Handler) (m : Martini) :
  let out := SetHandlers hs m in
  snd out = {| handlers := callable_prefix hs; action := action m;
               services := services m |}
  /\ (fst out = Ok tt <-> forallb callable hs = true)
  /\ (forallb callable hs = true -> callable_prefix hs = hs)
  /\ (forall pre h post,
        hs = pre ++ h :: post ->
        forallb callable pre = true ->
        callable h = false ->
        callable_prefix hs = pre
        /\ (h = NotCallable ->
            fst out = Panic "martini handler must be a callable func")
        /\ (h = NilHandler -> fst out = Panic nil_dereference)).
Proof.
  intros out. unfold out, SetHandlers. rewrite use_each_spec. cbn [fst snd handlers app].
  split; [reflexivity|]. split; [apply Validate_accepts|].
  split; [apply callable_prefix_all|].
  intros pre h post -> Hpre Hh.
  split; [apply callable_prefix_stops; assumption|].
  rewrite (Validate_refuses pre post h Hpre Hh).
  split; intros ->; reflexivity.
Qed.

End MartiniFacts.

(** * Single return values, from handler to sink *)

Module InterpreterFacts.
Import RW Reflect ReturnHandler Handlers RouteContext Spec RWFacts ReturnFacts.

(** A route of one handler that returns [vals], some values. *)
Lemma start_returning (w0 : world) (h : ReturnHandler.ReturnHandler)
    (v : Value) (vs : list Value) :
  returns w0 = Some h ->
  rw (snd (start [Callable (Return (v :: vs))] w0)) = h (rw w0) (v :: vs)
  /\ fst (start [Callable (Return (v :: vs))] w0) = Ok tt.
Proof.
  intros Hr.
  unfold start, RouteContext.run, bind, modify, get, tell, written, ret.
  cbn [fst snd set_rindex rindex List.length Nat.sub RouteContext.run_n
       Nat.ltb Nat.leb nth_error bind get Invoke call ret tell modify record
       returns set_rw rw trace written].
  unfold bind, modify, get, tell, written, ret. cbn. rewrite Hr. cbn.
  destruct (Written (h (rw w0) (v :: vs))); split; reflexivity.
Qed.

(** X9: what reaches the sink when the single handler of a route returns
    one value and the response is unwritten, under the default return
    handler: the before-functions, status 200 and then the string form of
    the value.  A lone int is not a status: its body is ["<T Value>"] for
    its type [T].  A nil interface or nil pointer gives
    ["<invalid Value>"]; a pointer to a string gives the string; a pointer
    to a pointer is unwrapped once only; a slice gives its bytes when its
    elements are of kind [Uint8] and ["<T Value>"] otherwise. *)
Theorem lone_return_values (w0 : world) (ty : string) :
  returns w0 = Some defaultReturnHandler ->
  Written (rw w0) = false ->
  let sent v := wire_of (rw (snd (start [Callable (Return [v])] w0))) in
  let head := wire_of (rw w0) ++ map WireBefore (rev (beforeFuncs (rw w0)))
              ++ [WireHeader 200] in
  (forall n,
     sent (OfInt ty n) = head ++ [WireBody ("<" +:+ ty +:+ " Value>")]
     /\ Status (rw (snd (start [Callable (Return [OfInt ty n])] w0))) = 200%Z)
  /\ sent (OfInterface ty ZeroValue) = head ++ [WireBody "<invalid Value>"]
  /\ sent (OfPtr ty ZeroValue) = head ++ [WireBody "<invalid Value>"]
  /\ (forall s, sent (OfPtr ty (OfString s)) = head ++ [WireBody s])
  /\ (forall ty' v,
        sent (OfPtr ty (OfPtr ty' v)) =
        head ++ [WireBody ("<" +:+ ty' +:+ " Value>")])
  /\ (forall e d,
        sent (OfSlice ty e d) =
        head ++ [WireBody (if Kind_eqb e Uint8 then d
                           else "<" +:+ ty +:+ " Value>")]).
Proof.
  intros Hr Hw sent head.
  assert (H : forall v, sent v = head ++ [WireBody (payload v)]).
  { intros v. unfold sent, head.
    destruct (start_returning w0 _ v [] Hr) as [-> _].
    rewrite defaultReturnHandler_one, Write_wire, Hw, <- !app_assoc. reflexivity. }
  split; [|split; [|split; [|split; [|split]]]]; try (intros; rewrite H; reflexivity).
  intros n. rewrite H. split; [reflexivity|].
    destruct (start_returning w0 _ (OfInt ty n) [] Hr) as [-> _].
    rewrite defaultReturnHandler_one. unfold Status.
    apply (Write_unwritten _ _ Hw).
Qed.

Lemma lone_return_values_witness :
  let w0 := Martini.createContext Martini.New plain_sink sample_request in
  let sent v := wire_of (rw (snd (start [Callable (Return [v])] w0))) in
  sent (OfInt "int" 404) = [WireHeader 200; WireBody "<int Value>"]
  /\ Status (rw (snd (start [Callable (Return [OfInt "int" 404])] w0))) = 200%Z
  /\ sent (OfPtr "*string" ZeroValue) = [WireHeader 200; WireBody "<invalid Value>"]
  /\ sent (OfPtr "*string" (OfString "a")) = [WireHeader 200; WireBody "a"]
  /\ sent (OfSlice "[]int" Int "") = [WireHeader 200; WireBody "<[]int Value>"].
Proof.
  intros w0 sent.
  destruct (lone_return_values w0 "int" eq_refl eq_refl) as (H1 & _).
  destruct (lone_return_values w0 "*string" eq_refl eq_refl) as (_ & _ & H3 & H4 & _).
  destruct (lone_return_values w0 "[]int" eq_refl eq_refl) as (_ & _ & _ & _ & _ & H6).
  destruct (H1 404%Z) as [Ha Hb].
  split; [exact Ha|]. split; [exact Hb|]. split; [exact H3|].
  split; [exact (H4 "a")|exact (H6 Int "")].
Defined.

End InterpreterFacts.

(** * Parameter names that do not compile *)

Module NameFacts.
Import RW Regexp Matcher Handlers Router Spec MatcherFacts RouterFacts PatternFacts.

Lemma span_app (p : ascii -> bool) (a b : string) :
  all_chars p a = true ->
  span p (a +:+ b) = (a +:+ fst (span p b), snd (span p b)).
Proof.
  intros Ha. induction a as [|c a IH].
  - rewrite !append_nil_l. destruct (span p b); reflexivity.
  - simpl in Ha. apply andb_true_iff in Ha as [Hc Ha].
    rewrite !append_cons. cbn [span]. rewrite Hc, (IH Ha). reflexivity.
Qed.

Lemma lex_name_bad (n : string) :
  forall (acc : string) (c : ascii) (y : string),
    all_chars is_word n = true ->
    is_word c = false ->
    Ascii.eqb c ">" = false ->
    lex (LName acc) (n +:+ String c y) = SyntaxError.
Proof.
  induction n as [|d n IH]; intros acc c y Hn Hc Hgt.
  - rewrite append_nil_l, lex_cons. cbn [step]. rewrite Hgt, Hc. reflexivity.
  - simpl in Hn. apply andb_true_iff in Hn as [Hd Hn].
    rewrite append_cons, lex_cons. cbn [step].
    rewrite (word_not_closing d Hd), Hd. cbn [obind].
    rewrite (IH _ c y Hn Hc Hgt). reflexivity.
Qed.

Lemma Compile_bad_name (lit n : string) (c : ascii) (y : string) :
  all_chars plain_char lit = true ->
  all_chars is_word n = true ->
  is_word c = false ->
  Ascii.eqb c ">" = false ->
  Compile (lit +:+ "(?P<" +:+ n +:+ String c y) = SyntaxError.
Proof.
  intros Hlit Hn Hc Hgt. unfold Compile.
  rewrite (lex_plain _ _ Hlit).
  rewrite !append_cons, append_nil_l.
  do 4 (rewrite lex_cons; cbn [step step_normal obind Ascii.eqb Bool.eqb app]).
  rewrite (lex_name_bad n "" c y Hn Hc Hgt). reflexivity.
Qed.

Lemma first_pass_bad_name (lit n : string) (c : ascii) (tail : string) :
  all_chars plain_char lit = true ->
  all_chars is_word n = true ->
  name_char c = true ->
  exists z,
    fst (ReplaceAllStringFunc param_re (lit +:+ String ":" (n +:+ String c tail))
           first_pass tt) =
    lit +:+ "(?P<" +:+ n +:+ String c z.
Proof.
  intros Hlit Hn Hc. unfold ReplaceAllStringFunc.
  destruct (replace_all_copy param_re first_pass (fun c => negb (Ascii.eqb ":" c))
              param_token_no_match lit (String ":" (n +:+ String c tail))
              (S (String.length (lit +:+ String ":" (n +:+ String c tail)))) false tt)
    as (a' & k & Hk & ->).
  { apply (all_chars_impl plain_char); [apply plain_not_colon|exact Hlit]. }
  { lia. }
  destruct (span_spec name_char tail) as (Ht & Hv' & Hr').
  destruct (span name_char tail) as [v' r']. cbn [fst snd] in *.
  assert (Hv : all_chars name_char (n +:+ String c v') = true).
  { rewrite all_chars_app. cbn [all_chars]. rewrite Hc, Hv'.
    rewrite (all_chars_impl is_word _ n word_name_char Hn). reflexivity. }
  assert (Hs : String ":" (n +:+ String c tail) =
               String ":" ((n +:+ String c v') +:+ r')).
  { rewrite Ht at 1. rewrite append_assoc, append_cons. reflexivity. }
  rewrite Hs. destruct k as [|k]; [simpl in Hk; lia|].
  cbn [replace_all].
  destruct (n +:+ String c v') as [|c0 v0] eqn:Ev.
  { destruct n; discriminate Ev. }
  rewrite (match_here_param_token c0 v0 r' Hv Hr'). cbn [nth first_pass tail_of].
  assert (Hlt : (String.length r' <? String.length (String ":" (String c0 v0 +:+ r')))%nat
                = true).
  { apply Nat.ltb_lt. simpl. rewrite length_append. lia. }
  rewrite Hlt.
  destruct (replace_all param_re first_pass k true r' tt) as [tail0 st2].
  cbn [fst]. exists (v' +:+ ">[^/#?]+)" +:+ tail0).
  rewrite <- Ev. rewrite !append_assoc, !append_cons. reflexivity.
Qed.

Lemma second_pass_keeps_prefix (pre z : string) :
  all_chars (fun c => negb (Ascii.eqb "*" c)) pre = true ->
  exists t,
    fst (ReplaceAllStringFunc wildcard_re (pre +:+ z) second_pass 0%nat) = pre +:+ t.
Proof.
  intros Hp. unfold ReplaceAllStringFunc.
  destruct (replace_all_copy wildcard_re second_pass (fun c => negb (Ascii.eqb "*" c))
              wildcard_token_no_match pre z (S (String.length (pre +:+ z))) false 0%nat
              Hp ltac:(lia)) as (a' & k & Hk & ->).
  destruct (replace_all wildcard_re second_pass k a' z 0%nat) as [t st].
  exists t. reflexivity.
Qed.

(** X10: a parameter name is cut at the characters of the token, not at
    the characters that a group name allows.  A pattern whose first token
    [:name] is followed directly by a character that belongs to tokens but
    is neither a letter, a digit nor an underscore (a hyphen, say) makes
    [newRoute] panic: the expression generated for it does not compile. *)
Theorem newRoute_rejects_name (m lit n : string) (c : ascii) (tail : string)
    (hs : list Handler) :
  all_chars plain_char lit = true ->
  all_chars is_word n = true ->
  name_char c = true ->
  is_word c = false ->
  c <> ">"%char ->
  c <> "*"%char ->
  exists msg, newRoute m (lit +:+ String ":" (n +:+ String c tail)) hs = Panic msg.
Proof.
  intros Hlit Hn Hc Hw Hgt Hstar. unfold newRoute.
  rewrite MustCompile_param_token. cbn [rbind].
  change (fun (_ : unit) (m0 : string) => ("(?P<" +:+ tail_of m0 +:+ ">[^/#?]+)", tt))
    with first_pass.
  destruct (first_pass_bad_name lit n c tail Hlit Hn Hc) as (z & ->).
  rewrite MustCompile_wildcard_token. cbn [rbind].
  change (fun (index : nat) (_ : string) =>
            ("(?P<_" +:+ format_nat (S index) +:+ ">[^#?]*)", S index))
    with second_pass.
  assert (E : lit +:+ "(?P<" +:+ n +:+ String c z =
              (lit +:+ "(?P<" +:+ n +:+ String c "") +:+ z).
  { rewrite !append_assoc, !append_cons, !append_nil_l. reflexivity. }
  rewrite E.
  destruct (second_pass_keeps_prefix (lit +:+ "(?P<" +:+ n +:+ String c "") z)
    as (t & ->).
  { rewrite !all_chars_app.
    rewrite (all_chars_impl plain_char _ lit plain_not_star Hlit).
    rewrite (all_chars_impl is_word _ n word_not_star Hn).
    cbn [all_chars andb].
    destruct (Ascii.eqb_spec "*"%char c) as [<-|_]; [congruence|reflexivity]. }
  unfold MustCompile.
  assert (E2 : ((lit +:+ "(?P<" +:+ n +:+ String c "") +:+ t) +:+ "\/?" =
               lit +:+ "(?P<" +:+ n +:+ String c (t +:+ "\/?")).
  { rewrite !append_assoc, !append_cons, !append_nil_l. reflexivity. }
  rewrite E2, Compile_bad_name; auto.
  - eexists. reflexivity.
  - destruct (Ascii.eqb_spec c ">"%char); [contradiction|reflexivity].
Qed.

Lemma newRoute_rejects_name_witness :
  exists msg, newRoute "GET" "/users/:user-id/posts" [] = Panic msg.
Proof.
  apply (newRoute_rejects_name "GET" "/users/" "user" "-" "id/posts" []);
    try reflexivity; discriminate.
Defined.

End NameFacts.

(** * The order of invocations *)

Module OrderFacts.
Import RW Handlers Router RouteContext Spec PipelineFacts.

Lemma keeps_call_level (K : world -> Prop) (l : level) (next : M unit) (f : body) :
  (forall wr w, K w -> K (record (Yielded l wr) w)) ->
  (forall x w, K w -> K (set_rw x w)) ->
  keeps K next -> keeps K (call l next f).
Proof.
  intros He Hrw Hnext.
  induction f as [vals|msg|k IH|k IH|s k IH|b k IH|g k IH|k IH]; cbn [call].
  - apply keeps_ret.
  - apply keeps_lift.
  - apply keeps_bind; [apply keeps_written|intros wr].
    apply keeps_bind; [apply keeps_tell; auto|intros _].
    apply keeps_bind; [exact Hnext|intros _; exact IH].
  - apply keeps_bind; [apply keeps_written|intros wr; apply IH].
  - apply keeps_bind; [|intros _; exact IH]. apply keeps_modify. auto.
  - apply keeps_bind; [|intros _; exact IH]. apply keeps_modify. auto.
  - apply keeps_bind; [|intros _; exact IH]. apply keeps_modify. auto.
  - apply keeps_bind; [apply keeps_get|intros w].
    destruct (params w); [apply IH|apply keeps_lift].
Qed.

Lemma keeps_Invoke_level (K : world -> Prop) (l : level) (next : M unit)
    (handler : Handler) :
  (forall wr w, K w -> K (record (Yielded l wr) w)) ->
  (forall x w, K w -> K (set_rw x w)) ->
  keeps K next -> keeps K (Invoke l next handler).
Proof.
  intros. destruct handler; [apply keeps_call_level; auto|apply keeps_lift..].
Qed.

Lemma between_fail {A B : Type} (P Q : world -> Prop) (x : result A) (w : world) :
  (forall a, x <> Ok a) -> Q w -> between (A := B) P Q (propagate x) w.
Proof.
  intros Hx Hq. split; [exact Hq|]. intros b E.
  destruct x; cbn in E; try discriminate.
Qed.

Section RouteLoop.
Variables (P Q : world -> Prop) (hs : list Handler).
Hypothesis HPQ : forall w, P w -> Q w.
Hypothesis Hinvoke : forall w,
  P w -> (rindex w < List.length hs)%nat ->
  Q (record (Invoked Routed (rindex w) (Written (rw w))) w).
Hypothesis Hincr : forall w, Q w -> P (set_rindex (rindex w + 1) w).
Hypothesis Hyield : forall wr w, Q w -> Q (record (Yielded Routed wr) w).
Hypothesis Hreturned : forall i vals w, Q w -> Q (record (Returned Routed i vals) w).
Hypothesis Hinterpreted : forall vals w, P w -> P (record (Interpreted Routed vals) w).
Hypothesis HrwQ : forall x w, Q w -> Q (set_rw x w).
Hypothesis HrwP : forall x w, P w -> P (set_rw x w).

Lemma route_loop (n : nat) :
  hoare P (RouteContext.run_n n hs) (between P Q).
Proof.
  induction n as [|n IH]; cbn [RouteContext.run_n].
  - apply (hoare_bind _ _ _ _ _ (get_value P)); [|no_failure].
    intros w0. destruct (rindex w0 <? List.length hs)%nat.
    + intros w [H _]. split; [apply HPQ, H|discriminate].
    + intros w [H _]. split; [apply HPQ, H|auto].
  - apply (hoare_bind _ _ _ _ _ (get_value P)); [|no_failure].
    intros w0. destruct (rindex w0 <? List.length hs)%nat eqn:Hlt;
      [|intros w [H _]; split; [apply HPQ, H|auto]].
    destruct (nth_error hs (rindex w0)) as [handler|];
      [|intros w [H _]; split; [apply HPQ, H|discriminate]].
    apply (hoare_bind _ _ _ (fun _ w => Q w)).
    { intros w [H E]. injection E as ->. apply Hinvoke; [exact H|].
      apply Nat.ltb_lt, Hlt. }
    2:{ intros x w Hx Hq. apply between_fail; assumption. }
    intros _. apply (hoare_bind _ _ _ (fun _ w => Q w)).
    { apply keeps_Invoke_level; auto.
      apply (hoare_bind _ _ _ (fun _ w => P w)).
      - intros w Hq. apply Hincr, Hq.
      - intros _ w Hp. apply (IH w Hp).
      - intros x w Hx Hp. apply HPQ, Hp. }
    2:{ intros x w Hx Hq. apply between_fail; assumption. }
    intros vals. apply (hoare_bind _ _ _ (fun _ w => Q w)).
    { apply keeps_tell. auto. }
    2:{ intros x w Hx Hq. apply between_fail; assumption. }
    intros _. apply (hoare_bind _ _ _ (fun _ w => P w)).
    { intros w Hq. apply Hincr, Hq. }
    2:{ intros x w Hx Hp. apply between_fail; [assumption|apply HPQ, Hp]. }
    intros _. apply (hoare_bind _ _ _ (fun _ w => P w)).
    { destruct (0 <? List.length vals)%nat; [|apply keeps_ret].
      apply keeps_bind; [apply keeps_get|intros w].
      destruct (returns w); [|apply keeps_lift].
      apply keeps_bind; [|intros _; apply keeps_modify; auto].
      apply keeps_tell. auto. }
    2:{ intros x w Hx Hp. apply between_fail; [assumption|apply HPQ, Hp]. }
    intros _. apply (hoare_bind _ _ _ _ _ (written_value P)); [|no_failure].
    intros [|].
    + intros w [Hp _]. split; [apply HPQ, Hp|auto].
    + intros w [Hp _]. apply IH, Hp.
Qed.

End RouteLoop.

Lemma start_loop (P Q P0 : world -> Prop) (hs : list Handler) :
  (forall n, hoare P (RouteContext.run_n n hs) (between P Q)) ->
  (forall w, P w -> Q w) ->
  (forall w, P0 w -> P (set_rindex 0 w)) ->
  hoare P0 (start hs) (fun _ w => Q w).
Proof.
  intros Hloop HPQ H0. unfold start, RouteContext.run.
  apply (hoare_bind _ _ _ (fun _ w => P w)).
  - intros w Hw. apply H0, Hw.
  - intros _. apply (hoare_bind _ _ _ _ _ (get_value P)); [|no_failure].
    intros w0 w [Hp _]. apply (Hloop _ w Hp).
  - intros x w Hx Hp. apply HPQ, Hp.
Qed.

(** A property that the route pipeline does not touch is kept by the
    router. *)
Section RouterKeeps.
Variable K : world -> Prop.
Hypothesis Hevent : forall e w,
  (forall i wr, e <> Invoked Global i wr) -> K w -> K (record e w).
Hypothesis Hrw : forall x w, K w -> K (set_rw x w).
Hypothesis Hrindex : forall i w, K w -> K (set_rindex i w).
Hypothesis Hparams : forall p w, K w -> K (set_params p w).

Lemma start_keeps (hs : list Handler) : keeps K (start hs).
Proof.
  apply (start_loop K K K hs); [|auto|auto].
  intros n. apply (route_loop K K hs); auto;
    intros; apply Hevent; auto; discriminate.
Qed.

Lemma Handle_keeps (r : router) : keeps K (Handle r).
Proof.
  unfold Handle. induction (routes r) as [|rt rs IH]; cbn [dispatch].
  - apply start_keeps.
  - apply keeps_bind; [apply keeps_get|intros w0].
    destruct (Match rt _ _) as [[] vals]; [|exact IH].
    apply keeps_bind; [apply keeps_modify; auto|intros _; apply start_keeps].
Qed.

End RouterKeeps.

Lemma handler_Dispatch (m : Martini.Martini) (i : nat) (r : router) :
  Martini.handler m i = Ok (Martini.Dispatch r) ->
  i = List.length (Martini.handlers m).
Proof.
  unfold Martini.handler.
  destruct (i <? _)%nat; [destruct (nth_error _ _); discriminate|].
  destruct (Nat.eqb_spec i (List.length (Martini.handlers m))); [auto|discriminate].
Qed.

Section GlobalLoop.
Variables (P Q F : world -> Prop) (m : Martini.Martini).
Hypothesis HPQ : forall w, P w -> Q w.
Hypothesis Hinvoke : forall w,
  P w -> (cindex w <= List.length (Martini.handlers m))%nat ->
  let w' := record (Invoked Global (cindex w) (Written (rw w))) w in
  Q w' /\ (cindex w = List.length (Martini.handlers m) -> F w').
Hypothesis Hincr : forall w, Q w -> P (set_cindex (cindex w + 1) w).
Hypothesis Hyield : forall wr w, Q w -> Q (record (Yielded Global wr) w).
Hypothesis Hreturned : forall i vals w, Q w -> Q (record (Returned Global i vals) w).
Hypothesis HrwQ : forall x w, Q w -> Q (set_rw x w).
Hypothesis Hrouter : forall r,
  hoare (fun w => Q w /\ F w) (Handle r) (fun _ w => Q w).

Lemma global_loop (n : nat) :
  hoare P (Martini.run_n n m) (between P Q).
Proof.
  induction n as [|n IH]; cbn [Martini.run_n].
  - apply (hoare_bind _ _ _ _ _ (get_value P)); [|no_failure].
    intros w0. destruct (cindex w0 <=? _)%nat.
    + intros w [H _]. split; [apply HPQ, H|discriminate].
    + intros w [H _]. split; [apply HPQ, H|auto].
  - apply (hoare_bind _ _ _ _ _ (get_value P)); [|no_failure].
    intros w0. destruct (cindex w0 <=? _)%nat eqn:Hle;
      [|intros w [H _]; split; [apply HPQ, H|auto]].
    apply (hoare_bind _ _ _
             (fun x w => P w /\ w0 = w /\ x = Martini.handler m (cindex w0))).
    { intros w [H E]. injection E as ->. cbn. auto. }
    2:{ intros x w Hx [Hp _]. apply between_fail; [assumption|apply HPQ, Hp]. }
    intros a. apply (hoare_bind _ _ _
                       (fun _ w => Q w /\ (forall r, a = Martini.Dispatch r -> F w))).
    { intros w (H & -> & Ea). cbn [tell modify fst snd].
      destruct (Hinvoke w H) as [Hq Hf]; [apply Nat.leb_le, Hle|].
      split; [exact Hq|]. intros r ->. apply Hf.
      symmetry in Ea. apply (handler_Dispatch m _ r Ea). }
    2:{ intros x w Hx [Hq _]. apply between_fail; assumption. }
    intros _. apply (hoare_bind _ _ _ (fun _ w => Q w)).
    { destruct a as [hd|r]; cbn [Martini.InvokeAction].
      - intros w [Hq _]. revert w Hq. apply keeps_Invoke_level; auto.
        apply (hoare_bind _ _ _ (fun _ w => P w)).
        + intros w Hq. apply Hincr, Hq.
        + intros _ w Hp. apply (IH w Hp).
        + intros x w Hx Hp. apply HPQ, Hp.
      - apply (hoare_bind _ _ _ (fun _ w => Q w)).
        + intros w [Hq Hf]. apply Hrouter. split; [exact Hq|apply (Hf r eq_refl)].
        + intros _. apply keeps_ret.
        + auto. }
    2:{ intros x w Hx Hq. apply between_fail; assumption. }
    intros vals. apply (hoare_bind _ _ _ (fun _ w => Q w)).
    { apply keeps_tell. auto. }
    2:{ intros x w Hx Hq. apply between_fail; assumption. }
    intros _. apply (hoare_bind _ _ _ (fun _ w => P w)).
    { intros w Hq. apply Hincr, Hq. }
    2:{ intros x w Hx Hp. apply between_fail; [assumption|apply HPQ, Hp]. }
    intros _. apply (hoare_bind _ _ _ _ _ (written_value P)); [|no_failure].
    intros [|].
    + intros w [Hp _]. split; [apply HPQ, Hp|auto].
    + intros w [Hp _]. apply IH, Hp.
Qed.

End GlobalLoop.

(** ** Invocations go up the pipeline *)

Lemma invoked_at_app (l : level) (t1 t2 : list event) :
  invoked_at l (t1 ++ t2) = invoked_at l t1 ++ invoked_at l t2.
Proof.
  induction t1 as [|e t1 IH]; [reflexivity|].
  destruct e as [l' i wr| | |]; cbn [app invoked_at]; try exact IH.
  destruct (level_eqb l l'); cbn [app]; rewrite IH; reflexivity.
Qed.

Lemma invoked_at_other (l : level) (t : list event) (e : event) :
  (forall i wr, e <> Invoked l i wr) ->
  invoked_at l (t ++ [e]) = invoked_at l t.
Proof.
  intros He. rewrite invoked_at_app.
  destruct e as [l' i wr| | |]; cbn [invoked_at]; try apply app_nil_r.
  destruct l, l'; cbn [level_eqb]; try apply app_nil_r;
    exfalso; apply (He i wr); reflexivity.
Qed.

Lemma invoked_at_same (l : level) (t : list event) (i : nat) (wr : bool) :
  invoked_at l (t ++ [Invoked l i wr]) = invoked_at l t ++ [i].
Proof.
  rewrite invoked_at_app. cbn [invoked_at]. destruct l; reflexivity.
Qed.

Lemma ascending_weaken (l : list nat) :
  forall lo b b', ascending lo l b = true -> (b <= b')%nat ->
                  ascending lo l b' = true.
Proof.
  induction l as [|i l IH]; intros lo b b' H Hb; cbn [ascending] in *.
  - apply Nat.leb_le in H. apply Nat.leb_le. lia.
  - apply andb_true_iff in H as [H1 H2]. rewrite H1. exact (IH _ _ _ H2 Hb).
Qed.

Lemma ascending_snoc (l : list nat) :
  forall lo b, ascending lo l b = true -> ascending lo (l ++ [b]) (S b) = true.
Proof.
  induction l as [|i l IH]; intros lo b H; cbn [ascending app] in *.
  - rewrite H. cbn. apply Nat.leb_refl.
  - apply andb_true_iff in H as [H1 H2]. rewrite H1. exact (IH _ _ H2).
Qed.

Lemma ascending_le (l : list nat) :
  forall lo b, ascending lo l b = true -> (lo <= b)%nat.
Proof.
  induction l as [|i l IH]; intros lo b H; cbn [ascending] in H.
  - apply Nat.leb_le, H.
  - apply andb_true_iff in H as [H1 H2]. apply Nat.leb_le in H1.
    apply IH in H2. lia.
Qed.

Lemma ascending_sorted (l : list nat) :
  forall lo b, ascending lo l b = true ->
               Sorted.StronglySorted lt l /\ Forall (fun i => (lo <= i < b)%nat) l.
Proof.
  induction l as [|i l IH]; intros lo b H; cbn [ascending] in H.
  - split; constructor.
  - apply andb_true_iff in H as [H1 H2]. apply Nat.leb_le in H1.
    pose proof (ascending_le _ _ _ H2) as Hb.
    destruct (IH _ _ H2) as [Hs Hf]. split.
    + constructor; [exact Hs|]. eapply List.Forall_impl; [|exact Hf].
      intros j Hj. cbv beta in Hj. lia.
    + constructor; [lia|].
      eapply List.Forall_impl; [|exact Hf]. intros j Hj. cbv beta in Hj. lia.
Qed.

Lemma paced_weaken (l : level) (b b' lim : nat) (t : list event) :
  paced l b lim t -> (b <= b')%nat -> paced l b' lim t.
Proof.
  intros [H1 H2] Hb. split; [exact (ascending_weaken _ _ _ _ H1 Hb)|exact H2].
Qed.

Lemma paced_invoke (l : level) (b lim : nat) (t : list event) (wr : bool) :
  paced l b lim t -> (b < lim)%nat ->
  paced l (S b) lim (t ++ [Invoked l b wr]).
Proof.
  intros [H1 H2] Hb. unfold paced. rewrite invoked_at_same. split.
  - apply ascending_snoc, H1.
  - apply Forall_app. split; [exact H2|]. constructor; [exact Hb|constructor].
Qed.

Lemma paced_other (l : level) (b lim : nat) (t : list event) (e : event) :
  (forall i wr, e <> Invoked l i wr) ->
  paced l b lim t -> paced l b lim (t ++ [e]).
Proof.
  intros He H. unfold paced. rewrite (invoked_at_other l t e He). exact H.
Qed.

Lemma trace_record (e : event) (w : world) : trace (record e w) = trace w ++ [e].
Proof. reflexivity. Qed.

Section RoutePaced.
Variables (G : world -> Prop) (hs : list Handler).
Hypothesis Gevent : forall e w,
  (forall i wr, e <> Invoked Global i wr) -> G w -> G (record e w).
Hypothesis Grw : forall x w, G w -> G (set_rw x w).
Hypothesis Grindex : forall i w, G w -> G (set_rindex i w).

Lemma route_paced (n : nat) :
  hoare (fun w => G w /\ paced Routed (rindex w) (List.length hs) (trace w))
    (RouteContext.run_n n hs)
    (between
       (fun w => G w /\ paced Routed (rindex w) (List.length hs) (trace w))
       (fun w => G w /\ paced Routed (S (rindex w)) (List.length hs) (trace w))).
Proof.
  apply route_loop.
  - intros w [Hg Hp]. split; [exact Hg|]. apply (paced_weaken _ _ _ _ _ Hp). lia.
  - intros w [Hg Hp] Hlt. split; [apply Gevent; [discriminate|exact Hg]|].
    rewrite trace_record. apply paced_invoke; assumption.
  - intros w [Hg Hp]. split; [apply Grindex, Hg|].
    cbn [set_rindex rindex trace]. rewrite Nat.add_1_r. exact Hp.
  - intros wr w [Hg Hp]. split; [apply Gevent; [discriminate|exact Hg]|].
    rewrite trace_record. apply paced_other; [discriminate|exact Hp].
  - intros i vals w [Hg Hp]. split; [apply Gevent; [discriminate|exact Hg]|].
    rewrite trace_record. apply paced_other; [discriminate|exact Hp].
  - intros vals w [Hg Hp]. split; [apply Gevent; [discriminate|exact Hg]|].
    rewrite trace_record. apply paced_other; [discriminate|exact Hp].
  - intros x w [Hg Hp]. split; [apply Grw, Hg|exact Hp].
  - intros x w [Hg Hp]. split; [apply Grw, Hg|exact Hp].
Qed.

Lemma start_paced :
  hoare (fun w => G w /\ invoked_at Routed (trace w) = [])
    (start hs)
    (fun _ w => G w /\ paced Routed (S (rindex w)) (List.length hs) (trace w)).
Proof.
  apply (start_loop
           (fun w => G w /\ paced Routed (rindex w) (List.length hs) (trace w))).
  - apply route_paced.
  - intros w [Hg Hp]. split; [exact Hg|]. apply (paced_weaken _ _ _ _ _ Hp). lia.
  - intros w [Hg He]. split; [apply Grindex, Hg|].
    cbn [set_rindex rindex trace]. unfold paced. rewrite He. split; [reflexivity|constructor].
Qed.

End RoutePaced.

Lemma Handle_paced (G : world -> Prop) (r : router) :
  (forall e w, (forall i wr, e <> Invoked Global i wr) -> G w -> G (record e w)) ->
  (forall x w, G w -> G (set_rw x w)) ->
  (forall i w, G w -> G (set_rindex i w)) ->
  (forall p w, G w -> G (set_params p w)) ->
  hoare (fun w => G w /\ invoked_at Routed (trace w) = [])
    (Handle r)
    (fun _ w => G w /\ exists b, ascending 0 (invoked_at Routed (trace w)) b = true).
Proof.
  intros Gevent Grw Grindex Gparams.
  assert (Hs : forall hs,
            hoare (fun w => G w /\ invoked_at Routed (trace w) = [])
              (start hs)
              (fun _ w => G w /\ exists b,
                            ascending 0 (invoked_at Routed (trace w)) b = true)).
  { intros hs w Hw. destruct (start_paced G hs Gevent Grw Grindex w Hw) as [Hg [Ha _]].
    split; [exact Hg|]. eexists. exact Ha. }
  unfold Handle. induction (routes r) as [|rt rs IH]; cbn [dispatch].
  - apply Hs.
  - apply (hoare_bind _ _ _ (fun _ w => G w /\ invoked_at Routed (trace w) = [])).
    + intros w Hw. exact Hw.
    + intros w0. destruct (Match rt _ _) as [[] vals]; [|exact IH].
      apply (hoare_bind _ _ _ (fun _ w => G w /\ invoked_at Routed (trace w) = [])).
      * intros w [Hg He]. split; [apply Gparams, Hg|exact He].
      * intros _. apply Hs.
      * intros x w Hx [Hg He]. split; [exact Hg|]. rewrite He. exists 0%nat. reflexivity.
    + intros x w Hx [Hg He]. split; [exact Hg|]. rewrite He. exists 0%nat. reflexivity.
Qed.

(** The invariant of the global pipeline between two iterations ([S c] in
    place of [c] inside one). *)
Lemma context_paced (m : Martini.Martini) (n : nat) :
  let len := List.length (Martini.handlers m) in
  let routed w := invoked_at Routed (trace w) in
  hoare
    (fun w => paced Global (cindex w) (S len) (trace w)
              /\ (exists b, ascending 0 (routed w) b = true)
              /\ ((cindex w <= len)%nat -> routed w = []))
    (Martini.run_n n m)
    (fun _ w => paced Global (S (cindex w)) (S len) (trace w)
                /\ exists b, ascending 0 (routed w) b = true).
Proof.
  intros len routed.
  pose (P := fun w => paced Global (cindex w) (S len) (trace w)
                      /\ (exists b, ascending 0 (routed w) b = true)
                      /\ ((cindex w <= len)%nat -> routed w = [])).
  pose (Q := fun w => paced Global (S (cindex w)) (S len) (trace w)
                      /\ (exists b, ascending 0 (routed w) b = true)
                      /\ ((cindex w < len)%nat -> routed w = [])).
  pose (F := fun w => routed w = [] /\ cindex w = len).
  assert (H : hoare P (Martini.run_n n m) (between P Q)).
  { apply (global_loop P Q F m).
    - intros w (Hp & Hr & He). split; [|split; [exact Hr|]].
      + apply (paced_weaken _ _ _ _ _ Hp). lia.
      + intros Hlt. apply He. lia.
    - intros w (Hp & Hr & He) Hle. cbv zeta.
      assert (Hempty : routed (record (Invoked Global (cindex w) (Written (rw w))) w) = []).
      { unfold routed. rewrite trace_record, invoked_at_other by discriminate.
        apply He, Hle. }
      split; [split; [|split]|].
      + rewrite trace_record. apply paced_invoke; [exact Hp|fold len; lia].
      + rewrite Hempty. exists 0%nat. reflexivity.
      + intros _. exact Hempty.
      + intros Hc. split; [exact Hempty|exact Hc].
    - intros w (Hq & Hr & He). split; [|split; [exact Hr|]].
      + cbn [set_cindex cindex trace]. rewrite Nat.add_1_r. exact Hq.
      + cbn [set_cindex cindex]. intros Hle. apply He. lia.
    - intros wr w (Hq & Hr & He). unfold Q, routed.
      rewrite !trace_record, invoked_at_other by discriminate.
      split; [apply paced_other; [discriminate|exact Hq]|auto].
    - intros i vals w (Hq & Hr & He). unfold Q, routed.
      rewrite !trace_record, invoked_at_other by discriminate.
      split; [apply paced_other; [discriminate|exact Hq]|auto].
    - intros x w Hq. exact Hq.
    - intros r.
      pose (G := fun w => paced Global (S (cindex w)) (S len) (trace w)
                          /\ cindex w = len).
      assert (HG : hoare (fun w => G w /\ invoked_at Routed (trace w) = [])
                     (Handle r)
                     (fun _ w => G w /\ exists b,
                                   ascending 0 (invoked_at Routed (trace w)) b = true)).
      { apply Handle_paced.
        - intros e w He [Hg Hc]. split; [|exact Hc].
          rewrite trace_record. apply paced_other; [exact He|exact Hg].
        - intros x w Hg. exact Hg.
        - intros i w Hg. exact Hg.
        - intros p w Hg. exact Hg. }
      intros w ((Hq & Hr & He) & Hempty & Hc).
      destruct (HG w) as [[Hg Hc'] Hb].
      { split; [split; [exact Hq|exact Hc]|exact Hempty]. }
      split; [exact Hg|]. split; [exact Hb|]. intros Hlt. lia. }
  intros w Hw. destruct (H w Hw) as [(Hq & Hr & _) _]. auto.
Qed.

(** X11: within one request the handlers of a pipeline are invoked at
    strictly increasing positions, so none is invoked twice, however the
    handlers call [Next]: the middleware and the action, at positions up to
    the number of middleware handlers, and the handlers of the route that
    the router runs.  The same holds of a route pipeline started on its own,
    at positions below the number of its handlers, when no route handler has
    run before. *)
Theorem handlers_invoked_in_order (m : Martini.Martini) (res : transport)
    (req : Request) (hs : list Handler) (w0 : world) :
  invoked_at Routed (trace w0) = [] ->
  (let t := trace (snd (Martini.ServeHTTP m res req)) in
   Sorted.StronglySorted lt (invoked_at Global t)
   /\ Forall (fun i => (i <= List.length (Martini.handlers m))%nat)
        (invoked_at Global t)
   /\ Sorted.StronglySorted lt (invoked_at Routed t))
  /\ (let t := trace (snd (start hs w0)) in
      Sorted.StronglySorted lt (invoked_at Routed t)
      /\ Forall (fun i => (i < List.length hs)%nat) (invoked_at Routed t)).
Proof.
  intros H0. split.
  - cbv zeta. unfold Martini.ServeHTTP, Martini.run.
    match goal with |- context [bind get ?f ?w] =>
      change (bind get f w) with (f w w) end.
    destruct (context_paced m
                (S (List.length (Martini.handlers m))
                 - cindex (Martini.createContext m res req))
                (Martini.createContext m res req))
      as [[Ha Hf] [b Hb]].
    { cbn [Martini.createContext cindex trace invoked_at]. split; [|split].
      - split; [reflexivity|constructor].
      - exists 0%nat. reflexivity.
      - reflexivity. }
    split; [apply (ascending_sorted _ _ _ Ha)|]. split.
    + eapply List.Forall_impl; [|exact Hf]. intros i Hi. cbv beta in Hi. lia.
    + apply (ascending_sorted _ _ _ Hb).
  - cbv zeta.
    destruct (start_paced (fun _ => True) hs) with (w := w0) as [_ [Ha Hf]]; auto.
    split; [apply (ascending_sorted _ _ _ Ha)|exact Hf].
Qed.

Lemma handlers_invoked_in_order_witness :
  let w0 := Martini.createContext sample_application plain_sink sample_request in
  let hs := [Callable (CallNext (Return [])); Callable (Return []);
             Callable (CallWrite "done" (Return [])); Callable (Return [])] in
  (let t := trace (snd (Martini.ServeHTTP sample_application plain_sink sample_request)) in
   Sorted.StronglySorted lt (invoked_at Global t)
   /\ Forall (fun i => (i <= List.length (Martini.handlers sample_application))%nat)
        (invoked_at Global t)
   /\ Sorted.StronglySorted lt (invoked_at Routed t))
  /\ (let t := trace (snd (start hs w0)) in
      Sorted.StronglySorted lt (invoked_at Routed t)
      /\ Forall (fun i => (i < List.length hs)%nat) (invoked_at Routed t)).
Proof.
  intros w0 hs.
  exact (handlers_invoked_in_order sample_application plain_sink sample_request
           hs w0 eq_refl).
Defined.

End OrderFacts.

(** * Which return values are interpreted *)

Module InterpretedFacts.
Import RW Handlers Router RouteContext Spec PipelineFacts OrderFacts.

Lemma interpreted_snoc (t : list event) (e : event) :
  (forall l vals, e <> Interpreted l vals) ->
  interpreted_after_return t -> interpreted_after_return (t ++ [e]).
Proof.
  intros He Ht pre l vals post E.
  destruct (snoc_or_nil post) as [->|(post' & x & ->)].
  - apply app_inj_tail in E as [_ E]. exfalso. apply (He l vals). auto.
  - rewrite app_comm_cons, app_assoc in E. apply app_inj_tail in E as [E _].
    apply (Ht pre l vals post' E).
Qed.

Lemma interpreted_now (t : list event) (i : nat) (vals : list Reflect.Value) :
  vals <> [] ->
  interpreted_after_return (t ++ [Returned Routed i vals]) ->
  interpreted_after_return
    ((t ++ [Returned Routed i vals]) ++ [Interpreted Routed vals]).
Proof.
  intros Hv Ht pre l vals' post E.
  destruct (snoc_or_nil post) as [->|(post' & x & ->)].
  - apply app_inj_tail in E as [<- E]. injection E as <- <-.
    split; [reflexivity|]. split; [exact Hv|]. exists t, i. reflexivity.
  - rewrite app_comm_cons, app_assoc in E. apply app_inj_tail in E as [E _].
    apply (Ht pre l vals' post' E).
Qed.

Lemma interpreted_route_run (n : nat) (hs : list Handler) :
  keeps (fun w => interpreted_after_return (trace w)) (RouteContext.run_n n hs).
Proof.
  pose (K := fun w => interpreted_after_return (trace w)).
  assert (Kevent : forall e w, (forall l vals, e <> Interpreted l vals) ->
                               K w -> K (record e w)).
  { intros e w He Hk. unfold K. rewrite trace_record. apply interpreted_snoc; assumption. }
  fold K. induction n as [|n IH]; cbn [RouteContext.run_n].
  - apply keeps_bind; [apply keeps_get|intros w].
    destruct (rindex w <? List.length hs)%nat; [apply keeps_lift|apply keeps_ret].
  - apply keeps_bind; [apply keeps_get|intros w0].
    destruct (rindex w0 <? List.length hs)%nat; [|apply keeps_ret].
    destruct (nth_error hs (rindex w0)) as [handler|]; [|apply keeps_lift].
    apply keeps_bind; [apply keeps_tell; intros w; apply Kevent; discriminate|].
    intros _. apply keeps_bind.
    { apply keeps_Invoke_level.
      - intros wr w. apply Kevent. discriminate.
      - intros x w Hk. exact Hk.
      - apply keeps_bind; [apply keeps_modify; auto|intros _; exact IH]. }
    intros vals.
    apply (hoare_bind _ _ _
             (fun _ w => K w /\ exists t, trace w = t ++ [Returned Routed (rindex w0) vals])).
    { intros w Hk. split; [apply Kevent; [discriminate|exact Hk]|].
      exists (trace w). reflexivity. }
    2:{ intros x w Hx [Hk _]. exact Hk. }
    intros _.
    apply (hoare_bind _ _ _
             (fun _ w => K w /\ exists t, trace w = t ++ [Returned Routed (rindex w0) vals])).
    { intros w Hw. exact Hw. }
    2:{ intros x w Hx [Hk _]. exact Hk. }
    intros _. apply (hoare_bind _ _ _ (fun _ w => K w)); [| |auto].
    { destruct (0 <? List.length vals)%nat eqn:Hlen;
        [|intros w [Hk _]; exact Hk].
      apply (hoare_bind _ _ _
               (fun _ w => K w /\ exists t,
                             trace w = t ++ [Returned Routed (rindex w0) vals])).
      { intros w Hw. exact Hw. }
      2:{ intros x w Hx [Hk _]. exact Hk. }
      intros w1. destruct (returns w1); [|intros w [Hk _]; exact Hk].
      apply (hoare_bind _ _ _ (fun _ w => K w)); [| |auto].
      - intros w [Hk (t & Ht)]. unfold K in *. cbn [tell modify fst snd].
        rewrite trace_record, Ht. apply interpreted_now.
        + destruct vals; [discriminate|discriminate].
        + rewrite <- Ht. exact Hk.
      - intros _. apply keeps_modify. auto. }
    intros _. apply keeps_bind; [apply keeps_written|intros wr].
    destruct wr; [apply keeps_ret|exact IH].
Qed.

Lemma interpreted_Handle (r : router) :
  keeps (fun w => interpreted_after_return (trace w)) (Handle r).
Proof.
  assert (Hs : forall hs,
            keeps (fun w => interpreted_after_return (trace w)) (start hs)).
  { intros hs. unfold start, RouteContext.run.
    apply keeps_bind; [apply keeps_modify; auto|intros _].
    apply keeps_bind; [apply keeps_get|intros w]. apply interpreted_route_run. }
  unfold Handle. induction (routes r) as [|rt rs IH]; cbn [dispatch].
  - apply Hs.
  - apply keeps_bind; [apply keeps_get|intros w0].
    destruct (Match rt _ _) as [[] vals]; [|exact IH].
    apply keeps_bind; [apply keeps_modify; auto|intros _; apply Hs].
Qed.

(** X12: during a request the return handler is called only from the
    route pipeline, only on a non-empty list of values, and only directly
    after the route handler that returned these values; the values that
    middleware or the action return are never interpreted. *)
Theorem return_handler_calls (m : Martini.Martini) (res : transport)
    (req : Request) :
  interpreted_after_return (trace (snd (Martini.ServeHTTP m res req))).
Proof.
  pose (K := fun w => interpreted_after_return (trace w)).
  assert (Kevent : forall e w, (forall l vals, e <> Interpreted l vals) ->
                               K w -> K (record e w)).
  { intros e w He Hk. unfold K. rewrite trace_record. apply interpreted_snoc; assumption. }
  assert (H : forall n, hoare K (Martini.run_n n m) (between K K)).
  { intros n. apply (global_loop K K (fun _ => True) m).
    - intros w Hk. exact Hk.
    - intros w Hk _. cbv zeta. split; [|auto]. apply Kevent; [discriminate|exact Hk].
    - intros w Hk. exact Hk.
    - intros wr w. apply Kevent. discriminate.
    - intros i vals w. apply Kevent. discriminate.
    - intros x w Hk. exact Hk.
    - intros r w [Hk _]. apply interpreted_Handle, Hk. }
  unfold Martini.ServeHTTP, Martini.run.
  match goal with |- context [bind get ?f ?w] =>
    change (bind get f w) with (f w w) end.
  apply H. intros pre l vals post E. destruct pre; discriminate E.
Qed.

End InterpretedFacts.

(** * [Next] *)

Module NextFacts.
Import RW Handlers Router RouteContext Spec PipelineFacts OrderFacts.

(** What holds when a run of the loop ends normally. *)
Lemma context_run_done (m : Martini.Martini) (n : nat) :
  hoare (fun _ => True) (Martini.run_n n m)
    (fun x w => x = Ok tt ->
                Written (rw w) = true
                \/ (List.length (Martini.handlers m) < cindex w)%nat).
Proof.
  induction n as [|n IH]; cbn [Martini.run_n].
  - apply (hoare_bind _ _ _ _ _ (get_value (fun _ => True))); [|no_failure].
    intros w0. destruct (cindex w0 <=? _)%nat eqn:Hle.
    + intros w _ E. discriminate E.
    + intros w [_ E] _. injection E as ->. right. apply Nat.leb_gt, Hle.
  - apply (hoare_bind _ _ _ _ _ (get_value (fun _ => True))); [|no_failure].
    intros w0. destruct (cindex w0 <=? _)%nat eqn:Hle.
    2:{ intros w [_ E] _. injection E as ->. right. apply Nat.leb_gt, Hle. }
    apply (hoare_bind _ _ _ (fun _ _ => True)); [intros w _; exact I| |].
    2:{ intros x w Hx _ E. destruct x; discriminate E. }
    intros a. apply (hoare_bind _ _ _ (fun _ _ => True)); [intros w _; exact I| |].
    2:{ intros x w Hx _ E. destruct x; discriminate E. }
    intros _. apply (hoare_bind _ _ _ (fun _ _ => True)); [intros w _; exact I| |].
    2:{ intros x w Hx _ E. destruct x; discriminate E. }
    intros vals. apply (hoare_bind _ _ _ (fun _ _ => True)); [intros w _; exact I| |].
    2:{ intros x w Hx _ E. destruct x; discriminate E. }
    intros _. apply (hoare_bind _ _ _ (fun _ _ => True)); [intros w _; exact I| |].
    2:{ intros x w Hx _ E. destruct x; discriminate E. }
    intros _. apply (hoare_bind _ _ _ _ _ (written_value (fun _ => True))); [|no_failure].
    intros [|].
    + intros w [_ E] _. injection E as E. left. symmetry. exact E.
    + intros w _. apply IH. exact I.
Qed.

Lemma route_run_done (hs : list Handler) (n : nat) :
  hoare (fun _ => True) (RouteContext.run_n n hs)
    (fun x w => x = Ok tt ->
                Written (rw w) = true \/ (List.length hs <= rindex w)%nat).
Proof.
  induction n as [|n IH]; cbn [RouteContext.run_n].
  - apply (hoare_bind _ _ _ _ _ (get_value (fun _ => True))); [|no_failure].
    intros w0. destruct (rindex w0 <? _)%nat eqn:Hlt.
    + intros w _ E. discriminate E.
    + intros w [_ E] _. injection E as ->. right. apply Nat.ltb_ge, Hlt.
  - apply (hoare_bind _ _ _ _ _ (get_value (fun _ => True))); [|no_failure].
    intros w0. destruct (rindex w0 <? _)%nat eqn:Hlt.
    2:{ intros w [_ E] _. injection E as ->. right. apply Nat.ltb_ge, Hlt. }
    destruct (nth_error hs (rindex w0)) as [handler|];
      [|intros w _ E; discriminate E].
    do 5 (apply (hoare_bind _ _ _ (fun _ _ => True));
          [intros w _; exact I| |intros x w Hx _ E; destruct x; discriminate E];
          intros ?).
    apply (hoare_bind _ _ _ _ _ (written_value (fun _ => True))); [|no_failure].
    intros [|].
    + intros w [_ E] _. injection E as E. left. symmetry. exact E.
    + intros w _. apply IH. exact I.
Qed.

(** X13: [Next] of either pipeline terminates: advancing the cursor and
    running the rest of the pipeline needs no more iterations than there
    are handlers left.  When it returns normally, the response has been
    written or the cursor is past the last handler. *)
Theorem Next_runs_rest (m : Martini.Martini) (hs : list Handler) (w : world) :
  (let out := Martini.Next m w in
   fst out <> Starved
   /\ (fst out = Ok tt ->
       Written (rw (snd out)) = true
       \/ (List.length (Martini.handlers m) < cindex (snd out))%nat))
  /\ (let out := RouteContext.Next hs w in
      fst out <> Starved
      /\ (fst out = Ok tt ->
          Written (rw (snd out)) = true
          \/ (List.length hs <= rindex (snd out))%nat)).
Proof.
  split; cbv zeta.
  - unfold Martini.Next, Martini.run.
    change (bind (modify (fun w0 => set_cindex (cindex w0 + 1) w0))
              (fun _ => bind get (fun w0 =>
                 Martini.run_n (S (List.length (Martini.handlers m)) - cindex w0) m)) w)
      with (Martini.run_n
              (S (List.length (Martini.handlers m)) - (cindex w + 1)) m
              (set_cindex (cindex w + 1) w)).
    split.
    + apply (context_run_fuel m _ (cindex w + 1)); [lia|].
      unfold cursor_from. cbn. lia.
    + apply context_run_done. exact I.
  - unfold RouteContext.Next, RouteContext.run.
    change (bind (modify (fun w0 => set_rindex (rindex w0 + 1) w0))
              (fun _ => bind get (fun w0 =>
                 RouteContext.run_n (List.length hs - rindex w0) hs)) w)
      with (RouteContext.run_n (List.length hs - (rindex w + 1)) hs
              (set_rindex (rindex w + 1) w)).
    split.
    + apply (route_run_fuel hs 0 _ (rindex w + 1)); [lia|].
      unfold cursors_from. cbn. lia.
    + apply route_run_done. exact I.
Qed.

End NextFacts.

(** * A request, end to end *)

Module ServeFacts.
Import RW Reflect Regexp Matcher Handlers Router RouteContext Spec
       RWFacts ReturnFacts MatcherFacts RouterFacts PipelineFacts OrderFacts
       InterpreterFacts.

Lemma dispatch_first (pre post : list route) (rt : route) (nf : list Handler)
    (w : world) (cs : list string) :
  Forall (fun x => ~ (method_matches (method x) (Method (request w))
                      /\ structurally_matches x (Path (request w)))) pre ->
  method_matches (method rt) (Method (request w)) ->
  full_match (regex rt) (Path (request w)) cs ->
  dispatch (pre ++ rt :: post) nf w =
  route_Handle rt (set_params (named_captures (regex rt) cs) w).
Proof.
  intros Hpre Hm Hf. induction Hpre as [|x pre Hx Hpre IH].
  - simpl app. apply dispatch_hit, Match_true; assumption.
  - simpl app. rewrite dispatch_skip; [exact IH|]. apply Match_false, Hx.
Qed.

Lemma start_params (hs : list Handler) (w : world) :
  params (snd (start hs w)) = params w.
Proof.
  apply (start_keeps (fun w' => params w' = params w)); auto.
Qed.

Lemma start_WithParams (k : Params -> body) (p : Params) (w : world) :
  params w = Some p ->
  start [Callable (WithParams k)] w = start [Callable (k p)] w.
Proof.
  intros Hp.
  unfold start, RouteContext.run, bind, modify, get, tell, written, ret.
  cbn [fst snd set_rindex rindex List.length Nat.sub RouteContext.run_n
       Nat.ltb Nat.leb nth_error bind get Invoke call ret tell modify record
       returns set_rw rw trace written params].
  unfold bind, modify, get, tell, written, ret.
  cbn [fst snd set_rindex rindex record params]. rewrite Hp. reflexivity.
Qed.

(** X14: a request served end to end.  With a router as the action and no
    middleware, a request whose first matching route has a single handler
    that takes [Params] and returns a non-zero int and a string is answered
    with that status and that body, in this order and nothing else, the
    handler having received the named captures of the match; [ServeHTTP]
    returns normally, [Status] reports the status and the captures stay
    bound as [Params]. *)
Theorem serve_matched_route (r : router) (pre post : list route) (rt : route)
    (res : transport) (req : Request) (cs : list string)
    (ty : string) (s : Params -> Z) (b : Params -> string) :
  routes r = pre ++ rt :: post ->
  Forall (fun x => ~ (method_matches (method x) (Method req)
                      /\ structurally_matches x (Path req))) pre ->
  method_matches (method rt) (Method req) ->
  full_match (regex rt) (Path req) cs ->
  handlers rt =
    [Callable (WithParams (fun p => Return [OfInt ty (s p); OfString (b p)]))] ->
  let p := named_captures (regex rt) cs in
  s p <> 0%Z ->
  let m := {| Martini.handlers := []; Martini.action := Martini.Dispatch r;
              Martini.services := Some ReturnHandler.defaultReturnHandler |} in
  let out := Martini.ServeHTTP m res req in
  fst out = Ok tt
  /\ wire_of (rw (snd out)) = wire res ++ [WireHeader (s p); WireBody (b p)]
  /\ Status (rw (snd out)) = s p
  /\ params (snd out) = Some p.
Proof.
  intros Hr Hpre Hm Hf Hh p Hs m out.
  pose (w1 := record (Invoked Global 0 false) (Martini.createContext m res req)).
  pose (w2 := set_params p w1).
  pose (h := [Callable (Return [OfInt ty (s p); OfString (b p)])]).
  assert (HH : Handle r w1 = start h w2).
  { unfold Handle. rewrite Hr, (dispatch_first pre post rt _ w1 cs Hpre Hm Hf).
    unfold route_Handle. rewrite Hh.
    apply (start_WithParams
             (fun p => Return [OfInt ty (s p); OfString (b p)]) p).
    reflexivity. }
  destruct (start_returning w2 ReturnHandler.defaultReturnHandler
              (OfInt ty (s p)) [OfString (b p)] eq_refl) as [Hrw Hok].
  fold h in Hrw, Hok.
  pose proof (start_params h w2) as Hp.
  assert (Hd : ReturnHandler.defaultReturnHandler (rw w2)
                 [OfInt ty (s p); OfString (b p)]
               = snd (Write (b p) (WriteHeader (s p) (NewResponseWriter res)))).
  { rewrite (defaultReturnHandler_status _ (OfInt ty (s p)) (OfString (b p)) []
               eq_refl).
    reflexivity. }
  rewrite Hd in Hrw.
  assert (Hwh : Written (WriteHeader (s p) (NewResponseWriter res)) = true)
    by (apply Written_true; exact Hs).
  destruct (Write_written (b p) _ Hwh) as (Hwire & Hst & _).
  cbn [WriteHeader status] in Hst.
  assert (Hout : out =
            (Ok tt, set_cindex 1 (record (Returned Global 0 []) (snd (start h w2))))).
  { unfold out, Martini.ServeHTTP, Martini.run, w2, w1 in *. clear out.
    unfold m in *. clear m.
    unfold bind, get, lift, tell, modify, written, ret.
    cbn [Martini.createContext cindex Martini.handlers List.length Nat.sub
         Martini.run_n Nat.leb Martini.handler Nat.ltb Nat.eqb Martini.action
         Martini.InvokeAction rw Written status NewResponseWriter Z.eqb negb
         fst snd].
    unfold bind, get, lift, tell, modify, written, ret.
    cbn [cindex rw Written status NewResponseWriter Z.eqb negb record
         Martini.createContext].
    cbn [Nat.leb Nat.eqb Martini.InvokeAction]. unfold bind, get, ret.
    rewrite HH.
    destruct (start h _) as [x3 w3] eqn:E3.
    cbn [fst snd] in *. subst x3.
    cbn [rw record set_cindex cindex Nat.add]. unfold Written. rewrite Hrw, Hst.
    destruct (Z.eqb_spec (s p) 0); [contradiction|]. cbn [negb].
    assert (Hc : cindex w3 = 0%nat).
    { change w3 with (snd (Ok tt, w3)). rewrite <- E3.
      apply (start_keeps (fun w' => cindex w' = 0%nat)); auto. }
    rewrite Hc. reflexivity. }
  rewrite Hout. cbn [fst snd set_cindex record rw params]. rewrite Hrw, Hp.
  repeat split.
  - rewrite Hwire. unfold WriteHeader, NewResponseWriter, Written.
    cbn [status Z.eqb wire_of rw]. destruct (Z.eqb_spec (s p) 0); [contradiction|].
    cbn. rewrite <- app_assoc. reflexivity.
  - exact Hst.
Qed.

Lemma serve_matched_route_witness :
  let greet := WithParams (fun p =>
                 Return [OfInt "int" 201; OfString (default "" (p !! "id"))]) in
  let r := {| routes := [user_route "POST" []; user_route "GET" [Callable greet];
                         user_route "*" []];
              notFounds := [http_NotFound]; groups := [] |} in
  let m := {| Martini.handlers := []; Martini.action := Martini.Dispatch r;
              Martini.services := Some ReturnHandler.defaultReturnHandler |} in
  let out := Martini.ServeHTTP m plain_sink sample_request in
  fst out = Ok tt
  /\ wire_of (rw (snd out)) = [WireHeader 201; WireBody "42"]
  /\ Status (rw (snd out)) = 201%Z
  /\ params (snd out) = Some {[ "id" := "42" ]}.
Proof.
  intros greet r m out.
  assert (Hm : ~ (method_matches "POST" "GET"
                  /\ structurally_matches (user_route "POST" []) "/user/42")).
  { intros [[E|[E|[E _]]] _]; discriminate E. }
  assert (Hpre : Forall (fun x => ~ (method_matches (method x) "GET"
                                     /\ structurally_matches x "/user/42"))
                   [user_route "POST" []])
    by (constructor; [exact Hm|constructor]).
  destruct (serve_matched_route r [user_route "POST" []]
              [user_route "*" []] (user_route "GET" [Callable greet])
              plain_sink sample_request ["/user/42"; "42"] "int"
              (fun _ => 201%Z) (fun p => default "" (p !! "id"))
              eq_refl Hpre
              (or_introl eq_refl) eq_refl eq_refl)
    as (H1 & H2 & H3 & H4).
  { discriminate. }
  split; [exact H1|]. split; [|split; [exact H3|]].
  - exact H2.
  - unfold out, m. rewrite H4. apply f_equal. vm_compute. reflexivity.
Defined.

End ServeFacts.
